(** * Lightmap tracer: direct light, indirect light and the indirect filter

    A shallow embedding of the lightmap baking core (ParallelFor,
    RandomDirection, RandomHemisphereDirection, GetKernel, GetLuminance,
    CalculateEdgeWeight, BakeDirectionalLight, BakeIndirectLight and
    FilterIndirectLight) together with the properties of the baking
    pipeline that are established on it.

    Conventions of the embedding:
    - [unsigned] values are integers in [0, 2^32) and every arithmetic
      operation on them is reduced modulo 2^32;
    - [float] is an abstract carrier [F] with the operations of the class
      [FloatOps]; every definition and every general theorem is stated for
      an arbitrary instance.  Two instances are provided: IEEE binary32
      ([float32], built on [SpecFloat]) for evaluating the code on concrete
      inputs, and the real numbers for statements about exact arithmetic;
    - a call ends in an [Outcome]: a value, a failed [assert], undefined
      behaviour (an access outside an array, a read of an uninitialised
      array slot, a division of integers by zero) or an exhausted
      iteration budget for the rejection loop of [RandomDirection];
    - [assert] is the macro of a build that compiles the assertions in
      ([NDEBUG] not defined).  The functions that contain an assertion
      are given a second time, with the suffix [_NDEBUG], for the build
      in which [assert] expands to nothing;
    - the tasks of [ParallelFor] are executed one after another in the
      order in which they are posted. *)

From Stdlib Require Import ZArith Lia List Reals Lra.
From Stdlib Require Import Floats.SpecFloat.
From stdpp Require Import base option list list_numbers numbers.

Local Open Scope Z_scope.

(** ** Outcomes *)

Inductive Outcome (A : Type) : Type :=
| Ok (a : A)
| AssertFail
| Undefined
| OutOfFuel.

Arguments Ok {A} a.
Arguments AssertFail {A}.
Arguments Undefined {A}.
Arguments OutOfFuel {A}.

#[global] Instance Outcome_ret : MRet Outcome := @Ok.

#[global] Instance Outcome_bind : MBind Outcome := λ A B f m,
  match m with
  | Ok a => f a
  | AssertFail => AssertFail
  | Undefined => Undefined
  | OutOfFuel => OutOfFuel
  end.

(** [assert(c)] in a build that compiles the assertions in ([NDEBUG] not
    defined): a check that fails ends the call.  With [NDEBUG] the macro
    expands to nothing: see [GetKernel_NDEBUG], [BakeIndirectLight_NDEBUG]
    and [FilterIndirectLight_NDEBUG]. *)
Definition assert (c : bool) : Outcome unit :=
  if c then Ok tt else AssertFail.

(** [v[i]] on a vector or an array: outside the bounds the behaviour is
    undefined. *)
Definition at_index {A} (v : list A) (i : Z) : Outcome A :=
  if decide (0 ≤ i) then
    match v !! Z.to_nat i with
    | Some a => Ok a
    | None => Undefined
    end
  else Undefined.

(** [v[i] = a] *)
Definition set_index {A} (v : list A) (i : Z) (a : A) : Outcome (list A) :=
  if decide (0 ≤ i < Z.of_nat (length v)) then Ok (<[Z.to_nat i := a]> v)
  else Undefined.

(** Running a loop body over a list of loop indices, threading the state. *)
Fixpoint foldM {A S} (body : A → S → Outcome S) (l : list A) (s : S) : Outcome S :=
  match l with
  | [] => Ok s
  | a :: l' => s' ← body a s; foldM body l' s'
  end.

(** The indices visited by [for (i = fromIndex; i < toIndex; ++i)]. *)
Definition loop_indices (fromIndex toIndex : Z) : list Z :=
  seqZ fromIndex (toIndex - fromIndex).

(** [for (unsigned i = fromIndex; i < toIndex; ++i) body(i)] *)
Definition for_range {S} (fromIndex toIndex : Z) (body : Z → S → Outcome S)
    (s : S) : Outcome S :=
  foldM body (loop_indices fromIndex toIndex) s.

(** ** Arithmetic of [unsigned] *)

Definition wrap32 (z : Z) : Z := z mod 2 ^ 32.

Definition uadd (a b : Z) : Z := wrap32 (a + b).
Definition usub (a b : Z) : Z := wrap32 (a - b).
Definition umul (a b : Z) : Z := wrap32 (a * b).

(** [ea::min(a, b)] is [b < a ? b : a], [ea::max(a, b)] is [a < b ? b : a]. *)
Definition ea_min (a b : Z) : Z := if b <? a then b else a.
Definition ea_max (a b : Z) : Z := if a <? b then b else a.

(** A vector's [size()] passed as an [unsigned] argument. *)
Definition size_unsigned {A} (v : list A) : Z := wrap32 (Z.of_nat (length v)).

(** ** ParallelFor *)

Definition chunkSize (count numThreads : Z) : Z :=
  usub (uadd count numThreads) 1 / numThreads.

Definition fromIndex (count numThreads i : Z) : Z :=
  umul i (chunkSize count numThreads).

Definition toIndex (count numThreads i : Z) : Z :=
  ea_min (uadd (fromIndex count numThreads i) (chunkSize count numThreads)) count.

(** The task posted for thread [i]. *)
Definition ParallelFor_task {S} (count numThreads : Z)
    (callback : Z → Z → S → Outcome S) (i : Z) (s : S) : Outcome S :=
  callback (fromIndex count numThreads i) (toIndex count numThreads i) s.

Definition ParallelFor {S} (count numThreads : Z)
    (callback : Z → Z → S → Outcome S) (s : S) : Outcome S :=
  if decide (numThreads = 0) then Undefined
  else foldM (ParallelFor_task count numThreads callback) (seqZ 0 numThreads) s.

(** The [(fromIndex, toIndex)] pairs handed to the callback, in posting
    order, and the indices a callback of the form
    [for (i = fromIndex; i < toIndex; ++i)] visits on them. *)
Definition ParallelFor_chunks (count numThreads : Z) : list (Z * Z) :=
  (λ i, (fromIndex count numThreads i, toIndex count numThreads i)) <$> seqZ 0 numThreads.

Definition ParallelFor_indices (count numThreads : Z) : list Z :=
  mjoin ((λ c : Z * Z, loop_indices c.1 c.2) <$> ParallelFor_chunks count numThreads).

(** ** Floating-point numbers

    The operations of [float] the code uses.  [of_int] is the conversion
    of an integer constant or of an [int] value ([static_cast<float>]);
    [lit_0_001] is the literal [0.001f]. *)

Class FloatOps (F : Type) : Type := {
  of_int : Z → F;
  lit_0_001 : F;
  fadd : F → F → F;
  fsub : F → F → F;
  fmul : F → F → F;
  fdiv : F → F → F;
  fneg : F → F;
  fltb : F → F → bool;
}.

Declare Scope float_scope.
Delimit Scope float_scope with flt.
Infix "⊕" := fadd (at level 50, left associativity) : float_scope.
Infix "⊖" := fsub (at level 50, left associativity) : float_scope.
Infix "⊗" := fmul (at level 40, left associativity) : float_scope.
Infix "⊘" := fdiv (at level 40, left associativity) : float_scope.
Local Open Scope float_scope.

(** [ea::max(a, b)] on [float]: [a < b ? b : a]. *)
Definition fmax `{FloatOps F} (a b : F) : F := if fltb a b then b else a.

(** ** Vectors

    The vector and colour classes of the engine's math library are not
    among the sources.  They are records of [float] coordinates with
    componentwise arithmetic; a default-constructed vector is zero. *)

Record Vector2 (F : Type) : Type := mkVector2 { x2_ : F; y2_ : F }.
Record Vector3 (F : Type) : Type := mkVector3 { x_ : F; y_ : F; z_ : F }.
Record Vector4 (F : Type) : Type := mkVector4 { x4_ : F; y4_ : F; z4_ : F; w4_ : F }.
Record Color (F : Type) : Type := mkColor { r_ : F; g_ : F; b_ : F; a_ : F }.
Record IntVector2 : Type := mkIntVector2 { ix_ : Z; iy_ : Z }.

Arguments mkVector2 {F} _ _.
Arguments x2_ {F} _.
Arguments y2_ {F} _.
Arguments mkVector3 {F} _ _ _.
Arguments x_ {F} _.
Arguments y_ {F} _.
Arguments z_ {F} _.
Arguments mkVector4 {F} _ _ _ _.
Arguments x4_ {F} _.
Arguments y4_ {F} _.
Arguments z4_ {F} _.
Arguments w4_ {F} _.
Arguments mkColor {F} _ _ _ _.
Arguments r_ {F} _.
Arguments g_ {F} _.
Arguments b_ {F} _.
Arguments a_ {F} _.

Section VectorOps.
Context {F : Type} `{!FloatOps F}.

(** [Vector3()] *)
Definition Vector3_zero : Vector3 F := mkVector3 (of_int 0) (of_int 0) (of_int 0).

(** [Vector4(v, w)] *)
Definition Vector4_of (v : Vector3 F) (w : F) : Vector4 F :=
  mkVector4 (x_ v) (y_ v) (z_ v) w.

(** [Color{ r, g, b }]: alpha is 1. *)
Definition Color_rgb (r g b : F) : Color F := mkColor r g b (of_int 1).

(** [Color::ToVector3] *)
Definition ToVector3 (c : Color F) : Vector3 F := mkVector3 (r_ c) (g_ c) (b_ c).

Definition v3neg (a : Vector3 F) : Vector3 F :=
  mkVector3 (fneg (x_ a)) (fneg (y_ a)) (fneg (z_ a)).
Definition v3add (a b : Vector3 F) : Vector3 F :=
  mkVector3 (x_ a ⊕ x_ b) (y_ a ⊕ y_ b) (z_ a ⊕ z_ b).
Definition v3sub (a b : Vector3 F) : Vector3 F :=
  mkVector3 (x_ a ⊖ x_ b) (y_ a ⊖ y_ b) (z_ a ⊖ z_ b).
Definition v3scale (a : Vector3 F) (k : F) : Vector3 F :=
  mkVector3 (x_ a ⊗ k) (y_ a ⊗ k) (z_ a ⊗ k).
Definition v3div (a : Vector3 F) (k : F) : Vector3 F :=
  mkVector3 (x_ a ⊘ k) (y_ a ⊘ k) (z_ a ⊘ k).
Definition DotProduct (a b : Vector3 F) : F :=
  x_ a ⊗ x_ b ⊕ y_ a ⊗ y_ b ⊕ z_ a ⊗ z_ b.
Definition LengthSquared (a : Vector3 F) : F :=
  x_ a ⊗ x_ a ⊕ y_ a ⊗ y_ a ⊕ z_ a ⊗ z_ a.

Definition v4add (a b : Vector4 F) : Vector4 F :=
  mkVector4 (x4_ a ⊕ x4_ b) (y4_ a ⊕ y4_ b) (z4_ a ⊕ z4_ b) (w4_ a ⊕ w4_ b).
Definition v4scale (a : Vector4 F) (k : F) : Vector4 F :=
  mkVector4 (x4_ a ⊗ k) (y4_ a ⊗ k) (z4_ a ⊗ k) (w4_ a ⊗ k).
Definition v4div (a : Vector4 F) (k : F) : Vector4 F :=
  mkVector4 (x4_ a ⊘ k) (y4_ a ⊘ k) (z4_ a ⊘ k) (w4_ a ⊘ k).
End VectorOps.

(** [IntVector2] arithmetic ([int] coordinates; signed overflow is not
    modelled). *)
Definition iv2scale (a : IntVector2) (k : Z) : IntVector2 :=
  mkIntVector2 (ix_ a * k) (iy_ a * k).
Definition iv2add (a b : IntVector2) : IntVector2 :=
  mkIntVector2 (ix_ a + ix_ b) (iy_ a + iy_ b).

(** ** Charts, lights and settings *)

Module Geometry.
Record LightmapChartBakedGeometry (F : Type) : Type := mk {
  width_ : Z;
  height_ : Z;
  geometryPositions_ : list (Vector3 F);
  smoothNormals_ : list (Vector3 F);
  geometryIds_ : list Z;
}.
Arguments mk {F} _ _ _ _ _.
Arguments width_ {F} _.
Arguments height_ {F} _.
Arguments geometryPositions_ {F} _.
Arguments smoothNormals_ {F} _.
Arguments geometryIds_ {F} _.
End Geometry.

Module Direct.
Record LightmapChartBakedDirect (F : Type) : Type := mk {
  width_ : Z;
  height_ : Z;
  light_ : list (Vector3 F);
}.
Arguments mk {F} _ _ _.
Arguments width_ {F} _.
Arguments height_ {F} _.
Arguments light_ {F} _.
End Direct.

Module Indirect.
Record LightmapChartBakedIndirect (F : Type) : Type := mk {
  width_ : Z;
  height_ : Z;
  light_ : list (Vector4 F);
  lightSwap_ : list (Vector4 F);
}.
Arguments mk {F} _ _ _ _.
Arguments width_ {F} _.
Arguments height_ {F} _.
Arguments light_ {F} _.
Arguments lightSwap_ {F} _.
End Indirect.

Record LightmapChart : Type := mkLightmapChart { chartWidth_ : Z; chartHeight_ : Z }.

Record DirectionalLightParameters (F : Type) : Type := mkDirectionalLightParameters {
  direction_ : Vector3 F;
  color_ : Color F;
}.
Arguments mkDirectionalLightParameters {F} _ _.
Arguments direction_ {F} _.
Arguments color_ {F} _.

Record LightmapTracingSettings (F : Type) : Type := mkLightmapTracingSettings {
  numThreads_ : Z;
  numBounces_ : Z;
  rayPositionOffset_ : F;
}.
Arguments mkLightmapTracingSettings {F} _ _ _.
Arguments numThreads_ {F} _.
Arguments numBounces_ {F} _.
Arguments rayPositionOffset_ {F} _.

Record IndirectFilterParameters (F : Type) : Type := mkIndirectFilterParameters {
  kernelRadius_ : Z;
  upscale_ : Z;
  luminanceSigma_ : F;
  positionSigma_ : F;
  normalPower_ : F;
}.
Arguments mkIndirectFilterParameters {F} _ _ _ _ _.
Arguments kernelRadius_ {F} _.
Arguments upscale_ {F} _.
Arguments luminanceSigma_ {F} _.
Arguments positionSigma_ {F} _.
Arguments normalPower_ {F} _.

(** ** Rays and hits *)

Record RTCRay (F : Type) : Type := mkRTCRay {
  org : Vector3 F;
  dir : Vector3 F;
  tnear : F;
  tfar : F;
  time : F;
  id : Z;
  mask : Z;
  flags : Z;
}.
Arguments mkRTCRay {F} _ _ _ _ _ _ _ _.
Arguments org {F} _.
Arguments dir {F} _.
Arguments tnear {F} _.
Arguments tfar {F} _.
Arguments time {F} _.
Arguments id {F} _.
Arguments mask {F} _.
Arguments flags {F} _.

Record RTCHit (F : Type) : Type := mkRTCHit {
  Ng : Vector3 F;
  u : F;
  v : F;
  primID : Z;
  geomID : Z;
}.
Arguments mkRTCHit {F} _ _ _ _ _.
Arguments Ng {F} _.
Arguments u {F} _.
Arguments v {F} _.
Arguments primID {F} _.
Arguments geomID {F} _.

Definition RTC_INVALID_GEOMETRY_ID : Z := 4294967295.

(** ** What the sources use and do not define

    The engine's math library ([M_PI], [M_EPSILON], [Abs],
    [Vector3::Length], [Vector3::Normalized], [Vector2::Length],
    [Color::Luma], [Random]), the chart helpers ([SampleNearest],
    [IndexToLocation], [IsValidLocation], [LocationToIndex]), the bounce
    capacity [LightmapTracingSettings::MaxBounces], the ray tracer
    ([rtcIntersect1], [rtcInterpolate0]) and the C library ([std::exp],
    and [pow] behind [Pow]) are parameters of the embedding.

    [Random] draws from the state of the generator and returns the new
    state.  [rtcIntersect] is [rtcIntersect1] as a function of the ray: no
    result when nothing is hit (the ray-hit structure is left as it is),
    otherwise the distance written to [tfar] and the hit record. *)

Class Engine (F : Type) : Type := {
  M_PI : F;
  M_EPSILON : F;
  Abs : F → F;
  Length : Vector3 F → F;
  Normalized : Vector3 F → Vector3 F;
  Length2 : Vector2 F → F;
  Luma : Color F → F;
  Rng : Type;
  Random : F → F → Rng → F * Rng;
  MaxBounces : Z;
  SampleNearest : Direct.LightmapChartBakedDirect F → Vector2 F → Vector3 F;
  IndexToLocation : Geometry.LightmapChartBakedGeometry F → Z → IntVector2;
  IsValidLocation : Geometry.LightmapChartBakedGeometry F → IntVector2 → bool;
  LocationToIndex : Geometry.LightmapChartBakedGeometry F → IntVector2 → Z;
  RTCScene : Type;
  RTCGeometry : Type;
  rtcIntersect : RTCScene → RTCRay F → option (F * RTCHit F);
  rtcInterpolate0 : RTCGeometry → Z → F → F → Vector2 F;
}.

(** [Pow] and [std::exp]: used by the filter only. *)
Class LibM (F : Type) : Type := {
  Pow : F → F → F;
  exp : F → F;
}.

Record EmbreeScene (F : Type) `{!Engine F} : Type := mkEmbreeScene {
  GetEmbreeScene : RTCScene;
  GetMaxDistance : F;
  GetEmbreeGeometryIndex : list RTCGeometry;
}.
Arguments mkEmbreeScene {F _} _ _ _.
Arguments GetEmbreeScene {F _} _.
Arguments GetMaxDistance {F _} _.
Arguments GetEmbreeGeometryIndex {F _} _.

(** ** The state of the loops of the indirect baker *)

(** The two arrays of a task; a slot of [incomingFactors] that has not
    been written holds no value. *)
Record BounceArrays (F : Type) : Type := mkBounceArrays {
  incomingSamples : list (Vector3 F);
  incomingFactors : list (option F);
}.
Arguments mkBounceArrays {F} _ _.
Arguments incomingSamples {F} _.
Arguments incomingFactors {F} _.

(** The state of the loop over the bounces of one texel; [Gen] is the type
    of the states of the random generator. *)
Record PathState (F Gen : Type) : Type := mkPathState {
  numSamples : Z;
  currentPosition : Vector3 F;
  currentNormal : Vector3 F;
  arrays : BounceArrays F;
  path_rng : Gen;
}.
Arguments mkPathState {F Gen} _ _ _ _ _.
Arguments numSamples {F Gen} _.
Arguments currentPosition {F Gen} _.
Arguments currentNormal {F Gen} _.
Arguments arrays {F Gen} _.
Arguments path_rng {F Gen} _.

(** The state of the loop over the texels of a task. *)
Record TaskState (F Gen : Type) : Type := mkTaskState {
  task_arrays : BounceArrays F;
  task_light : list (Vector4 F);
  task_rng : Gen;
}.
Arguments mkTaskState {F Gen} _ _ _.
Arguments task_arrays {F Gen} _.
Arguments task_light {F Gen} _.
Arguments task_rng {F Gen} _.

(** ** The tracer *)

Section Tracer.
Context {F : Type} `{!FloatOps F} `{!Engine F} `{!LibM F}.

(** *** Sampling utilities *)

(** [RandomDirection]: the [do ... while (len > 1.0f)] loop, with a
    budget of iterations. *)
Fixpoint RandomDirection (fuel : nat) (rng : Rng) : Outcome (Vector3 F * Rng) :=
  match fuel with
  | O => OutOfFuel
  | S fuel' =>
    let '(x, rng) := Random (of_int (-1)) (of_int 1) rng in
    let '(y, rng) := Random (of_int (-1)) (of_int 1) rng in
    let '(z, rng) := Random (of_int (-1)) (of_int 1) rng in
    let result := mkVector3 x y z in
    let len := Length result in
    if fltb (of_int 1) len then RandomDirection fuel' rng
    else Ok (v3div result len, rng)
  end.

Definition RandomHemisphereDirection (fuel : nat) (normal : Vector3 F) (rng : Rng)
    : Outcome (Vector3 F * Rng) :=
  '(result, rng) ← RandomDirection fuel rng;
  Ok (if fltb (DotProduct result normal) (of_int 0) then v3neg result else result, rng).

Definition k0 : list F := [of_int 1].
Definition k1 : list F := [of_int 2 ⊘ of_int 4; of_int 1 ⊘ of_int 4].
Definition k2 : list F :=
  [of_int 6 ⊘ of_int 16; of_int 4 ⊘ of_int 16; of_int 1 ⊘ of_int 16].

Definition GetKernel (radius : Z) : Outcome (list F) :=
  match radius with
  | 0 => Ok k0
  | 1 => Ok k1
  | 2 => Ok k2
  | _ => _ ← assert false; Ok []
  end.

Definition GetLuminance (color : Vector4 F) : F :=
  Luma (Color_rgb (x4_ color) (y4_ color) (z4_ color)).

Definition CalculateEdgeWeight
    (luminance1 luminance2 luminanceSigma : F)
    (position1 position2 : Vector3 F) (positionSigma : F)
    (normal1 normal2 : Vector3 F) (normalPower : F) : F :=
  let colorWeight := Abs (luminance1 ⊖ luminance2) ⊘ luminanceSigma in
  let positionWeight := LengthSquared (v3sub position1 position2) ⊘ positionSigma in
  let normalWeight := Pow (fmax (of_int 0) (DotProduct normal1 normal2)) normalPower in
  exp (of_int 0 ⊖ colorWeight ⊖ positionWeight) ⊗ normalWeight.

(** *** Allocation of the buffers *)

Definition Vector4_zero : Vector4 F :=
  mkVector4 (of_int 0) (of_int 0) (of_int 0) (of_int 0).

(** Modelled from the spec: the constructor
    [LightmapChartBakedDirect(width, height)], which is not among the
    sources.  The spec has the baked direct light as a sequence of
    radiance values, one per texel, initialized to zero. *)
Definition LightmapChartBakedDirect_new (width height : Z)
    : Direct.LightmapChartBakedDirect F :=
  Direct.mk width height (replicate (Z.to_nat (width * height)) Vector3_zero).

(** Modelled from the spec: the constructor
    [LightmapChartBakedIndirect(width, height)], which is not among the
    sources.  Both buffers have one entry per texel; they are taken to
    start at zero like the direct buffer. *)
Definition LightmapChartBakedIndirect_new (width height : Z)
    : Indirect.LightmapChartBakedIndirect F :=
  Indirect.mk width height
    (replicate (Z.to_nat (width * height)) Vector4_zero)
    (replicate (Z.to_nat (width * height)) Vector4_zero).

Definition InitializeLightmapChartsBakedDirect (charts : list LightmapChart)
    : list (Direct.LightmapChartBakedDirect F) :=
  (λ chart, LightmapChartBakedDirect_new (chartWidth_ chart) (chartHeight_ chart))
  <$> charts.

Definition InitializeLightmapChartsBakedIndirect (charts : list LightmapChart)
    : list (Indirect.LightmapChartBakedIndirect F) :=
  (λ chart, LightmapChartBakedIndirect_new (chartWidth_ chart) (chartHeight_ chart))
  <$> charts.

(** *** Rays *)

(** The ray handed to [rtcIntersect1]: origin, direction and [tfar] are
    set for every cast, the other fields once per task. *)
Definition make_ray (origin direction : Vector3 F) (maxDistance : F) : RTCRay F :=
  mkRTCRay origin direction (of_int 0) maxDistance (of_int 0) 0 4294967295 4294967295.

(** [rtcIntersect1] after [hit.geomID = RTC_INVALID_GEOMETRY_ID]: the
    distance and the hit when the test
    [hit.geomID == RTC_INVALID_GEOMETRY_ID] fails afterwards. *)
Definition cast_ray (scene : RTCScene) (ray : RTCRay F) : option (F * RTCHit F) :=
  match rtcIntersect scene ray with
  | Some (t, hit) =>
    if decide (geomID hit = RTC_INVALID_GEOMETRY_ID) then None else Some (t, hit)
  | None => None
  end.

(** *** Direct light *)

Definition shadow_ray (rayDirection : Vector3 F) (maxDistance : F)
    (position : Vector3 F) : RTCRay F :=
  make_ray
    (mkVector3 (x_ position ⊕ x_ rayDirection ⊗ lit_0_001)
               (y_ position ⊕ y_ rayDirection ⊗ lit_0_001)
               (z_ position ⊕ z_ rayDirection ⊗ lit_0_001))
    rayDirection maxDistance.

(** What one texel receives from the light. *)
Definition direct_contribution (scene : RTCScene) (rayDirection : Vector3 F)
    (maxDistance : F) (lightColor position smoothNormal : Vector3 F) : Vector3 F :=
  let shadowFactor :=
    match cast_ray scene (shadow_ray rayDirection maxDistance position) with
    | None => of_int 1
    | Some _ => of_int 0
    end in
  let directLight := fmax (of_int 0) (DotProduct smoothNormal rayDirection) in
  v3scale (v3scale lightColor shadowFactor) directLight.

(** The body of the loop over the texels of a task. *)
Definition BakeDirectionalLight_texel
    (bakedGeometry : Geometry.LightmapChartBakedGeometry F) (scene : RTCScene)
    (rayDirection : Vector3 F) (maxDistance : F) (lightColor : Vector3 F)
    (i : Z) (light : list (Vector3 F)) : Outcome (list (Vector3 F)) :=
  position ← at_index (Geometry.geometryPositions_ bakedGeometry) i;
  smoothNormal ← at_index (Geometry.smoothNormals_ bakedGeometry) i;
  geometryId ← at_index (Geometry.geometryIds_ bakedGeometry) i;
  if decide (geometryId = 0) then Ok light
  else
    old ← at_index light i;
    set_index light i
      (v3add old
         (direct_contribution scene rayDirection maxDistance lightColor position smoothNormal)).

Definition light_rayDirection (light : DirectionalLightParameters F) : Vector3 F :=
  v3neg (Normalized (direction_ light)).

(** What a texel at [position] with normal [smoothNormal] receives from
    [light] in one call. *)
Definition light_contribution (embreeScene : EmbreeScene F)
    (light : DirectionalLightParameters F) (position smoothNormal : Vector3 F)
    : Vector3 F :=
  direct_contribution (GetEmbreeScene embreeScene) (light_rayDirection light)
    (GetMaxDistance embreeScene) (ToVector3 (color_ light)) position smoothNormal.

Definition BakeDirectionalLight
    (bakedDirect : Direct.LightmapChartBakedDirect F)
    (bakedGeometry : Geometry.LightmapChartBakedGeometry F)
    (embreeScene : EmbreeScene F) (light : DirectionalLightParameters F)
    (settings : LightmapTracingSettings F)
    : Outcome (Direct.LightmapChartBakedDirect F) :=
  let rayDirection := light_rayDirection light in
  let maxDistance := GetMaxDistance embreeScene in
  let lightColor := ToVector3 (color_ light) in
  let scene := GetEmbreeScene embreeScene in
  light' ← ParallelFor (size_unsigned (Direct.light_ bakedDirect)) (numThreads_ settings)
    (λ fromIndex toIndex,
       for_range fromIndex toIndex
         (BakeDirectionalLight_texel bakedGeometry scene rayDirection maxDistance lightColor))
    (Direct.light_ bakedDirect);
  Ok (Direct.mk (Direct.width_ bakedDirect) (Direct.height_ bakedDirect) light').

(** *** Indirect light *)

(** At the start of a task [incomingSamples] is default-constructed (zero
    vectors) and [incomingFactors] is not initialised. *)
Definition BounceArrays_fresh : BounceArrays F :=
  mkBounceArrays (replicate (Z.to_nat MaxBounces) Vector3_zero)
                 (replicate (Z.to_nat MaxBounces) None).

Definition bounce_ray (settings : LightmapTracingSettings F) (maxDistance : F)
    (currentPosition currentNormal rayDirection : Vector3 F) : RTCRay F :=
  make_ray
    (mkVector3 (x_ currentPosition ⊕ x_ currentNormal ⊗ rayPositionOffset_ settings)
               (y_ currentPosition ⊕ y_ currentNormal ⊗ rayPositionOffset_ settings)
               (z_ currentPosition ⊕ z_ currentNormal ⊗ rayPositionOffset_ settings))
    rayDirection maxDistance.

(** [brdf * cosTheta / probability] *)
Definition incoming_factor (rayDirection currentNormal : Vector3 F) : F :=
  let probability := of_int 1 ⊘ (of_int 2 ⊗ M_PI) in
  let cosTheta := DotProduct rayDirection currentNormal in
  let reflectance := of_int 1 ⊘ M_PI in
  let brdf := reflectance ⊘ M_PI in
  brdf ⊗ cosTheta ⊘ probability.

(** The body of the loop over the bounces. *)
Definition BakeIndirectLight_bounce (fuel : nat)
    (bakedDirect : list (Direct.LightmapChartBakedDirect F))
    (embreeScene : EmbreeScene F) (settings : LightmapTracingSettings F)
    (j : Z) (st : PathState F Rng) : Outcome (PathState F Rng) :=
  '(rayDirection, rng) ← RandomHemisphereDirection fuel (currentNormal st) (path_rng st);
  let ray := bounce_ray settings (GetMaxDistance embreeScene)
               (currentPosition st) (currentNormal st) rayDirection in
  match cast_ray (GetEmbreeScene embreeScene) ray with
  | None =>
    Ok (mkPathState (numSamples st) (currentPosition st) (currentNormal st) (arrays st) rng)
  | Some (hit_tfar, hit) =>
    geometry ← at_index (GetEmbreeGeometryIndex embreeScene) (geomID hit);
    let lightmapUV := rtcInterpolate0 geometry (primID hit) (u hit) (v hit) in
    chart ← at_index bakedDirect 0;
    samples ← set_index (incomingSamples (arrays st)) j (SampleNearest chart lightmapUV);
    factors ← set_index (incomingFactors (arrays st)) j
                (Some (incoming_factor rayDirection (currentNormal st)));
    let numSamples' := numSamples st + 1 in
    if numSamples' <? numBounces_ settings then
      Ok (mkPathState numSamples'
            (mkVector3 (x_ (org ray) ⊕ x_ (dir ray) ⊗ hit_tfar)
                       (y_ (org ray) ⊕ y_ (dir ray) ⊗ hit_tfar)
                       (z_ (org ray) ⊕ z_ (dir ray) ⊗ hit_tfar))
            (Normalized (Ng hit))
            (mkBounceArrays samples factors) rng)
    else
      Ok (mkPathState numSamples' (currentPosition st) (currentNormal st)
            (mkBounceArrays samples factors) rng)
  end.

(** One step of the accumulation loop: [indirectLighting += incomingSamples[j];
    indirectLighting *= incomingFactors[j]]. *)
Definition accumulate_step (a : BounceArrays F) (j : Z) (indirectLighting : Vector3 F)
    : Outcome (Vector3 F) :=
  sample ← at_index (incomingSamples a) j;
  slot ← at_index (incomingFactors a) j;
  match slot with
  | Some factor => Ok (v3scale (v3add indirectLighting sample) factor)
  | None => Undefined
  end.

(** [for (int j = numSamples - 1; j >= 0; --j)] *)
Definition accumulate (a : BounceArrays F) (numSamples : Z) : Outcome (Vector3 F) :=
  foldM (accumulate_step a) (reverse (seqZ 0 numSamples)) Vector3_zero.

Definition BakeIndirectLight_texel (fuel : nat)
    (bakedDirect : list (Direct.LightmapChartBakedDirect F))
    (bakedGeometry : Geometry.LightmapChartBakedGeometry F)
    (embreeScene : EmbreeScene F) (settings : LightmapTracingSettings F)
    (i : Z) (ts : TaskState F Rng) : Outcome (TaskState F Rng) :=
  position ← at_index (Geometry.geometryPositions_ bakedGeometry) i;
  smoothNormal ← at_index (Geometry.smoothNormals_ bakedGeometry) i;
  geometryId ← at_index (Geometry.geometryIds_ bakedGeometry) i;
  if decide (geometryId = 0) then Ok ts
  else
    st ← for_range 0 (numBounces_ settings)
           (BakeIndirectLight_bounce fuel bakedDirect embreeScene settings)
           (mkPathState 0 position smoothNormal (task_arrays ts) (task_rng ts));
    indirectLighting ← accumulate (arrays st) (numSamples st);
    old ← at_index (task_light ts) i;
    light ← set_index (task_light ts) i
              (v4add old (Vector4_of indirectLighting (of_int 1)));
    Ok (mkTaskState (arrays st) light (path_rng st)).

(** The callback of [ParallelFor]: the arrays are local to the task, the
    buffer and the random generator are shared. *)
Definition BakeIndirectLight_task (fuel : nat)
    (bakedDirect : list (Direct.LightmapChartBakedDirect F))
    (bakedGeometry : Geometry.LightmapChartBakedGeometry F)
    (embreeScene : EmbreeScene F) (settings : LightmapTracingSettings F)
    (fromIndex toIndex : Z) (s : list (Vector4 F) * Rng)
    : Outcome (list (Vector4 F) * Rng) :=
  ts ← for_range fromIndex toIndex
         (BakeIndirectLight_texel fuel bakedDirect bakedGeometry embreeScene settings)
         (mkTaskState BounceArrays_fresh s.1 s.2);
  Ok (task_light ts, task_rng ts).

Definition BakeIndirectLight (fuel : nat)
    (bakedIndirect : Indirect.LightmapChartBakedIndirect F)
    (bakedDirect : list (Direct.LightmapChartBakedDirect F))
    (bakedGeometry : Geometry.LightmapChartBakedGeometry F)
    (embreeScene : EmbreeScene F) (settings : LightmapTracingSettings F)
    (rng : Rng) : Outcome (Indirect.LightmapChartBakedIndirect F * Rng) :=
  _ ← assert (bool_decide (numBounces_ settings ≤ MaxBounces));
  '(light, rng) ← ParallelFor (size_unsigned (Indirect.light_ bakedIndirect))
    (numThreads_ settings)
    (BakeIndirectLight_task fuel bakedDirect bakedGeometry embreeScene settings)
    (Indirect.light_ bakedIndirect, rng);
  Ok (Indirect.mk (Indirect.width_ bakedIndirect) (Indirect.height_ bakedIndirect)
        light (Indirect.lightSwap_ bakedIndirect), rng).

(** *** The filter *)

(** The body of the loop over [dx]: the accumulator is
    [(colorSum, colorWeight)]. *)
Definition FilterIndirectLight_tap
    (light : list (Vector4 F))
    (bakedGeometry : Geometry.LightmapChartBakedGeometry F)
    (params : IndirectFilterParameters F) (kernelWeights : list F)
    (centerLocation : IntVector2) (centerLuminance : F)
    (centerPosition centerNormal : Vector3 F)
    (dy dx : Z) (acc : Vector4 F * F) : Outcome (Vector4 F * F) :=
  if bool_decide (dx = 0) && bool_decide (dy = 0) then Ok acc
  else
    let offset := iv2scale (mkIntVector2 dx dy) (upscale_ params) in
    let otherLocation := iv2add centerLocation offset in
    if negb (IsValidLocation bakedGeometry otherLocation) then Ok acc
    else
      let dxdy := Length2 (mkVector2 (of_int dx) (of_int dy)) in
      kernelX ← at_index kernelWeights (Z.abs dx);
      kernelY ← at_index kernelWeights (Z.abs dy);
      let kernel := kernelX ⊗ kernelY in
      let otherIndex := LocationToIndex bakedGeometry otherLocation in
      otherGeometryId ← at_index (Geometry.geometryIds_ bakedGeometry) otherIndex;
      if decide (otherGeometryId = 0) then Ok acc
      else
        otherColor ← at_index light otherIndex;
        otherPosition ← at_index (Geometry.geometryPositions_ bakedGeometry) otherIndex;
        otherNormal ← at_index (Geometry.smoothNormals_ bakedGeometry) otherIndex;
        let weight :=
          CalculateEdgeWeight centerLuminance (GetLuminance otherColor)
            (luminanceSigma_ params)
            centerPosition otherPosition (dxdy ⊗ positionSigma_ params)
            centerNormal otherNormal (normalPower_ params) in
        Ok (v4add acc.1 (v4scale (v4scale otherColor weight) kernel),
            acc.2 ⊕ weight ⊗ kernel).

(** [for (int d = -kernelRadius; d <= kernelRadius; ++d)] *)
Definition kernel_offsets (kernelRadius : Z) : list Z :=
  loop_indices (- kernelRadius) (kernelRadius + 1).

(** The two nested loops over [dy] and [dx]. *)
Definition FilterIndirectLight_gather
    (light : list (Vector4 F))
    (bakedGeometry : Geometry.LightmapChartBakedGeometry F)
    (params : IndirectFilterParameters F) (kernelWeights : list F)
    (centerLocation : IntVector2) (centerLuminance : F)
    (centerPosition centerNormal : Vector3 F)
    (acc : Vector4 F * F) : Outcome (Vector4 F * F) :=
  foldM
    (λ dy, foldM
       (FilterIndirectLight_tap light bakedGeometry params kernelWeights
          centerLocation centerLuminance centerPosition centerNormal dy)
       (kernel_offsets (kernelRadius_ params)))
    (kernel_offsets (kernelRadius_ params))
    acc.

(** The body of the loop over the texels of a task: reads [light_],
    writes [lightSwap_]. *)
Definition FilterIndirectLight_texel
    (light : list (Vector4 F))
    (bakedGeometry : Geometry.LightmapChartBakedGeometry F)
    (params : IndirectFilterParameters F) (kernelWeights : list F)
    (index : Z) (lightSwap : list (Vector4 F)) : Outcome (list (Vector4 F)) :=
  geometryId ← at_index (Geometry.geometryIds_ bakedGeometry) index;
  if decide (geometryId = 0) then Ok lightSwap
  else
    let centerLocation := IndexToLocation bakedGeometry index in
    centerColor ← at_index light index;
    let centerLuminance := GetLuminance centerColor in
    centerPosition ← at_index (Geometry.geometryPositions_ bakedGeometry) index;
    centerNormal ← at_index (Geometry.smoothNormals_ bakedGeometry) index;
    kernel0 ← at_index kernelWeights 0;
    let colorWeight := kernel0 ⊗ kernel0 in
    let colorSum := v4scale centerColor colorWeight in
    acc ← FilterIndirectLight_gather light bakedGeometry params kernelWeights
            centerLocation centerLuminance centerPosition centerNormal
            (colorSum, colorWeight);
    set_index lightSwap index (v4div acc.1 (fmax M_EPSILON acc.2)).

Definition FilterIndirectLight
    (bakedIndirect : Indirect.LightmapChartBakedIndirect F)
    (bakedGeometry : Geometry.LightmapChartBakedGeometry F)
    (params : IndirectFilterParameters F) (numThreads : Z)
    : Outcome (Indirect.LightmapChartBakedIndirect F) :=
  kernelWeights ← GetKernel (kernelRadius_ params);
  lightSwap ← ParallelFor (size_unsigned (Indirect.light_ bakedIndirect)) numThreads
    (λ fromIndex toIndex,
       for_range fromIndex toIndex
         (FilterIndirectLight_texel (Indirect.light_ bakedIndirect) bakedGeometry
            params kernelWeights))
    (Indirect.lightSwap_ bakedIndirect);
  Ok (Indirect.mk (Indirect.width_ bakedIndirect) (Indirect.height_ bakedIndirect)
        lightSwap (Indirect.light_ bakedIndirect)).
End Tracer.

(** ** The build with [NDEBUG]

    When [NDEBUG] is defined [assert] expands to nothing.  The two
    functions that contain an assertion, and the filter, which calls
    [GetKernel], then read as follows; every other function is the same
    in both builds. *)

Section NDEBUG.
Context {F : Type} `{!FloatOps F} `{!Engine F} `{!LibM F}.

(** [default: return {};] gives an empty span. *)
Definition GetKernel_NDEBUG (radius : Z) : list F :=
  match radius with
  | 0 => k0
  | 1 => k1
  | 2 => k2
  | _ => []
  end.

Definition BakeIndirectLight_NDEBUG (fuel : nat)
    (bakedIndirect : Indirect.LightmapChartBakedIndirect F)
    (bakedDirect : list (Direct.LightmapChartBakedDirect F))
    (bakedGeometry : Geometry.LightmapChartBakedGeometry F)
    (embreeScene : EmbreeScene F) (settings : LightmapTracingSettings F)
    (rng : Rng) : Outcome (Indirect.LightmapChartBakedIndirect F * Rng) :=
  '(light, rng) ← ParallelFor (size_unsigned (Indirect.light_ bakedIndirect))
    (numThreads_ settings)
    (BakeIndirectLight_task fuel bakedDirect bakedGeometry embreeScene settings)
    (Indirect.light_ bakedIndirect, rng);
  Ok (Indirect.mk (Indirect.width_ bakedIndirect) (Indirect.height_ bakedIndirect)
        light (Indirect.lightSwap_ bakedIndirect), rng).

Definition FilterIndirectLight_NDEBUG
    (bakedIndirect : Indirect.LightmapChartBakedIndirect F)
    (bakedGeometry : Geometry.LightmapChartBakedGeometry F)
    (params : IndirectFilterParameters F) (numThreads : Z)
    : Outcome (Indirect.LightmapChartBakedIndirect F) :=
  let kernelWeights := GetKernel_NDEBUG (kernelRadius_ params) in
  lightSwap ← ParallelFor (size_unsigned (Indirect.light_ bakedIndirect)) numThreads
    (λ fromIndex toIndex,
       for_range fromIndex toIndex
         (FilterIndirectLight_texel (Indirect.light_ bakedIndirect) bakedGeometry
            params kernelWeights))
    (Indirect.lightSwap_ bakedIndirect);
  Ok (Indirect.mk (Indirect.width_ bakedIndirect) (Indirect.height_ bakedIndirect)
        lightSwap (Indirect.light_ bakedIndirect)).
End NDEBUG.

(** ** Two environments

    The general theorems below hold for every instance of [FloatOps],
    [Engine] and [LibM].  The two instances of this section are used to
    run the code on concrete inputs.  In both, the generator replays a
    list of numbers, a scene is its own intersection function, a geometry
    is its own interpolation function, and the chart helpers address the
    texels row by row.  The math library is given its usual meaning:
    [M_PI] is pi (rounded to binary32 in the first instance),
    [M_EPSILON] is 0.000001, [Luma] weighs red, green and blue by 0.299,
    0.587 and 0.114, and [MaxBounces] is 16.  A theorem stated for every
    instance does not depend on these choices; a theorem stated for
    binary32 or for the real numbers does. *)

Definition replay_Random {F : Type} (min max : F) (rng : list F) : F * list F :=
  match rng with
  | x :: rng' => (x, rng')
  | [] => (min, [])
  end.

Definition row_IndexToLocation {F : Type}
    (g : Geometry.LightmapChartBakedGeometry F) (index : Z) : IntVector2 :=
  mkIntVector2 (index `mod` Geometry.width_ g) (index `div` Geometry.width_ g).

Definition row_IsValidLocation {F : Type}
    (g : Geometry.LightmapChartBakedGeometry F) (location : IntVector2) : bool :=
  bool_decide (0 ≤ ix_ location < Geometry.width_ g)
  && bool_decide (0 ≤ iy_ location < Geometry.height_ g).

Definition row_LocationToIndex {F : Type}
    (g : Geometry.LightmapChartBakedGeometry F) (location : IntVector2) : Z :=
  wrap32 (ix_ location + iy_ location * Geometry.width_ g).

(** *** IEEE binary32 *)

Module Float32.
Definition float32 : Type := spec_float.

Definition prec : Z := 24.
Definition emax : Z := 128.

Definition of_int32 (z : Z) : float32 := binary_normalize prec emax z 0 false.

(** The values a [float] can hold: the finite ones have a canonical
    mantissa and an exponent in range. *)
Definition valid (x : float32) : Prop := valid_binary prec emax x = true.

Definition one : float32 := S754_finite false 8388608 (-23).

#[global] Instance float32_ops : FloatOps float32 := {|
  of_int := of_int32;
  lit_0_001 := S754_finite false 8589935 (-33);
  fadd := SFadd prec emax;
  fsub := SFsub prec emax;
  fmul := SFmul prec emax;
  fdiv := SFdiv prec emax;
  fneg := SFopp;
  fltb := SFltb;
|}.

(** [FloorToInt] on the values it is applied to here. *)
Definition floor32 (x : float32) : Z :=
  match x with
  | S754_finite s m e =>
    let n := if decide (0 ≤ e) then Z.pos m * 2 ^ e else Z.pos m `div` 2 ^ (- e) in
    if s then - n - 1 else n
  | _ => 0
  end.

Definition Length32 (a : Vector3 float32) : float32 :=
  SFsqrt prec emax (LengthSquared a).

Definition Normalized32 (a : Vector3 float32) : Vector3 float32 :=
  let lenSquared := LengthSquared a in
  if fltb (of_int 0) lenSquared then
    v3scale a (of_int 1 ⊘ SFsqrt prec emax lenSquared)
  else a.

Definition SampleNearest32 (chart : Direct.LightmapChartBakedDirect float32)
    (uv : Vector2 float32) : Vector3 float32 :=
  let x := floor32 (x2_ uv ⊗ of_int (Direct.width_ chart)) in
  let y := floor32 (y2_ uv ⊗ of_int (Direct.height_ chart)) in
  default Vector3_zero
    (Direct.light_ chart
       !! Z.to_nat (Z.min x (Direct.width_ chart - 1)
                    + Z.min y (Direct.height_ chart - 1) * Direct.width_ chart)).

#[global] Instance float32_engine : Engine float32 := {|
  M_PI := S754_finite false 13176795 (-22);
  M_EPSILON := S754_finite false 8796093 (-43);
  Abs := SFabs;
  Length := Length32;
  Normalized := Normalized32;
  Length2 := λ a, SFsqrt prec emax (x2_ a ⊗ x2_ a ⊕ y2_ a ⊗ y2_ a);
  Luma := λ c,
    r_ c ⊗ (of_int 299 ⊘ of_int 1000) ⊕ g_ c ⊗ (of_int 587 ⊘ of_int 1000)
    ⊕ b_ c ⊗ (of_int 114 ⊘ of_int 1000);
  Rng := list float32;
  Random := replay_Random;
  MaxBounces := 16;
  SampleNearest := SampleNearest32;
  IndexToLocation := row_IndexToLocation;
  IsValidLocation := row_IsValidLocation;
  LocationToIndex := row_LocationToIndex;
  RTCScene := RTCRay float32 → option (float32 * RTCHit float32);
  RTCGeometry := Z → float32 → float32 → Vector2 float32;
  rtcIntersect := λ scene ray, scene ray;
  rtcInterpolate0 := λ geometry, geometry;
|}.
End Float32.

(** *** Real numbers: exact arithmetic *)

Module Exact.
Definition Rltb (a b : R) : bool := if Rlt_dec a b then true else false.

#[global] Instance real_ops : FloatOps R | 10 := {|
  of_int := IZR;
  lit_0_001 := (1 / 1000)%R;
  fadd := Rplus;
  fsub := Rminus;
  fmul := Rmult;
  fdiv := Rdiv;
  fneg := Ropp;
  fltb := Rltb;
|}.

Definition RealSampleNearest (chart : Direct.LightmapChartBakedDirect R)
    (uv : Vector2 R) : Vector3 R :=
  let x := Int_part (x2_ uv * IZR (Direct.width_ chart)) in
  let y := Int_part (y2_ uv * IZR (Direct.height_ chart)) in
  default Vector3_zero
    (Direct.light_ chart
       !! Z.to_nat (Z.min x (Direct.width_ chart - 1)
                    + Z.min y (Direct.height_ chart - 1) * Direct.width_ chart)).

Definition RealNormalized (a : Vector3 R) : Vector3 R :=
  if Rltb 0 (LengthSquared a) then v3scale a (1 / sqrt (LengthSquared a))%R else a.

#[global] Instance real_engine : Engine R | 10 := {|
  M_PI := PI;
  M_EPSILON := (1 / 1000000)%R;
  Abs := Rabs;
  Length := λ a, sqrt (LengthSquared a);
  Normalized := RealNormalized;
  Length2 := λ a, sqrt (x2_ a * x2_ a + y2_ a * y2_ a)%R;
  Luma := λ c, (r_ c * (299 / 1000) + g_ c * (587 / 1000) + b_ c * (114 / 1000))%R;
  Rng := list R;
  Random := replay_Random;
  MaxBounces := 16;
  SampleNearest := RealSampleNearest;
  IndexToLocation := row_IndexToLocation;
  IsValidLocation := row_IsValidLocation;
  LocationToIndex := row_LocationToIndex;
  RTCScene := RTCRay R → option (R * RTCHit R);
  RTCGeometry := Z → R → R → Vector2 R;
  rtcIntersect := λ scene ray, scene ray;
  rtcInterpolate0 := λ geometry, geometry;
|}.

(** [Pow] on a base that is not negative. *)
Definition RealPow (x y : R) : R :=
  if Rltb 0 x then Rpower x y
  else if Req_dec_T y 0 then 1%R else 0%R.

#[global] Instance real_libm : LibM R | 10 := {|
  Pow := RealPow;
  exp := Rtrigo_def.exp;
|}.
End Exact.

(** ** Inputs on which the code is run *)

Module Float32Inputs.
Import Float32.

Definition up : Vector3 float32 := mkVector3 (of_int 0) (of_int 0) (of_int 1).
Definition down : Vector3 float32 := mkVector3 (of_int 0) (of_int 0) (of_int (-1)).

(** A chart of one texel at the origin, facing up. *)
Definition one_texel : Geometry.LightmapChartBakedGeometry float32 :=
  Geometry.mk 1 1 [Vector3_zero] [up] [1].

Definition black_direct : Direct.LightmapChartBakedDirect float32 :=
  Direct.mk 1 1 [Vector3_zero].

Definition black_indirect : Indirect.LightmapChartBakedIndirect float32 :=
  Indirect.mk 1 1 [Vector4_zero] [Vector4_zero].

(** A scene in which no ray hits anything. *)
Definition open_sky : EmbreeScene float32 :=
  mkEmbreeScene (F:=float32) (λ _, None) (of_int 1000) [].

(** A white light shining straight down. *)
Definition zenith_light : DirectionalLightParameters float32 :=
  mkDirectionalLightParameters down
    (mkColor (of_int 1) (of_int 1) (of_int 1) (of_int 1)).

(** [black_indirect] after one pass that gathered nothing. *)
Definition counted_indirect : Indirect.LightmapChartBakedIndirect float32 :=
  Indirect.mk 1 1 [mkVector4 (of_int 0) (of_int 0) (of_int 0) (of_int 1)]
    [Vector4_zero].

Definition one_thread (numBounces : Z) : LightmapTracingSettings float32 :=
  mkLightmapTracingSettings 1 numBounces lit_0_001.
End Float32Inputs.

Module Float32Room.
Import Float32 Float32Inputs.

Definition half : float32 := of_int 1 ⊘ of_int 2.
Definition east : Vector3 float32 := mkVector3 (of_int 1) (of_int 0) (of_int 0).

(** A room between a floor at height 0, facing up, and a ceiling at
    height 1, facing down.  A ray that goes up hits the ceiling, a ray
    that goes down hits the floor, a horizontal ray hits nothing.  The
    lightmap coordinates of a hit are (1/4, 1/2) when the ray starts at
    [x < 5] and (3/4, 1/2) otherwise. *)
Definition room_intersect (ray : RTCRay float32) : option (float32 * RTCHit float32) :=
  let u := if fltb (x_ (org ray)) (of_int 5)
           then of_int 1 ⊘ of_int 4 else of_int 3 ⊘ of_int 4 in
  if fltb (of_int 0) (z_ (dir ray)) then
    Some ((of_int 1 ⊖ z_ (org ray)) ⊘ z_ (dir ray), mkRTCHit down u half 0 0)
  else if fltb (z_ (dir ray)) (of_int 0) then
    Some ((of_int 0 ⊖ z_ (org ray)) ⊘ z_ (dir ray), mkRTCHit up u half 0 0)
  else None.

Definition room : EmbreeScene float32 :=
  mkEmbreeScene (F:=float32) room_intersect (of_int 1000) [λ _ u v, mkVector2 u v].

(** The baked direct light of the room: (1, 1, 1) on the left texel,
    (5, 5, 5) on the right one. *)
Definition dim : Vector3 float32 := mkVector3 (of_int 1) (of_int 1) (of_int 1).
Definition bright : Vector3 float32 := mkVector3 (of_int 5) (of_int 5) (of_int 5).
Definition two_tone : Direct.LightmapChartBakedDirect float32 :=
  Direct.mk 2 1 [dim; bright].

(** Two texels on the floor, at [x = 0] and at [x = 10]. *)
Definition two_texels : Geometry.LightmapChartBakedGeometry float32 :=
  Geometry.mk 2 1 [Vector3_zero; mkVector3 (of_int 10) (of_int 0) (of_int 0)]
    [up; up] [1; 1].

Definition two_black : Indirect.LightmapChartBakedIndirect float32 :=
  Indirect.mk 2 1 [Vector4_zero; Vector4_zero] [Vector4_zero; Vector4_zero].

Definition draw (d : Vector3 float32) : list float32 := [x_ d; y_ d; z_ d].

(** The weight of a bounce along the normal. *)
Definition weight_1 : float32 := incoming_factor up up.
End Float32Room.

Module Float32Flat.
Import Float32 Float32Inputs.

Definition white : Vector4 float32 :=
  mkVector4 (of_int 1) (of_int 1) (of_int 1) (of_int 1).

(** Two neighbouring texels of a flat, evenly lit floor. *)
Definition flat_geometry : Geometry.LightmapChartBakedGeometry float32 :=
  Geometry.mk 2 1 [Vector3_zero; mkVector3 (of_int 1) (of_int 0) (of_int 0)]
    [up; up] [1; 1].
Definition flat_light : list (Vector4 float32) := [white; white].

(** Radius 1 with a luminance sigma of 0. *)
Definition sharp_luminance : IndirectFilterParameters float32 :=
  mkIndirectFilterParameters 1 1 (of_int 0) (of_int 1) (of_int 1).
End Float32Flat.

Module ExactInputs.
Import Exact.

(** A chart of one texel that carries no geometry. *)
Definition empty_geometry : Geometry.LightmapChartBakedGeometry R :=
  Geometry.mk 1 1 [Vector3_zero] [Vector3_zero] [0].

(** A chart of one texel that carries geometry. *)
Definition lit_geometry : Geometry.LightmapChartBakedGeometry R :=
  Geometry.mk 1 1 [Vector3_zero] [Vector3_zero] [1].

(** Indirect buffers after a pass has left (1, 1, 1, 1) in [light_] and
    zero in [lightSwap_]. *)
Definition stale_indirect : Indirect.LightmapChartBakedIndirect R :=
  Indirect.mk 1 1 [mkVector4 1%R 1%R 1%R 1%R] [Vector4_zero].

Definition filter_radius (radius : Z) : IndirectFilterParameters R :=
  mkIndirectFilterParameters radius 1 1%R 1%R 1%R.
End ExactInputs.

Module ExactFlat.
Import Exact.

Definition up : Vector3 R := mkVector3 0%R 0%R 1%R.
Definition down : Vector3 R := mkVector3 0%R 0%R (-1)%R.

(** Two neighbouring texels of a flat floor. *)
Definition flat_geometry : Geometry.LightmapChartBakedGeometry R :=
  Geometry.mk 2 1 [Vector3_zero; mkVector3 1%R 0%R 0%R] [up; up] [1; 1].

Definition grey : Vector4 R := mkVector4 (1 / 2)%R (1 / 2)%R (1 / 2)%R 1%R.

(** Indirect buffers that hold the same colour on both texels. *)
Definition grey_indirect : Indirect.LightmapChartBakedIndirect R :=
  Indirect.mk 2 1 [grey; grey] [Vector4_zero; Vector4_zero].

Definition black_direct : Direct.LightmapChartBakedDirect R :=
  Direct.mk 2 1 [Vector3_zero; Vector3_zero].

(** A scene in which no ray hits anything. *)
Definition open_sky : EmbreeScene R :=
  mkEmbreeScene (F:=R) (λ _, None) 1000%R [].

(** A white light and a red light, both shining straight down. *)
Definition white_light : DirectionalLightParameters R :=
  mkDirectionalLightParameters down (mkColor 1%R 1%R 1%R 1%R).
Definition red_light : DirectionalLightParameters R :=
  mkDirectionalLightParameters down (mkColor 1%R 0%R 0%R 1%R).

Definition one_thread : LightmapTracingSettings R :=
  mkLightmapTracingSettings 1 0 lit_0_001.
End ExactFlat.

Module Float32Alone.
Import Float32 Float32Inputs.

(** The number 14913695 * 2^-23 (about 1.778). *)
Definition tint : float32 := S754_finite false 14913695 (-23).

(** A chart of one texel that holds [tint] in every channel. *)
Definition tinted : Indirect.LightmapChartBakedIndirect float32 :=
  Indirect.mk 1 1 [mkVector4 tint tint tint tint] [Vector4_zero].

(** Radius 2. *)
Definition wide_kernel : IndirectFilterParameters float32 :=
  mkIndirectFilterParameters 2 1 (of_int 1) (of_int 1) (of_int 1).
End Float32Alone.

Module Float32Order.
Import Float32 Float32Inputs.

(** A chart of one texel that holds 2^24 in every channel. *)
Definition heavy : float32 := of_int 16777216.
Definition heavy_direct : Direct.LightmapChartBakedDirect float32 :=
  Direct.mk 1 1 [mkVector3 heavy heavy heavy].

(** A light of colour (2, 2, 2) shining straight down. *)
Definition double_light : DirectionalLightParameters float32 :=
  mkDirectionalLightParameters down
    (mkColor (of_int 2) (of_int 2) (of_int 2) (of_int 1)).
End Float32Order.

Module Float32Slant.
Import Float32 Float32Inputs.

(** A white light shining straight down whose direction has length 2. *)
Definition long_light : DirectionalLightParameters float32 :=
  mkDirectionalLightParameters
    (mkVector3 (of_int 0) (of_int 0) (of_int (-2)))
    (mkColor (of_int 1) (of_int 1) (of_int 1) (of_int 1)).

(** Two texels of direct light, both black. *)
Definition two_black_direct : Direct.LightmapChartBakedDirect float32 :=
  Direct.mk 2 1 [Vector3_zero; Vector3_zero].

(** 2^32 - 1 threads. *)
Definition crowd : LightmapTracingSettings float32 :=
  mkLightmapTracingSettings 4294967295 0 lit_0_001.
End Float32Slant.

Module Float32Bounces.
Import Float32 Float32Inputs.

(** Seventeen draws of the direction [up]. *)
Definition seventeen_up : list float32 :=
  mjoin (replicate 17 (Float32Room.draw up)).
End Float32Bounces.

Module Float32Soft.
Import Float32 Float32Inputs.

(** Radius 1 with sigmas of 1 and a normal power of 1. *)
Definition soft : IndirectFilterParameters float32 :=
  mkIndirectFilterParameters 1 1 (of_int 1) (of_int 1) (of_int 1).
End Float32Soft.


(** ** Vocabulary of the statements *)

(** The effect on a buffer of a loop that visits the indices [idx] in
    order, when the visit of index [j] changes the entry [j] by some
    function [f] with [Rf j f]. *)
Fixpoint steps {X} (Rf : Z → (X → X) → Prop) (idx : list Z) (l l' : list X) : Prop :=
  match idx with
  | [] => l' = l
  | j :: idx' => ∃ f, Rf j f ∧ steps Rf idx' (alter f (Z.to_nat j) l) l'
  end.

Section Updates.
Context {F : Type} `{!FloatOps F} `{!Engine F}.

(** What [BakeDirectionalLight] does to the entry of texel [j]. *)
Definition direct_update (bakedGeometry : Geometry.LightmapChartBakedGeometry F)
    (embreeScene : EmbreeScene F) (light : DirectionalLightParameters F)
    (j : Z) (f : Vector3 F → Vector3 F) : Prop :=
  ∃ position smoothNormal geometryId,
    Geometry.geometryPositions_ bakedGeometry !! Z.to_nat j = Some position
    ∧ Geometry.smoothNormals_ bakedGeometry !! Z.to_nat j = Some smoothNormal
    ∧ Geometry.geometryIds_ bakedGeometry !! Z.to_nat j = Some geometryId
    ∧ f = λ old,
        if decide (geometryId = 0) then old
        else v3add old (light_contribution embreeScene light position smoothNormal).

(** What [BakeIndirectLight] does to the entry of texel [j]: the
    radiance [indirectLighting] it adds satisfies [P]. *)
Definition indirect_update (bakedGeometry : Geometry.LightmapChartBakedGeometry F)
    (P : Vector3 F → Prop) (j : Z) (f : Vector4 F → Vector4 F) : Prop :=
  ∃ geometryId indirectLighting,
    Geometry.geometryIds_ bakedGeometry !! Z.to_nat j = Some geometryId
    ∧ (geometryId ≠ 0 → P indirectLighting)
    ∧ f = λ old,
        if decide (geometryId = 0) then old
        else v4add old (Vector4_of indirectLighting (of_int 1)).

(** What [FilterIndirectLight] does to the entry of texel [j] of the
    scratch buffer: the value [filtered] it stores satisfies [P j]. *)
Definition filter_update (bakedGeometry : Geometry.LightmapChartBakedGeometry F)
    (P : Z → Vector4 F → Prop) (j : Z) (f : Vector4 F → Vector4 F) : Prop :=
  ∃ geometryId filtered,
    Geometry.geometryIds_ bakedGeometry !! Z.to_nat j = Some geometryId
    ∧ (geometryId ≠ 0 → P j filtered)
    ∧ f = λ old, if decide (geometryId = 0) then old else filtered.

(** The rays cast by the bounces [js] of a path that is in state [st]. *)
Fixpoint path_rays (fuel : nat) (bakedDirect : list (Direct.LightmapChartBakedDirect F))
    (embreeScene : EmbreeScene F) (settings : LightmapTracingSettings F)
    (js : list Z) (st : PathState F Rng) : list (RTCRay F) :=
  match js with
  | [] => []
  | j :: js' =>
    match RandomHemisphereDirection fuel (currentNormal st) (path_rng st) with
    | Ok (rayDirection, _) =>
      bounce_ray settings (GetMaxDistance embreeScene)
        (currentPosition st) (currentNormal st) rayDirection
      :: match BakeIndirectLight_bounce fuel bakedDirect embreeScene settings j st with
         | Ok st' => path_rays fuel bakedDirect embreeScene settings js' st'
         | _ => []
         end
    | _ => []
    end
  end.

(** The (sample, weight) pairs recorded by the bounces [js] of a path
    that is in state [st], in the order in which they are recorded: a
    bounce that hits records the sample it has stored and its weight. *)
Fixpoint path_records (fuel : nat) (bakedDirect : list (Direct.LightmapChartBakedDirect F))
    (embreeScene : EmbreeScene F) (settings : LightmapTracingSettings F)
    (js : list Z) (st : PathState F Rng) : list (Vector3 F * F) :=
  match js with
  | [] => []
  | j :: js' =>
    match RandomHemisphereDirection fuel (currentNormal st) (path_rng st),
          BakeIndirectLight_bounce fuel bakedDirect embreeScene settings j st with
    | Ok (rayDirection, _), Ok st' =>
      match cast_ray (GetEmbreeScene embreeScene)
              (bounce_ray settings (GetMaxDistance embreeScene)
                 (currentPosition st) (currentNormal st) rayDirection),
            incomingSamples (arrays st') !! Z.to_nat j with
      | Some _, Some sample =>
        [(sample, incoming_factor rayDirection (currentNormal st))]
      | _, _ => []
      end ++ path_records fuel bakedDirect embreeScene settings js' st'
    | _, _ => []
    end
  end.

(** Combining pairs back to front: the last pair first. *)
Definition back_to_front (pairs : list (Vector3 F * F)) : Vector3 F :=
  foldr (λ p accumulator, v3scale (v3add accumulator p.1) p.2) Vector3_zero pairs.

(** The state of the task in which texel [i] is visited by a call of
    [BakeIndirectLight]: the tasks before the one of [i] have run, and in
    the task of [i] the texels before [i] have been visited. *)
Definition BakeIndirectLight_visit (fuel : nat)
    (bakedIndirect : Indirect.LightmapChartBakedIndirect F)
    (bakedDirect : list (Direct.LightmapChartBakedDirect F))
    (bakedGeometry : Geometry.LightmapChartBakedGeometry F)
    (embreeScene : EmbreeScene F) (settings : LightmapTracingSettings F)
    (rng : Rng) (i : Z) (ts : TaskState F Rng) : Prop :=
  let count := size_unsigned (Indirect.light_ bakedIndirect) in
  let numThreads := numThreads_ settings in
  ∃ (task : Z) (s : list (Vector4 F) * Rng),
    0 ≤ task < numThreads
    ∧ fromIndex count numThreads task ≤ i < toIndex count numThreads task
    ∧ foldM (ParallelFor_task count numThreads
               (BakeIndirectLight_task fuel bakedDirect bakedGeometry embreeScene settings))
        (seqZ 0 task) (Indirect.light_ bakedIndirect, rng) = Ok s
    ∧ for_range (fromIndex count numThreads task) i
        (BakeIndirectLight_texel fuel bakedDirect bakedGeometry embreeScene settings)
        (mkTaskState BounceArrays_fresh s.1 s.2) = Ok ts.
End Updates.

Section Baking.
Context {F : Type} `{!FloatOps F} `{!Engine F} `{!LibM F}.

(** The indirect buffers of a chart in the course of baking: allocated,
    then passed through any number of calls of [BakeIndirectLight] and
    [FilterIndirectLight] that return. *)
Inductive baking (bakedGeometry : Geometry.LightmapChartBakedGeometry F)
    : Indirect.LightmapChartBakedIndirect F → Prop :=
| baking_allocated (width height : Z) :
    baking bakedGeometry (LightmapChartBakedIndirect_new width height)
| baking_indirect fuel bakedIndirect bakedDirect embreeScene settings rng
    bakedIndirect' rng' :
    baking bakedGeometry bakedIndirect →
    BakeIndirectLight fuel bakedIndirect bakedDirect bakedGeometry embreeScene
      settings rng = Ok (bakedIndirect', rng') →
    baking bakedGeometry bakedIndirect'
| baking_filtered bakedIndirect params numThreads bakedIndirect' :
    baking bakedGeometry bakedIndirect →
    FilterIndirectLight bakedIndirect bakedGeometry params numThreads
      = Ok bakedIndirect' →
    baking bakedGeometry bakedIndirect'.
End Baking.

Section Passes.
Context {F : Type} `{!FloatOps F} `{!Engine F}.

(** The indirect buffers of a chart after [k] calls of [BakeIndirectLight]
    that return, each with one thread at least and a texel count in the
    range of [ParallelFor]. *)
Inductive indirect_passes (bakedGeometry : Geometry.LightmapChartBakedGeometry F)
    : nat → Indirect.LightmapChartBakedIndirect F
      → Indirect.LightmapChartBakedIndirect F → Prop :=
| indirect_passes_0 bakedIndirect :
    indirect_passes bakedGeometry 0 bakedIndirect bakedIndirect
| indirect_passes_S k fuel bakedIndirect bakedIndirect1 bakedIndirect2 bakedDirect
    embreeScene settings rng rng' :
    indirect_passes bakedGeometry k bakedIndirect bakedIndirect1 →
    1 ≤ numThreads_ settings →
    Z.of_nat (length (Indirect.light_ bakedIndirect1)) + numThreads_ settings ≤ 2 ^ 32 →
    BakeIndirectLight fuel bakedIndirect1 bakedDirect bakedGeometry embreeScene
      settings rng = Ok (bakedIndirect2, rng') →
    indirect_passes bakedGeometry (S k) bakedIndirect bakedIndirect2.
End Passes.

(** The sum of the weights [kernelWeights[Abs(d)]] over the offsets
    [d = -kernelRadius, ..., kernelRadius] of one axis. *)
Definition kernel_sum {F : Type} `{!FloatOps F} (kernelWeights : list F)
    (kernelRadius : Z) : F :=
  foldl (λ sum d, sum ⊕ default (of_int 0) (kernelWeights !! Z.to_nat (Z.abs d)))
    (of_int 0) (kernel_offsets kernelRadius).

(** The componentwise order on colours. *)
Definition Vector4_le (a b : Vector4 R) : Prop :=
  (x4_ a <= x4_ b ∧ y4_ a <= y4_ b ∧ z4_ a <= z4_ b ∧ w4_ a <= w4_ b)%R.

(** The componentwise order on radiance values. *)
Definition Vector3_le (a b : Vector3 R) : Prop :=
  (x_ a <= x_ b ∧ y_ a <= y_ b ∧ z_ a <= z_ b)%R.

(** The two arrays of a task hold no negative sample and no negative
    weight. *)
Definition arrays_nonneg (a : BounceArrays R) : Prop :=
  Forall (Vector3_le Vector3_zero) (incomingSamples a)
  ∧ Forall (λ slot, ∀ factor, slot = Some factor → (0 <= factor)%R)
      (incomingFactors a).

(** An accumulator [(colorSum, colorWeight)] of the filter whose colour
    sum lies between [lo] and [hi] times its weight sum. *)
Definition weighted_between (lo hi : Vector4 R) (acc : Vector4 R * R) : Prop :=
  Vector4_le (v4scale lo acc.2) acc.1 ∧ Vector4_le acc.1 (v4scale hi acc.2).

(** Combining pairs front to back: every sample is scaled by the product
    of the weights up to its own, [throughput] being the product of the
    weights before the first pair. *)
Fixpoint throughput_sum (pairs : list (Vector3 R * R)) (throughput : R) : Vector3 R :=
  match pairs with
  | [] => Vector3_zero
  | p :: pairs' =>
    v3add (v3scale p.1 (throughput * p.2)%R)
      (throughput_sum pairs' (throughput * p.2)%R)
  end.

Section Neighbours.
Context {F : Type} `{!FloatOps F} `{!Engine F}.

(** The location the tap [(dx, dy)] of the texel [index] looks at. *)
Definition tap_location (bakedGeometry : Geometry.LightmapChartBakedGeometry F)
    (params : IndirectFilterParameters F) (index dy dx : Z) : IntVector2 :=
  iv2add (IndexToLocation bakedGeometry index)
    (iv2scale (mkIntVector2 dx dy) (upscale_ params)).

(** The texel [index] has no neighbour under the kernel: every other
    location the kernel reaches is outside the chart or has the geometry
    id 0. *)
Definition alone (bakedGeometry : Geometry.LightmapChartBakedGeometry F)
    (params : IndirectFilterParameters F) (index : Z) : Prop :=
  ∀ dy dx,
    - kernelRadius_ params ≤ dy ≤ kernelRadius_ params →
    - kernelRadius_ params ≤ dx ≤ kernelRadius_ params →
    ¬ (dx = 0 ∧ dy = 0) →
    IsValidLocation bakedGeometry (tap_location bakedGeometry params index dy dx) = false
    ∨ at_index (Geometry.geometryIds_ bakedGeometry)
        (LocationToIndex bakedGeometry (tap_location bakedGeometry params index dy dx))
      = Ok 0.

End Neighbours.

Section Weights.
Context {F : Type} `{!FloatOps F} `{!Engine F} `{!LibM F}.

(** [P] holds of every edge-stopping weight the gather of a texel
    computes: one weight for each tap other than the centre that lands
    inside the chart, on a texel with geometry. *)
Definition every_weight (P : F → Prop) (light : list (Vector4 F))
    (bakedGeometry : Geometry.LightmapChartBakedGeometry F)
    (params : IndirectFilterParameters F)
    (centerLocation : IntVector2) (centerLuminance : F)
    (centerPosition centerNormal : Vector3 F) : Prop :=
  ∀ (dy dx otherGeometryId : Z) (otherColor : Vector4 F)
    (otherPosition otherNormal : Vector3 F),
    - kernelRadius_ params ≤ dy ≤ kernelRadius_ params →
    - kernelRadius_ params ≤ dx ≤ kernelRadius_ params →
    ¬ (dx = 0 ∧ dy = 0) →
    let otherLocation :=
      iv2add centerLocation (iv2scale (mkIntVector2 dx dy) (upscale_ params)) in
    let otherIndex := LocationToIndex bakedGeometry otherLocation in
    IsValidLocation bakedGeometry otherLocation = true →
    at_index (Geometry.geometryIds_ bakedGeometry) otherIndex = Ok otherGeometryId →
    otherGeometryId ≠ 0 →
    at_index light otherIndex = Ok otherColor →
    at_index (Geometry.geometryPositions_ bakedGeometry) otherIndex = Ok otherPosition →
    at_index (Geometry.smoothNormals_ bakedGeometry) otherIndex = Ok otherNormal →
    P (CalculateEdgeWeight centerLuminance (GetLuminance otherColor)
         (luminanceSigma_ params)
         centerPosition otherPosition
         (Length2 (mkVector2 (of_int dx) (of_int dy)) ⊗ positionSigma_ params)
         centerNormal otherNormal (normalPower_ params)).
End Weights.

(** A [float] that is +infinity, or positive with a mantissa of 24 digits
    and not below [mc * 2^ec]. *)
Definition at_least32 (mc : positive) (ec : Z) (x : Float32.float32) : Prop :=
  match x with
  | S754_infinity false => True
  | S754_finite false m e =>
    Z.pos (digits2_pos m) = 24 ∧ (ec < e ∨ (e = ec ∧ Z.pos mc ≤ Z.pos m))
  | _ => False
  end.


(** * Properties *)

(** ** Loops *)

Lemma foldM_app {A S} (body : A → S → Outcome S) (l1 l2 : list A) (s : S) :
  foldM body (l1 ++ l2) s = s' ← foldM body l1 s; foldM body l2 s'.
Proof.
  revert s. induction l1 as [|a l1 IH]; intros s; simpl.
  - reflexivity.
  - destruct (body a s) as [s1| | |]; simpl; auto.
Qed.

Lemma foldM_join {A B S} (body : B → S → Outcome S) (g : A → list B)
    (cs : list A) (s : S) :
  foldM (λ c, foldM body (g c)) cs s = foldM body (mjoin (g <$> cs)) s.
Proof.
  revert s. induction cs as [|c cs IH]; intros s; simpl.
  - reflexivity.
  - rewrite foldM_app. destruct (foldM body (g c) s) as [s1| | |]; simpl; auto.
Qed.

Lemma foldM_fmap {A B S} (body : B → S → Outcome S) (g : A → B)
    (l : list A) (s : S) :
  foldM body (g <$> l) s = foldM (λ a, body (g a)) l s.
Proof.
  revert s. induction l as [|a l IH]; intros s; simpl.
  - reflexivity.
  - destruct (body (g a) s) as [s1| | |]; simpl; auto.
Qed.

(** ** ParallelFor without wrap-around *)

Lemma ea_min_Zmin a b : ea_min a b = Z.min a b.
Proof. unfold ea_min. destruct (Z.ltb_spec b a); lia. Qed.

Lemma wrap32_small z : 0 ≤ z < 2 ^ 32 → wrap32 z = z.
Proof. intros. unfold wrap32. apply Z.mod_small. lia. Qed.

Section NoWrap.
Variables count numThreads : Z.
Hypothesis Hcount : 0 ≤ count.
Hypothesis Hthreads : 1 ≤ numThreads.
Hypothesis Hfits : count + numThreads ≤ 2 ^ 32.

Lemma chunkSize_exact :
  chunkSize count numThreads = (count + numThreads - 1) / numThreads.
Proof.
  unfold chunkSize, usub, uadd, wrap32.
  rewrite Zminus_mod_idemp_l. rewrite Z.mod_small by lia. reflexivity.
Qed.

Lemma chunkSize_ceil :
  count ≤ chunkSize count numThreads * numThreads
  ∧ (chunkSize count numThreads - 1) * numThreads < count.
Proof.
  rewrite chunkSize_exact.
  pose proof (Z.div_mod (count + numThreads - 1) numThreads ltac:(lia)) as Hdm.
  pose proof (Z.mod_pos_bound (count + numThreads - 1) numThreads ltac:(lia)) as Hb.
  nia.
Qed.

Lemma chunkSize_nonneg : 0 ≤ chunkSize count numThreads.
Proof. rewrite chunkSize_exact. apply Z.div_pos; lia. Qed.

Lemma chunk_bound i :
  0 ≤ i < numThreads →
  0 ≤ i * chunkSize count numThreads
  ∧ i * chunkSize count numThreads + chunkSize count numThreads < 2 ^ 32.
Proof.
  intros Hi. pose proof chunkSize_nonneg as Hn.
  rewrite chunkSize_exact in *.
  pose proof (Z.div_mod (count + numThreads - 1) numThreads ltac:(lia)) as Hdm.
  pose proof (Z.mod_pos_bound (count + numThreads - 1) numThreads ltac:(lia)) as Hb.
  nia.
Qed.

Lemma fromIndex_exact i :
  0 ≤ i < numThreads →
  fromIndex count numThreads i = i * chunkSize count numThreads.
Proof.
  intros Hi. unfold fromIndex, umul. apply wrap32_small.
  pose proof (chunk_bound i Hi). pose proof chunkSize_nonneg. lia.
Qed.

Lemma toIndex_exact i :
  0 ≤ i < numThreads →
  toIndex count numThreads i
  = Z.min (i * chunkSize count numThreads + chunkSize count numThreads) count.
Proof.
  intros Hi. unfold toIndex. rewrite ea_min_Zmin, fromIndex_exact by done.
  unfold uadd. rewrite wrap32_small; [done|].
  pose proof (chunk_bound i Hi). pose proof chunkSize_nonneg. lia.
Qed.

Lemma chunks_prefix (k : nat) :
  Z.of_nat k ≤ numThreads →
  mjoin ((λ i, loop_indices (fromIndex count numThreads i) (toIndex count numThreads i))
           <$> seqZ 0 (Z.of_nat k))
  = seqZ 0 (Z.min (Z.of_nat k * chunkSize count numThreads) count).
Proof.
  induction k as [|k IH]; intros Hk.
  - simpl. rewrite Z.min_l by lia. reflexivity.
  - rewrite seqZ_S, fmap_app, join_app, IH by lia. simpl.
    rewrite app_nil_r, Z.add_0_l.
    rewrite fromIndex_exact, toIndex_exact by lia.
    pose proof chunkSize_nonneg as Hn.
    set (cs := chunkSize count numThreads) in *.
    unfold loop_indices.
    replace (Z.of_nat (S k) * cs) with (Z.of_nat k * cs + cs) by lia.
    set (a := Z.of_nat k * cs) in *.
    destruct (Z.le_gt_cases count a) as [Hge|Hlt].
    + rewrite (seqZ_nil a) by lia. rewrite app_nil_r. f_equal. lia.
    + rewrite (Z.min_l a) by lia.
      replace (Z.min (a + cs) count) with (a + (Z.min (a + cs) count - a)) at 2 by lia.
      rewrite seqZ_app by lia. reflexivity.
Qed.

Lemma ParallelFor_indices_exact :
  ParallelFor_indices count numThreads = seqZ 0 count.
Proof.
  unfold ParallelFor_indices, ParallelFor_chunks.
  rewrite <- list_fmap_compose.
  pose proof (chunks_prefix (Z.to_nat numThreads)) as H.
  rewrite Z2Nat.id in H by lia. unfold compose. simpl.
  rewrite H by lia. f_equal.
  pose proof chunkSize_ceil. lia.
Qed.

Lemma ParallelFor_on_chunks {S} (callback : Z → Z → S → Outcome S) (s : S) :
  ParallelFor count numThreads callback s
  = foldM (λ c : Z * Z, callback c.1 c.2) (ParallelFor_chunks count numThreads) s.
Proof.
  unfold ParallelFor, ParallelFor_chunks.
  destruct (decide (numThreads = 0)); [lia|].
  rewrite foldM_fmap. reflexivity.
Qed.

Lemma ParallelFor_for_range {S} (body : Z → S → Outcome S) (s : S) :
  ParallelFor count numThreads (λ fromIndex toIndex, for_range fromIndex toIndex body) s
  = for_range 0 count body s.
Proof.
  rewrite ParallelFor_on_chunks. unfold for_range.
  rewrite (foldM_join body (λ c : Z * Z, loop_indices c.1 c.2)).
  fold (ParallelFor_indices count numThreads).
  rewrite ParallelFor_indices_exact. unfold loop_indices.
  rewrite Z.sub_0_r. reflexivity.
Qed.
(** The task of an index. *)
Lemma chunk_of_index (i : Z) :
  0 ≤ i < count →
  ∃ task, 0 ≤ task < numThreads
          ∧ fromIndex count numThreads task ≤ i < toIndex count numThreads task.
Proof.
  intros Hi.
  destruct chunkSize_ceil as [Hc1 Hc2].
  pose proof chunkSize_nonneg as Hc0.
  set (cs := chunkSize count numThreads) in *.
  assert (Hcs : 0 < cs) by nia.
  pose proof (Z.div_mod i cs ltac:(lia)) as Hdm.
  pose proof (Z.mod_pos_bound i cs Hcs) as Hb.
  assert (Ht : 0 ≤ i `div` cs < numThreads).
  { split; [apply Z.div_pos; lia|]. apply Z.div_lt_upper_bound; nia. }
  exists (i `div` cs). split; [done|].
  rewrite fromIndex_exact, toIndex_exact by done. fold cs. nia.
Qed.

Lemma chunk_unique (i task task' : Z) :
  0 ≤ task < numThreads → 0 ≤ task' < numThreads →
  fromIndex count numThreads task ≤ i < toIndex count numThreads task →
  fromIndex count numThreads task' ≤ i < toIndex count numThreads task' →
  task = task'.
Proof.
  intros Ht Ht'. rewrite !fromIndex_exact, !toIndex_exact by done.
  pose proof chunkSize_nonneg as Hc0.
  set (cs := chunkSize count numThreads) in *. intros H1 H2. nia.
Qed.

(** The indices of the tasks before [task] lie below its range, those of
    the tasks after it lie above. *)
Lemma chunk_before (task task' j : Z) :
  0 ≤ task' < task → task < numThreads →
  fromIndex count numThreads task' ≤ j < toIndex count numThreads task' →
  0 ≤ j < fromIndex count numThreads task.
Proof.
  intros Ht' Ht. rewrite !fromIndex_exact, !toIndex_exact by lia.
  pose proof chunkSize_nonneg as Hc0.
  set (cs := chunkSize count numThreads) in *. intros H1. nia.
Qed.

Lemma chunk_after (task task' j : Z) :
  0 ≤ task < task' → task' < numThreads →
  fromIndex count numThreads task' ≤ j < toIndex count numThreads task' →
  toIndex count numThreads task ≤ j.
Proof.
  intros Ht Ht'. rewrite !fromIndex_exact, !toIndex_exact by lia.
  pose proof chunkSize_nonneg as Hc0.
  set (cs := chunkSize count numThreads) in *. intros H1. nia.
Qed.
End NoWrap.

(** ** Outcomes, arrays and loop invariants *)

Lemma bind_Ok {A B} (m : Outcome A) (f : A → Outcome B) (b : B) :
  m ≫= f = Ok b ↔ ∃ a, m = Ok a ∧ f a = Ok b.
Proof.
  destruct m as [a| | |]; simpl; split;
    try (intros [a' [Ha Hf]]; inversion Ha; subst; done); try done.
  intros Hf. by exists a.
Qed.

Lemma at_index_Ok {A} (l : list A) (i : Z) (a : A) :
  at_index l i = Ok a ↔ 0 ≤ i ∧ l !! Z.to_nat i = Some a.
Proof.
  unfold at_index. destruct (decide (0 ≤ i)) as [Hi|Hi].
  - destruct (l !! Z.to_nat i) as [a'|]; split; intros H;
      try (inversion H; subst; done); try (destruct H as [_ H]; inversion H; subst; done).
  - split; [done|]. intros [? _]. lia.
Qed.

Lemma set_index_Ok {A} (l l' : list A) (i : Z) (a : A) :
  set_index l i a = Ok l' ↔ 0 ≤ i < Z.of_nat (length l) ∧ l' = <[Z.to_nat i := a]> l.
Proof.
  unfold set_index. destruct (decide (0 ≤ i < Z.of_nat (length l))) as [Hi|Hi].
  - split; [intros H; inversion H; done | intros [_ ->]; done].
  - split; [done | intros [? _]; lia].
Qed.

(** Taking a sequence of binds ending in [Ok] apart. *)
Ltac inv_Ok H :=
  repeat match type of H with
  | (_ ≫= _) = Ok _ =>
    let a := fresh "a" in
    let Ha := fresh "Ha" in
    apply bind_Ok in H as (a & Ha & H)
  | mbind _ _ = Ok _ =>
    let a := fresh "a" in
    let Ha := fresh "Ha" in
    apply bind_Ok in H as (a & Ha & H)
  end.

Lemma list_alter_lookup_insert {A} (f : A → A) (l : list A) (i : nat) (x : A) :
  l !! i = Some x → alter f i l = <[i := f x]> l.
Proof.
  revert i. induction l as [|y l IH]; intros [|i] H; simpl in *; try done.
  - inversion H; subst. done.
  - f_equal. by apply IH.
Qed.

Lemma foldM_inv {A S} (P : S → Prop) (body : A → S → Outcome S) (l : list A) (s s' : S) :
  (∀ a s s', body a s = Ok s' → P s → P s') →
  foldM body l s = Ok s' → P s → P s'.
Proof.
  intros Hbody. revert s. induction l as [|a l IH]; intros s H HP; simpl in H.
  - inversion H; subst. done.
  - apply bind_Ok in H as (s1 & H1 & H). eauto.
Qed.

Lemma ParallelFor_inv {S} (P : S → Prop) (count numThreads : Z)
    (callback : Z → Z → S → Outcome S) (s s' : S) :
  (∀ fromIndex toIndex s s', callback fromIndex toIndex s = Ok s' → P s → P s') →
  ParallelFor count numThreads callback s = Ok s' → P s → P s'.
Proof.
  intros Hcb. unfold ParallelFor. destruct (decide (numThreads = 0)); [done|].
  apply foldM_inv. intros i s1 s2. unfold ParallelFor_task. apply Hcb.
Qed.

Lemma size_unsigned_small {A} (l : list A) :
  Z.of_nat (length l) < 2 ^ 32 → size_unsigned l = Z.of_nat (length l).
Proof. intros. unfold size_unsigned. apply wrap32_small. lia. Qed.

Lemma steps_app {X} (Rf : Z → (X → X) → Prop) (i1 i2 : list Z) (l l'' : list X) :
  steps Rf (i1 ++ i2) l l'' ↔ ∃ l', steps Rf i1 l l' ∧ steps Rf i2 l' l''.
Proof.
  revert l. induction i1 as [|j i1 IH]; intros l; simpl.
  - split; [intros H; eauto | intros (l' & -> & H); done].
  - split.
    + intros (f & Hf & H). apply IH in H as (l' & H1 & H2). eauto 6.
    + intros (l' & (f & Hf & H1) & H2). exists f. split; [done|]. apply IH. eauto.
Qed.

Lemma foldM_steps {St X} (proj : St → list X) (Rf : Z → (X → X) → Prop)
    (body : Z → St → Outcome St) (idx : list Z) (s s' : St) :
  (∀ j s s', body j s = Ok s' →
     ∃ f, Rf j f ∧ proj s' = alter f (Z.to_nat j) (proj s)) →
  foldM body idx s = Ok s' → steps Rf idx (proj s) (proj s').
Proof.
  intros Hbody. revert s. induction idx as [|j idx IH]; intros s H; simpl in *.
  - by inversion H.
  - apply bind_Ok in H as (s1 & H1 & H).
    destruct (Hbody _ _ _ H1) as (f & Hf & Hs1).
    exists f. split; [done|]. rewrite <- Hs1. by apply IH.
Qed.

Lemma steps_seqZ_lookup {X} (Rf : Z → (X → X) → Prop) (n : nat) (a : Z) (l l' : list X) :
  0 ≤ a →
  steps Rf (seqZ a (Z.of_nat n)) l l' →
  ∀ (i : nat) (x : X), l !! i = Some x →
    (a ≤ Z.of_nat i < a + Z.of_nat n →
       ∃ f, Rf (Z.of_nat i) f ∧ l' !! i = Some (f x))
    ∧ (¬ (a ≤ Z.of_nat i < a + Z.of_nat n) → l' !! i = Some x).
Proof.
  revert a l. induction n as [|n IH]; intros a l Ha H i x Hx.
  - simpl in H. subst. split; [lia | done].
  - rewrite seqZ_cons in H by lia. simpl in H.
    destruct H as (f & Hf & H).
    replace (Z.pred (Z.of_nat (S n))) with (Z.of_nat n) in H by lia.
    destruct (decide (Z.of_nat i = a)) as [Hia|Hia].
    + assert (Hx1 : alter f (Z.to_nat a) l !! i = Some (f x)).
      { replace (Z.to_nat a) with i by lia.
        rewrite list_lookup_alter_eq, Hx. done. }
      destruct (IH (Z.succ a) _ ltac:(lia) H i (f x) Hx1) as [_ Hout].
      split; [|lia]. intros _. exists f. subst a. split; [done|]. apply Hout. lia.
    + assert (Hx1 : alter f (Z.to_nat a) l !! i = Some x).
      { rewrite list_lookup_alter_ne by lia. done. }
      destruct (IH (Z.succ a) _ ltac:(lia) H i x Hx1) as [Hin Hout].
      split; [intros ?; apply Hin; lia | intros ?; apply Hout; lia].
Qed.

Lemma steps_frame {X} (Rf : Z → (X → X) → Prop) (idx : list Z) (l l' : list X) (i : nat) :
  (∀ j f, Rf j f → Z.to_nat j = i → ∀ x, f x = x) →
  steps Rf idx l l' → l' !! i = l !! i.
Proof.
  intros HRf. revert l. induction idx as [|j idx IH]; intros l H; simpl in H.
  - by subst.
  - destruct H as (f & Hf & H). rewrite (IH _ H).
    destruct (decide (Z.to_nat j = i)) as [Hji|Hji].
    + subst i. rewrite list_lookup_alter_eq.
      destruct (l !! Z.to_nat j) as [x|]; simpl; [|done].
      f_equal. by apply (HRf j f).
    + by rewrite list_lookup_alter_ne.
Qed.

Lemma steps_weaken {X} (Rf Rf' : Z → (X → X) → Prop) (idx : list Z) (l l' : list X) :
  (∀ j f, Rf j f → Rf' j f) → steps Rf idx l l' → steps Rf' idx l l'.
Proof.
  intros HR. revert l. induction idx as [|j idx IH]; intros l H; simpl in *; [done|].
  destruct H as (f & Hf & H). eauto.
Qed.

Lemma ParallelFor_steps_chunks {St X} (proj : St → list X) (Rf : Z → (X → X) → Prop)
    (count numThreads : Z) (callback : Z → Z → St → Outcome St) (s s' : St) :
  (∀ fromIndex toIndex s s', callback fromIndex toIndex s = Ok s' →
     steps Rf (loop_indices fromIndex toIndex) (proj s) (proj s')) →
  ParallelFor count numThreads callback s = Ok s' →
  steps Rf (ParallelFor_indices count numThreads) (proj s) (proj s').
Proof.
  intros Hcb H. unfold ParallelFor in H. destruct (decide (numThreads = 0)); [done|].
  unfold ParallelFor_indices, ParallelFor_chunks.
  revert s H. induction (seqZ 0 numThreads) as [|c cs IH]; intros s H; simpl in *.
  - by inversion H.
  - apply bind_Ok in H as (s1 & H1 & H). apply steps_app.
    unfold ParallelFor_task in H1. eauto.
Qed.

(** With no wrap-around, a [ParallelFor] over the texels of a buffer whose
    callback visits the indices of its range visits every index once, in
    increasing order. *)
Lemma ParallelFor_steps {St X Y} (proj : St → list X) (Rf : Z → (X → X) → Prop)
    (buffer : list Y) (numThreads : Z) (callback : Z → Z → St → Outcome St)
    (s s' : St) :
  1 ≤ numThreads →
  Z.of_nat (length buffer) + numThreads ≤ 2 ^ 32 →
  (∀ fromIndex toIndex s s', callback fromIndex toIndex s = Ok s' →
     steps Rf (loop_indices fromIndex toIndex) (proj s) (proj s')) →
  ParallelFor (size_unsigned buffer) numThreads callback s = Ok s' →
  steps Rf (seqZ 0 (Z.of_nat (length buffer))) (proj s) (proj s').
Proof.
  intros Hn Hfit Hcb H.
  apply (ParallelFor_steps_chunks proj Rf _ _ _ _ _ Hcb) in H.
  rewrite size_unsigned_small in H by lia.
  rewrite ParallelFor_indices_exact in H by lia. done.
Qed.

(** The buffer keeps its length. *)
Lemma steps_length {X} (Rf : Z → (X → X) → Prop) (idx : list Z) (l l' : list X) :
  steps Rf idx l l' → length l' = length l.
Proof.
  revert l. induction idx as [|j idx IH]; intros l H; simpl in H.
  - by subst.
  - destruct H as (f & _ & H). apply IH in H. by rewrite length_alter in H.
Qed.

(** ** The visit of one index *)

Lemma foldM_split {A S} (body : A → S → Outcome S) (l1 l2 : list A) (a : A) (s s' : S) :
  foldM body (l1 ++ a :: l2) s = Ok s' →
  ∃ t t', foldM body l1 s = Ok t ∧ body a t = Ok t' ∧ foldM body l2 t' = Ok s'.
Proof.
  rewrite foldM_app. intros H. apply bind_Ok in H as (t & Ht & H). simpl in H.
  apply bind_Ok in H as (t' & Ht' & H). eauto.
Qed.

Lemma steps_outside {X} (Rf : Z → (X → X) → Prop) (idx : list Z) (l l' : list X) (i : nat) :
  Forall (λ j, Z.to_nat j ≠ i) idx → steps Rf idx l l' → l' !! i = l !! i.
Proof.
  intros Hidx. revert l. induction Hidx as [|j idx Hj Hidx IH]; intros l H; simpl in H.
  - by subst.
  - destruct H as (f & _ & H). rewrite (IH _ H). by rewrite list_lookup_alter_ne.
Qed.

Lemma tasks_steps {St X} (proj : St → list X) (Rf : Z → (X → X) → Prop)
    (count numThreads : Z) (callback : Z → Z → St → Outcome St)
    (tasks : list Z) (s s' : St) :
  (∀ fromIndex toIndex s s', callback fromIndex toIndex s = Ok s' →
     steps Rf (loop_indices fromIndex toIndex) (proj s) (proj s')) →
  foldM (ParallelFor_task count numThreads callback) tasks s = Ok s' →
  steps Rf
    (mjoin ((λ i, loop_indices (fromIndex count numThreads i) (toIndex count numThreads i))
              <$> tasks))
    (proj s) (proj s').
Proof.
  intros Hcb. revert s. induction tasks as [|c cs IH]; intros s H; simpl in *.
  - by inversion H.
  - apply bind_Ok in H as (s1 & H1 & H). apply steps_app.
    unfold ParallelFor_task in H1. eauto.
Qed.

Lemma tasks_outside {St X} (proj : St → list X) (Rf : Z → (X → X) → Prop)
    (count numThreads : Z) (callback : Z → Z → St → Outcome St)
    (tasks : list Z) (s s' : St) (i : nat) :
  (∀ fromIndex toIndex s s', callback fromIndex toIndex s = Ok s' →
     steps Rf (loop_indices fromIndex toIndex) (proj s) (proj s')) →
  Forall (λ task, ∀ j, fromIndex count numThreads task ≤ j < toIndex count numThreads task →
                       Z.to_nat j ≠ i) tasks →
  foldM (ParallelFor_task count numThreads callback) tasks s = Ok s' →
  proj s' !! i = proj s !! i.
Proof.
  intros Hcb Hout H. apply (tasks_steps proj Rf _ _ _ _ _ _ Hcb) in H.
  refine (steps_outside _ _ _ _ _ _ H).
  apply Forall_join, Forall_fmap. revert Hout. apply List.Forall_impl.
  intros task Htask. simpl. unfold loop_indices. apply Forall_seqZ. intros j Hj.
  apply Htask. lia.
Qed.

Lemma seqZ_split (n k : Z) :
  0 ≤ k < n → seqZ 0 n = seqZ 0 k ++ k :: seqZ (k + 1) (n - k - 1).
Proof.
  intros Hk. replace n with (k + (n - k)) at 1 by lia.
  rewrite seqZ_app by lia. f_equal. rewrite seqZ_cons by lia. rewrite Z.add_0_l.
  replace (Z.succ k) with (k + 1) by lia.
  replace (Z.pred (n - k)) with (n - k - 1) by lia. done.
Qed.

Lemma loop_indices_split (fromIndex toIndex i : Z) :
  fromIndex ≤ i < toIndex →
  loop_indices fromIndex toIndex
  = loop_indices fromIndex i ++ i :: loop_indices (i + 1) toIndex.
Proof.
  intros Hi. unfold loop_indices.
  replace (toIndex - fromIndex) with ((i - fromIndex) + (toIndex - i)) by lia.
  rewrite seqZ_app by lia. f_equal.
  replace (fromIndex + (i - fromIndex)) with i by lia.
  rewrite seqZ_cons by lia.
  replace (Z.succ i) with (i + 1) by lia.
  replace (Z.pred (toIndex - i)) with (toIndex - (i + 1)) by lia. done.
Qed.

(** ** Calls that return *)

Lemma at_index_total {A} (l : list A) (i : Z) :
  0 ≤ i < Z.of_nat (length l) → ∃ a, at_index l i = Ok a.
Proof.
  intros Hi. destruct (lookup_lt_is_Some_2 l (Z.to_nat i) ltac:(lia)) as [a Ha].
  exists a. apply at_index_Ok. split; [lia | done].
Qed.

Lemma foldM_total {A St} (P : St → Prop) (Q : A → Prop)
    (body : A → St → Outcome St) (l : list A) (s : St) :
  Forall Q l →
  (∀ a s, Q a → P s → ∃ s', body a s = Ok s' ∧ P s') →
  P s → ∃ s', foldM body l s = Ok s' ∧ P s'.
Proof.
  intros Hl Hbody. revert s. induction Hl as [|a l Ha Hl IH]; intros s HP; simpl.
  - eauto.
  - destruct (Hbody a s Ha HP) as (s1 & -> & HP1). simpl. by apply IH.
Qed.

Lemma wrap32_range z : 0 ≤ wrap32 z < 2 ^ 32.
Proof. unfold wrap32. apply Z.mod_pos_bound. lia. Qed.

Lemma size_unsigned_le {A} (l : list A) : 0 ≤ size_unsigned l ≤ Z.of_nat (length l).
Proof.
  unfold size_unsigned. pose proof (wrap32_range (Z.of_nat (length l))).
  unfold wrap32 in *. split; [lia|]. apply Z.mod_le; lia.
Qed.

(** Whatever the arithmetic does, the indices handed to the body lie in
    [0, count). *)
Lemma ParallelFor_total {St} (P : St → Prop) (count numThreads : Z)
    (body : Z → St → Outcome St) (s : St) :
  numThreads ≠ 0 →
  (∀ j s, 0 ≤ j < count → P s → ∃ s', body j s = Ok s' ∧ P s') →
  P s →
  ∃ s', ParallelFor count numThreads
          (λ fromIndex toIndex, for_range fromIndex toIndex body) s = Ok s' ∧ P s'.
Proof.
  intros Hn Hbody HP. unfold ParallelFor. destruct (decide (numThreads = 0)); [done|].
  apply (foldM_total P (λ _, True)); [by apply Forall_true | | done].
  intros i s1 _ HP1. unfold ParallelFor_task, for_range.
  apply (foldM_total P (λ j, 0 ≤ j < count)); [| done | done].
  unfold loop_indices. apply Forall_seqZ. intros j Hj.
  unfold toIndex, fromIndex, umul, uadd in *. rewrite ea_min_Zmin in Hj.
  pose proof (wrap32_range (i * chunkSize count numThreads)). lia.
Qed.

(** Whatever the arithmetic does, the ranges handed to the callback lie
    in [0, count]. *)
Lemma ParallelFor_callback_total {St} (P : St → Prop) (count numThreads : Z)
    (callback : Z → Z → St → Outcome St) (s : St) :
  numThreads ≠ 0 →
  (∀ fromIndex toIndex s, 0 ≤ fromIndex → toIndex ≤ count → P s →
     ∃ s', callback fromIndex toIndex s = Ok s' ∧ P s') →
  P s →
  ∃ s', ParallelFor count numThreads callback s = Ok s' ∧ P s'.
Proof.
  intros Hn Hcb HP. unfold ParallelFor. destruct (decide (numThreads = 0)); [done|].
  apply (foldM_total P (λ _, True)); [by apply Forall_true | | done].
  intros i s1 _ HP1. unfold ParallelFor_task. apply Hcb; [| |done].
  - unfold fromIndex, umul. apply wrap32_range.
  - unfold toIndex. rewrite ea_min_Zmin. lia.
Qed.

Lemma foldM_ext {A St} (body body' : A → St → Outcome St) (l : list A) (s : St) :
  (∀ a s, body a s = body' a s) → foldM body l s = foldM body' l s.
Proof.
  intros Hext. revert s. induction l as [|a l IH]; intros s; simpl; [done|].
  rewrite Hext. destruct (body' a s); simpl; auto.
Qed.

Lemma bind_ext {A B} (m : Outcome A) (f g : A → Outcome B) :
  (∀ a, f a = g a) → m ≫= f = m ≫= g.
Proof. intros Hext. destruct m; simpl; auto. Qed.

Lemma ParallelFor_ext {St} (count numThreads : Z)
    (callback callback' : Z → Z → St → Outcome St) (s : St) :
  (∀ fromIndex toIndex s, callback fromIndex toIndex s = callback' fromIndex toIndex s) →
  ParallelFor count numThreads callback s = ParallelFor count numThreads callback' s.
Proof.
  intros Hext. unfold ParallelFor. destruct (decide (numThreads = 0)); [done|].
  apply foldM_ext. intros i s1. unfold ParallelFor_task. apply Hext.
Qed.

(** ** Direct light *)

Section DirectLight.
Context {F : Type} `{!FloatOps F} `{!Engine F}.
Implicit Types bakedDirect : Direct.LightmapChartBakedDirect F.
Implicit Types bakedGeometry : Geometry.LightmapChartBakedGeometry F.
Implicit Types embreeScene : EmbreeScene F.
Implicit Types light : DirectionalLightParameters F.
Implicit Types settings : LightmapTracingSettings F.

Lemma BakeDirectionalLight_texel_spec bakedGeometry embreeScene light
    (j : Z) (buffer buffer' : list (Vector3 F)) :
  BakeDirectionalLight_texel bakedGeometry (GetEmbreeScene embreeScene)
    (light_rayDirection light) (GetMaxDistance embreeScene) (ToVector3 (color_ light))
    j buffer = Ok buffer' →
  ∃ f, direct_update bakedGeometry embreeScene light j f
       ∧ buffer' = alter f (Z.to_nat j) buffer.
Proof.
  intros H. unfold BakeDirectionalLight_texel in H. inv_Ok H.
  apply at_index_Ok in Ha as [_ Hp], Ha0 as [_ Hn], Ha1 as [_ Hid].
  eexists. split.
  { exists a, a0, a1. repeat split; try done. }
  simpl. destruct (decide (a1 = 0)) as [Hz|Hz].
  - inversion H; subst. symmetry. by apply list_alter_id.
  - inv_Ok H. apply at_index_Ok in Ha as [_ Hold].
    apply set_index_Ok in H as [_ ->].
    rewrite (list_alter_lookup_insert _ _ _ _ Hold). done.
Qed.

Lemma BakeDirectionalLight_steps_chunks
    (bakedDirect bakedDirect' : Direct.LightmapChartBakedDirect F)
    bakedGeometry embreeScene light settings :
  BakeDirectionalLight bakedDirect bakedGeometry embreeScene light settings
    = Ok bakedDirect' →
  steps (direct_update bakedGeometry embreeScene light)
    (ParallelFor_indices (size_unsigned (Direct.light_ bakedDirect))
       (numThreads_ settings))
    (Direct.light_ bakedDirect) (Direct.light_ bakedDirect').
Proof.
  intros H. unfold BakeDirectionalLight in H. inv_Ok H.
  inversion H; subst; simpl. clear H.
  refine (ParallelFor_steps_chunks (λ l, l) _ _ _ _ _ _ _ Ha).
  intros fromIndex toIndex s s'. unfold for_range.
  apply (foldM_steps (λ l, l)). intros j s1 s2.
  apply BakeDirectionalLight_texel_spec.
Qed.

(** A texel without geometry keeps its entry. *)
Lemma BakeDirectionalLight_empty_texel bakedDirect bakedDirect' bakedGeometry
    embreeScene light settings (i : nat) :
  Geometry.geometryIds_ bakedGeometry !! i = Some 0 →
  BakeDirectionalLight bakedDirect bakedGeometry embreeScene light settings
    = Ok bakedDirect' →
  Direct.light_ bakedDirect' !! i = Direct.light_ bakedDirect !! i.
Proof.
  intros Hid H. apply BakeDirectionalLight_steps_chunks in H.
  refine (steps_frame _ _ _ _ i _ H).
  intros j f (p & n & gid & _ & _ & Hgid & ->) <- x.
  rewrite Hid in Hgid. inversion Hgid; subst. done.
Qed.

Lemma BakeDirectionalLight_steps bakedDirect bakedDirect' bakedGeometry embreeScene
    light settings :
  1 ≤ numThreads_ settings →
  Z.of_nat (length (Direct.light_ bakedDirect)) + numThreads_ settings ≤ 2 ^ 32 →
  BakeDirectionalLight bakedDirect bakedGeometry embreeScene light settings
    = Ok bakedDirect' →
  steps (direct_update bakedGeometry embreeScene light)
    (seqZ 0 (Z.of_nat (length (Direct.light_ bakedDirect))))
    (Direct.light_ bakedDirect) (Direct.light_ bakedDirect').
Proof.
  intros Hn Hfit H. unfold BakeDirectionalLight in H. inv_Ok H.
  inversion H; subst; simpl. clear H.
  refine (ParallelFor_steps (λ l, l) _ _ _ _ _ _ Hn Hfit _ Ha).
  intros fromIndex toIndex s s'. unfold for_range.
  apply (foldM_steps (λ l, l)). intros j s1 s2.
  apply BakeDirectionalLight_texel_spec.
Qed.

Lemma BakeDirectionalLight_lookup bakedDirect bakedDirect' bakedGeometry embreeScene
    light settings (i : nat) (old position smoothNormal : Vector3 F) (geometryId : Z) :
  1 ≤ numThreads_ settings →
  Z.of_nat (length (Direct.light_ bakedDirect)) + numThreads_ settings ≤ 2 ^ 32 →
  BakeDirectionalLight bakedDirect bakedGeometry embreeScene light settings
    = Ok bakedDirect' →
  Direct.light_ bakedDirect !! i = Some old →
  Geometry.geometryPositions_ bakedGeometry !! i = Some position →
  Geometry.smoothNormals_ bakedGeometry !! i = Some smoothNormal →
  Geometry.geometryIds_ bakedGeometry !! i = Some geometryId →
  Direct.light_ bakedDirect' !! i
  = Some (if decide (geometryId = 0) then old
          else v3add old (light_contribution embreeScene light position smoothNormal)).
Proof.
  intros Hn Hfit H Hold Hp Hnrm Hid.
  pose proof (lookup_lt_Some _ _ _ Hold) as Hlt.
  destruct (steps_seqZ_lookup _ _ 0 _ _ (Z.le_refl 0)
              (BakeDirectionalLight_steps _ _ _ _ _ _ Hn Hfit H) i old Hold)
    as [Hin _].
  destruct Hin as (f & (p & nrm & gid & Hp' & Hn' & Hid' & ->) & Hres); [lia|].
  rewrite Nat2Z.id in Hp', Hn', Hid'.
  rewrite Hres. simplify_eq. reflexivity.
Qed.

Lemma BakeDirectionalLight_texel_total bakedGeometry scene rayDirection maxDistance
    lightColor (j : Z) (buffer : list (Vector3 F)) :
  0 ≤ j < Z.of_nat (length buffer) →
  (length buffer ≤ length (Geometry.geometryPositions_ bakedGeometry))%nat →
  (length buffer ≤ length (Geometry.smoothNormals_ bakedGeometry))%nat →
  (length buffer ≤ length (Geometry.geometryIds_ bakedGeometry))%nat →
  ∃ buffer',
    BakeDirectionalLight_texel bakedGeometry scene rayDirection maxDistance lightColor
      j buffer = Ok buffer'
    ∧ length buffer' = length buffer.
Proof.
  intros Hj Hp Hn Hid. unfold BakeDirectionalLight_texel.
  destruct (at_index_total (Geometry.geometryPositions_ bakedGeometry) j ltac:(lia))
    as [p ->].
  destruct (at_index_total (Geometry.smoothNormals_ bakedGeometry) j ltac:(lia))
    as [n ->].
  destruct (at_index_total (Geometry.geometryIds_ bakedGeometry) j ltac:(lia))
    as [gid ->].
  simpl. destruct (decide (gid = 0)); [eauto|].
  destruct (at_index_total buffer j ltac:(lia)) as [old ->]. simpl.
  eexists. split; [apply set_index_Ok; split; [lia | reflexivity]|].
  by rewrite length_insert.
Qed.

(** A call on buffers as long as the chart returns. *)
Lemma BakeDirectionalLight_total bakedDirect bakedGeometry embreeScene light settings :
  numThreads_ settings ≠ 0 →
  (length (Direct.light_ bakedDirect) ≤ length (Geometry.geometryPositions_ bakedGeometry))%nat →
  (length (Direct.light_ bakedDirect) ≤ length (Geometry.smoothNormals_ bakedGeometry))%nat →
  (length (Direct.light_ bakedDirect) ≤ length (Geometry.geometryIds_ bakedGeometry))%nat →
  ∃ bakedDirect',
    BakeDirectionalLight bakedDirect bakedGeometry embreeScene light settings
      = Ok bakedDirect'.
Proof.
  intros Hn Hp Hnrm Hid. unfold BakeDirectionalLight.
  destruct (ParallelFor_total
              (λ l : list (Vector3 F), length l = length (Direct.light_ bakedDirect))
              (size_unsigned (Direct.light_ bakedDirect)) (numThreads_ settings)
              (BakeDirectionalLight_texel bakedGeometry (GetEmbreeScene embreeScene)
                 (light_rayDirection light) (GetMaxDistance embreeScene)
                 (ToVector3 (color_ light)))
              (Direct.light_ bakedDirect) Hn) as (buffer' & -> & _); [|done|simpl; eauto].
  intros j s Hj Hs.
  pose proof (size_unsigned_le (Direct.light_ bakedDirect)).
  destruct (BakeDirectionalLight_texel_total bakedGeometry (GetEmbreeScene embreeScene)
              (light_rayDirection light) (GetMaxDistance embreeScene)
              (ToVector3 (color_ light)) j s) as (s' & Hs' & Hlen); try lia.
  exists s'. split; [done | congruence].
Qed.
End DirectLight.

(** ** Indirect light *)

Section IndirectLight.
Context {F : Type} `{!FloatOps F} `{!Engine F}.
Variable fuel : nat.
Variable bakedDirect : list (Direct.LightmapChartBakedDirect F).
Variable bakedGeometry : Geometry.LightmapChartBakedGeometry F.
Variable embreeScene : EmbreeScene F.
Variable settings : LightmapTracingSettings F.

(** One bounce: the direction drawn, and what a miss and a hit leave
    behind. *)
Lemma BakeIndirectLight_bounce_spec (j : Z) (st st' : PathState F Rng) :
  BakeIndirectLight_bounce fuel bakedDirect embreeScene settings j st = Ok st' →
  ∃ rayDirection rng,
    RandomHemisphereDirection fuel (currentNormal st) (path_rng st)
      = Ok (rayDirection, rng)
    ∧ path_rng st' = rng
    ∧ match cast_ray (GetEmbreeScene embreeScene)
              (bounce_ray settings (GetMaxDistance embreeScene)
                 (currentPosition st) (currentNormal st) rayDirection) with
      | None =>
        numSamples st' = numSamples st ∧ arrays st' = arrays st
        ∧ currentPosition st' = currentPosition st
        ∧ currentNormal st' = currentNormal st
      | Some (hit_tfar, hit) =>
        ∃ geometry chart,
          GetEmbreeGeometryIndex embreeScene !! Z.to_nat (geomID hit) = Some geometry
          ∧ bakedDirect !! 0%nat = Some chart
          ∧ 0 ≤ j < Z.of_nat (length (incomingSamples (arrays st)))
          ∧ 0 ≤ j < Z.of_nat (length (incomingFactors (arrays st)))
          ∧ numSamples st' = numSamples st + 1
          ∧ incomingSamples (arrays st')
            = <[Z.to_nat j :=
                  SampleNearest chart
                    (rtcInterpolate0 geometry (primID hit) (u hit) (v hit))]>
                (incomingSamples (arrays st))
          ∧ incomingFactors (arrays st')
            = <[Z.to_nat j := Some (incoming_factor rayDirection (currentNormal st))]>
                (incomingFactors (arrays st))
      end.
Proof.
  intros H. unfold BakeIndirectLight_bounce in H.
  apply bind_Ok in H as ([rayDirection rng] & Hdir & H).
  exists rayDirection, rng. split; [done|].
  destruct (cast_ray _ _) as [[hit_tfar hit]|].
  - inv_Ok H.
    apply at_index_Ok in Ha as [_ Hg], Ha0 as [_ Hc].
    apply set_index_Ok in Ha1 as [Hj1 ->], Ha2 as [Hj2 ->].
    destruct (_ <? _); inversion H; subst; simpl;
      (split; [done|]); exists a, a0; repeat split; try done; lia.
  - inversion H; subst; simpl. done.
Qed.

Lemma accumulate_none (a : BounceArrays F) : accumulate a 0 = Ok Vector3_zero.
Proof. reflexivity. Qed.

(** A path all of whose rays miss records nothing. *)
Lemma path_rays_miss (js : list Z) (st0 st : PathState F Rng) :
  Forall (λ ray, cast_ray (GetEmbreeScene embreeScene) ray = None)
    (path_rays fuel bakedDirect embreeScene settings js st0) →
  foldM (BakeIndirectLight_bounce fuel bakedDirect embreeScene settings) js st0 = Ok st →
  numSamples st = numSamples st0 ∧ arrays st = arrays st0.
Proof.
  revert st0. induction js as [|j js IH]; intros st0 Hmiss H; simpl in *.
  - by inversion H.
  - apply bind_Ok in H as (st1 & H1 & H).
    pose proof (BakeIndirectLight_bounce_spec _ _ _ H1) as (d & rng & Hd & _ & Hcast).
    rewrite Hd, H1 in Hmiss. apply Forall_cons_1 in Hmiss as [Hray Hmiss].
    rewrite Hray in Hcast. destruct Hcast as (Hn & Ha & _).
    destruct (IH _ Hmiss H) as [-> ->]. done.
Qed.

(** The body of the texel loop changes the entry of its texel only, by
    adding the accumulated radiance with alpha 1. *)
Lemma BakeIndirectLight_texel_spec (j : Z) (ts ts' : TaskState F Rng) :
  BakeIndirectLight_texel fuel bakedDirect bakedGeometry embreeScene settings j ts
    = Ok ts' →
  ∃ f, indirect_update bakedGeometry (λ _, True) j f
       ∧ task_light ts' = alter f (Z.to_nat j) (task_light ts).
Proof.
  intros H. unfold BakeIndirectLight_texel in H. inv_Ok H.
  apply at_index_Ok in Ha1 as [_ Hid].
  destruct (decide (a1 = 0)) as [Hz|Hz].
  - inversion H; subst. eexists. split.
    + exists 0, Vector3_zero. repeat split; done.
    + simpl. symmetry. by apply list_alter_id.
  - inv_Ok H. inversion H; subst; simpl. clear H.
    apply at_index_Ok in Ha3 as [_ Hold]. apply set_index_Ok in Ha4 as [_ ->].
    eexists. split.
    + exists a1, a3. repeat split; done.
    + simpl. rewrite (list_alter_lookup_insert _ _ _ _ Hold).
      destruct (decide (a1 = 0)); done.
Qed.

(** The visit of a texel with geometry whose path records nothing. *)
Lemma BakeIndirectLight_texel_misses (j : Z) (ts ts' : TaskState F Rng)
    (position smoothNormal : Vector3 F) (geometryId : Z) (old : Vector4 F) :
  BakeIndirectLight_texel fuel bakedDirect bakedGeometry embreeScene settings j ts
    = Ok ts' →
  Geometry.geometryPositions_ bakedGeometry !! Z.to_nat j = Some position →
  Geometry.smoothNormals_ bakedGeometry !! Z.to_nat j = Some smoothNormal →
  Geometry.geometryIds_ bakedGeometry !! Z.to_nat j = Some geometryId →
  task_light ts !! Z.to_nat j = Some old →
  geometryId ≠ 0 →
  numBounces_ settings = 0
    ∨ Forall (λ ray, cast_ray (GetEmbreeScene embreeScene) ray = None)
        (path_rays fuel bakedDirect embreeScene settings
           (loop_indices 0 (numBounces_ settings))
           (mkPathState 0 position smoothNormal (task_arrays ts) (task_rng ts))) →
  task_light ts' !! Z.to_nat j
  = Some (v4add old (Vector4_of Vector3_zero (of_int 1))).
Proof.
  intros H Hp Hn Hid Hold Hne Hno. unfold BakeIndirectLight_texel in H. inv_Ok H.
  apply at_index_Ok in Ha as [_ Hp'], Ha0 as [_ Hn'], Ha1 as [_ Hid']. simplify_eq.
  destruct (decide (_ = 0)); [done|]. inv_Ok H. inversion H; subst; simpl. clear H.
  assert (Hrec : numSamples a2 = 0).
  { unfold for_range in Ha. destruct Hno as [Hzero|Hmiss].
    - rewrite Hzero in Ha. simpl in Ha. by inversion Ha.
    - by destruct (path_rays_miss _ _ _ Hmiss Ha) as [-> _]. }
  rewrite Hrec, accumulate_none in Ha0. inversion Ha0; subst.
  apply at_index_Ok in Ha1 as [_ Hold']. apply set_index_Ok in Ha2 as [Hj ->].
  simplify_eq. rewrite list_lookup_insert_eq by lia. done.
Qed.
End IndirectLight.

Section IndirectLightCall.
Context {F : Type} `{!FloatOps F} `{!Engine F}.
Implicit Types bakedIndirect : Indirect.LightmapChartBakedIndirect F.
Implicit Types bakedDirect : list (Direct.LightmapChartBakedDirect F).
Implicit Types bakedGeometry : Geometry.LightmapChartBakedGeometry F.
Implicit Types embreeScene : EmbreeScene F.
Implicit Types settings : LightmapTracingSettings F.

Lemma BakeIndirectLight_task_steps (Rf : Z → (Vector4 F → Vector4 F) → Prop)
    fuel bakedDirect bakedGeometry embreeScene settings fromIndex toIndex
    (s s' : list (Vector4 F) * Rng) :
  (∀ j ts ts',
     BakeIndirectLight_texel fuel bakedDirect bakedGeometry embreeScene settings j ts
       = Ok ts' →
     ∃ f, Rf j f ∧ task_light ts' = alter f (Z.to_nat j) (task_light ts)) →
  BakeIndirectLight_task fuel bakedDirect bakedGeometry embreeScene settings
    fromIndex toIndex s = Ok s' →
  steps Rf (loop_indices fromIndex toIndex) s.1 s'.1.
Proof.
  intros Hbody H. unfold BakeIndirectLight_task in H. inv_Ok H.
  inversion H; subst; simpl. clear H. unfold for_range in Ha.
  apply (foldM_steps task_light Rf _ _ _ _ Hbody) in Ha. done.
Qed.

(** The call as a sequence of texel visits; the scratch buffer and the
    dimensions are not touched. *)
Lemma BakeIndirectLight_steps (Rf : Z → (Vector4 F → Vector4 F) → Prop)
    fuel bakedIndirect bakedIndirect' bakedDirect bakedGeometry embreeScene settings
    (rng rng' : Rng) :
  (∀ j ts ts',
     BakeIndirectLight_texel fuel bakedDirect bakedGeometry embreeScene settings j ts
       = Ok ts' →
     ∃ f, Rf j f ∧ task_light ts' = alter f (Z.to_nat j) (task_light ts)) →
  BakeIndirectLight fuel bakedIndirect bakedDirect bakedGeometry embreeScene settings rng
    = Ok (bakedIndirect', rng') →
  steps Rf
    (ParallelFor_indices (size_unsigned (Indirect.light_ bakedIndirect))
       (numThreads_ settings))
    (Indirect.light_ bakedIndirect) (Indirect.light_ bakedIndirect')
  ∧ Indirect.lightSwap_ bakedIndirect' = Indirect.lightSwap_ bakedIndirect.
Proof.
  intros Hbody H. unfold BakeIndirectLight in H.
  apply bind_Ok in H as (_ & _ & H).
  apply bind_Ok in H as ([buffer r] & Hpar & H).
  inversion H; subst; simpl. clear H. split; [|done].
  refine (ParallelFor_steps_chunks fst Rf _ _ _ _ _ _ Hpar).
  intros fromIndex toIndex s s'. by apply BakeIndirectLight_task_steps.
Qed.

(** A texel without geometry keeps its entry; the scratch buffer is not
    touched. *)
Lemma BakeIndirectLight_empty_texel fuel bakedIndirect bakedIndirect' bakedDirect
    bakedGeometry embreeScene settings (rng rng' : Rng) (i : nat) :
  Geometry.geometryIds_ bakedGeometry !! i = Some 0 →
  BakeIndirectLight fuel bakedIndirect bakedDirect bakedGeometry embreeScene
    settings rng = Ok (bakedIndirect', rng') →
  Indirect.light_ bakedIndirect' !! i = Indirect.light_ bakedIndirect !! i
  ∧ Indirect.lightSwap_ bakedIndirect' = Indirect.lightSwap_ bakedIndirect.
Proof.
  intros Hid H.
  apply (BakeIndirectLight_steps (indirect_update bakedGeometry (λ _, True))) in H
    as [H Hswap]; [|apply BakeIndirectLight_texel_spec].
  split; [|done].
  refine (steps_frame _ _ _ _ i _ H).
  intros j f (gid & L & Hgid & _ & ->) <- x.
  rewrite Hid in Hgid. inversion Hgid; subst. done.
Qed.

(** Only the chart at index 0 of [bakedDirect] is read. *)
Lemma at_index_take_one {A} (l : list A) : at_index (take 1 l) 0 = at_index l 0.
Proof. by destruct l. Qed.

Lemma BakeIndirectLight_bounce_chart0 fuel bakedDirect embreeScene settings
    (j : Z) (st : PathState F Rng) :
  BakeIndirectLight_bounce fuel (take 1 bakedDirect) embreeScene settings j st
  = BakeIndirectLight_bounce fuel bakedDirect embreeScene settings j st.
Proof.
  unfold BakeIndirectLight_bounce.
  destruct (RandomHemisphereDirection _ _ _) as [[d r]| | |]; simpl; try done.
  destruct (cast_ray _ _) as [[t hit]|]; [|done].
  destruct (at_index (GetEmbreeGeometryIndex embreeScene) _); simpl; try done.
  by rewrite at_index_take_one.
Qed.

Lemma BakeIndirectLight_chart0 fuel bakedIndirect bakedDirect bakedGeometry
    embreeScene settings (rng : Rng) :
  BakeIndirectLight fuel bakedIndirect (take 1 bakedDirect) bakedGeometry embreeScene
    settings rng
  = BakeIndirectLight fuel bakedIndirect bakedDirect bakedGeometry embreeScene
      settings rng.
Proof.
  unfold BakeIndirectLight. destruct (assert _); simpl; try done.
  erewrite ParallelFor_ext; [reflexivity|].
  intros fromIndex toIndex s. unfold BakeIndirectLight_task, for_range.
  erewrite foldM_ext; [reflexivity|].
  intros i ts. unfold BakeIndirectLight_texel, for_range.
  do 3 (apply bind_ext; intros ?).
  destruct (decide _); [done|].
  rewrite (foldM_ext _ (BakeIndirectLight_bounce fuel bakedDirect embreeScene settings));
    [reflexivity|].
  intros j st. apply BakeIndirectLight_bounce_chart0.
Qed.
End IndirectLightCall.

Section IndirectVisits.
Context {F : Type} `{!FloatOps F} `{!Engine F}.
Variable fuel : nat.
Variables bakedIndirect bakedIndirect' : Indirect.LightmapChartBakedIndirect F.
Variable bakedDirect : list (Direct.LightmapChartBakedDirect F).
Variable bakedGeometry : Geometry.LightmapChartBakedGeometry F.
Variable embreeScene : EmbreeScene F.
Variable settings : LightmapTracingSettings F.
Variables rng rng' : Rng.
Hypothesis Hthreads : 1 ≤ numThreads_ settings.
Hypothesis Hfits :
  Z.of_nat (length (Indirect.light_ bakedIndirect)) + numThreads_ settings ≤ 2 ^ 32.
Hypothesis Hcall :
  BakeIndirectLight fuel bakedIndirect bakedDirect bakedGeometry embreeScene settings rng
  = Ok (bakedIndirect', rng').

(** Every texel of the buffer is visited, in a state in which its entry
    is still the one of before the call, and its entry after the call is
    the one this visit leaves. *)
Lemma BakeIndirectLight_at (i : nat) :
  (i < length (Indirect.light_ bakedIndirect))%nat →
  ∃ ts ts',
    BakeIndirectLight_visit fuel bakedIndirect bakedDirect bakedGeometry embreeScene
      settings rng (Z.of_nat i) ts
    ∧ BakeIndirectLight_texel fuel bakedDirect bakedGeometry embreeScene settings
        (Z.of_nat i) ts = Ok ts'
    ∧ task_light ts !! i = Indirect.light_ bakedIndirect !! i
    ∧ Indirect.light_ bakedIndirect' !! i = task_light ts' !! i.
Proof.
  intros Hi. pose proof Hcall as H. unfold BakeIndirectLight in H.
  apply bind_Ok in H as (_ & _ & H).
  apply bind_Ok in H as ([buffer r] & Hpar & H).
  inversion H; subst; simpl. clear H.
  unfold BakeIndirectLight_visit.
  rewrite size_unsigned_small in * by lia.
  set (count := Z.of_nat (length (Indirect.light_ bakedIndirect))) in *.
  set (n := numThreads_ settings) in *.
  assert (Hcount : 0 ≤ count) by lia.
  destruct (chunk_of_index count n Hcount Hthreads Hfits (Z.of_nat i) ltac:(lia))
    as (task & Htask & Hrange).
  unfold ParallelFor in Hpar. destruct (decide (n = 0)); [lia|].
  rewrite (seqZ_split n task Htask) in Hpar.
  apply foldM_split in Hpar as (s & s1 & Hbefore & Hthis & Hafter).
  unfold ParallelFor_task at 1 in Hthis. unfold BakeIndirectLight_task in Hthis.
  apply bind_Ok in Hthis as (tsf & Hloop & Hthis). inversion Hthis; subst s1. clear Hthis.
  unfold for_range in Hloop. rewrite (loop_indices_split _ _ _ Hrange) in Hloop.
  apply foldM_split in Hloop as (ts & ts' & Hpre & Hvisit & Hpost).
  exists ts, ts'. split; [exists task, s; done|]. split; [done|].
  assert (Hcb : ∀ fromIndex toIndex (s s' : list (Vector4 F) * Rng),
            BakeIndirectLight_task fuel bakedDirect bakedGeometry embreeScene settings
              fromIndex toIndex s = Ok s' →
            steps (indirect_update bakedGeometry (λ _, True))
              (loop_indices fromIndex toIndex) s.1 s'.1).
  { intros f t s0 s0'. apply BakeIndirectLight_task_steps.
    intros j t0 t0'. apply BakeIndirectLight_texel_spec. }
  assert (Hbody : ∀ j (t t' : TaskState F Rng),
            BakeIndirectLight_texel fuel bakedDirect bakedGeometry embreeScene settings
              j t = Ok t' →
            ∃ f, indirect_update bakedGeometry (λ _, True) j f
                 ∧ task_light t' = alter f (Z.to_nat j) (task_light t)).
  { intros j t0 t0'. apply BakeIndirectLight_texel_spec. }
  pose proof (chunkSize_nonneg count n Hcount Hthreads Hfits) as Hcs.
  assert (Hfrom : 0 ≤ fromIndex count n task).
  { rewrite fromIndex_exact by done. nia. }
  split.
  - (* before the visit *)
    apply (foldM_steps task_light _ _ _ _ _ Hbody) in Hpre. simpl in Hpre.
    transitivity (s.1 !! i).
    + refine (steps_outside _ _ _ _ i _ Hpre).
      unfold loop_indices. apply Forall_seqZ. intros j Hj. lia.
    + refine (tasks_outside fst _ _ _ _ _ _ _ i Hcb _ Hbefore).
      apply Forall_seqZ. intros task' Ht' j Hj.
      pose proof (chunk_before count n Hcount Hthreads Hfits task task' j
                    ltac:(lia) ltac:(lia) Hj). lia.
  - (* after the visit *)
    apply (foldM_steps task_light _ _ _ _ _ Hbody) in Hpost.
    transitivity (task_light tsf !! i).
    + refine (tasks_outside fst _ _ _ _ _ (task_light tsf, task_rng tsf) _ i Hcb _ Hafter).
      apply Forall_seqZ. intros task' Ht' j Hj.
      pose proof (chunk_after count n Hcount Hthreads Hfits task task' j
                    ltac:(lia) ltac:(lia) Hj). lia.
    + refine (steps_outside _ _ _ _ i _ Hpost).
      unfold loop_indices. apply Forall_seqZ. intros j Hj. lia.
Qed.

(** The state in which a texel is visited is determined by the call. *)
Lemma BakeIndirectLight_visit_unique (i : Z) (ts1 ts2 : TaskState F Rng) :
  BakeIndirectLight_visit fuel bakedIndirect bakedDirect bakedGeometry embreeScene
    settings rng i ts1 →
  BakeIndirectLight_visit fuel bakedIndirect bakedDirect bakedGeometry embreeScene
    settings rng i ts2 →
  ts1 = ts2.
Proof.
  unfold BakeIndirectLight_visit. cbv zeta.
  rewrite (size_unsigned_small (Indirect.light_ bakedIndirect)) by lia.
  intros (task1 & s1 & Ht1 & Hr1 & Hs1 & Hts1) (task2 & s2 & Ht2 & Hr2 & Hs2 & Hts2).
  assert (task1 = task2) as <-.
  { apply (chunk_unique (Z.of_nat (length (Indirect.light_ bakedIndirect)))
             (numThreads_ settings) ltac:(lia) Hthreads Hfits i); done. }
  rewrite Hs1 in Hs2. inversion Hs2; subst s2.
  rewrite Hts1 in Hts2. by inversion Hts2.
Qed.
End IndirectVisits.

(** ** The pairs recorded along a path *)

Section RecordedPairs.
Context {F : Type} `{!FloatOps F} `{!Engine F}.
Variable fuel : nat.
Variable bakedDirect : list (Direct.LightmapChartBakedDirect F).
Variable embreeScene : EmbreeScene F.
Variable settings : LightmapTracingSettings F.


(** The accumulation loop combines the slots below [numSamples] back to
    front. *)
Lemma accumulate_slots (a : BounceArrays F) (pairs : list (Vector3 F * F)) (j0 : Z) :
  0 ≤ j0 →
  (∀ (k : nat) p, pairs !! k = Some p →
     incomingSamples a !! (Z.to_nat j0 + k)%nat = Some p.1
     ∧ incomingFactors a !! (Z.to_nat j0 + k)%nat = Some (Some p.2)) →
  foldM (accumulate_step a) (reverse (seqZ j0 (Z.of_nat (length pairs)))) Vector3_zero
  = Ok (back_to_front pairs).
Proof.
  revert j0. induction pairs as [|p pairs IH]; intros j0 Hj0 Hslots; [done|].
  rewrite seqZ_cons by (simpl; lia). rewrite reverse_cons, foldM_app.
  replace (Z.pred (Z.of_nat (length (p :: pairs)))) with (Z.of_nat (length pairs))
    by (simpl; lia).
  rewrite (IH (Z.succ j0)) by
    (try lia; intros k q Hq; destruct (Hslots (S k) q Hq) as [H1 H2];
     replace (Z.to_nat (Z.succ j0) + k)%nat with (Z.to_nat j0 + S k)%nat by lia; done).
  simpl. destruct (Hslots 0%nat p eq_refl) as [Hs Hf].
  rewrite Nat.add_0_r in Hs, Hf. unfold accumulate_step, at_index.
  destruct (decide (0 ≤ j0)); [|lia]. rewrite Hs, Hf. reflexivity.
Qed.

(** A path whose remaining rays miss records nothing more. *)
Lemma path_records_miss (js : list Z) (st0 st : PathState F Rng) :
  Forall (λ ray, cast_ray (GetEmbreeScene embreeScene) ray = None)
    (path_rays fuel bakedDirect embreeScene settings js st0) →
  foldM (BakeIndirectLight_bounce fuel bakedDirect embreeScene settings) js st0 = Ok st →
  path_records fuel bakedDirect embreeScene settings js st0 = [].
Proof.
  revert st0. induction js as [|j js IH]; intros st0 Hmiss H; simpl in *; [done|].
  apply bind_Ok in H as (st1 & H1 & H).
  pose proof (BakeIndirectLight_bounce_spec _ _ _ _ _ _ _ H1) as (d & rng & Hd & _ & Hcast).
  rewrite Hd, H1 in Hmiss |- *. apply Forall_cons_1 in Hmiss as [Hray Hmiss].
  rewrite Hray. simpl. eauto.
Qed.

(** While no ray has missed, bounce [j] writes slot [j] and [numSamples]
    is the index of the next bounce: the pairs recorded by a path that
    hits [h] times and then misses sit in the slots
    [numSamples, numSamples + 1, ...] in the order of their recording. *)
Lemma path_records_slots (h : nat) (n : nat) (j0 : Z) (st0 st : PathState F Rng) :
  0 ≤ j0 →
  numSamples st0 = j0 →
  foldM (BakeIndirectLight_bounce fuel bakedDirect embreeScene settings) (seqZ j0 (Z.of_nat n)) st0 = Ok st →
  Forall (λ ray, cast_ray (GetEmbreeScene embreeScene) ray ≠ None)
    (take h (path_rays fuel bakedDirect embreeScene settings (seqZ j0 (Z.of_nat n)) st0)) →
  Forall (λ ray, cast_ray (GetEmbreeScene embreeScene) ray = None)
    (drop h (path_rays fuel bakedDirect embreeScene settings (seqZ j0 (Z.of_nat n)) st0)) →
  numSamples st = j0 + Z.of_nat (length (path_records fuel bakedDirect embreeScene settings (seqZ j0 (Z.of_nat n)) st0))
  ∧ (∀ k : nat, (k < Z.to_nat j0)%nat →
       incomingSamples (arrays st) !! k = incomingSamples (arrays st0) !! k
       ∧ incomingFactors (arrays st) !! k = incomingFactors (arrays st0) !! k)
  ∧ (∀ (k : nat) p, path_records fuel bakedDirect embreeScene settings (seqZ j0 (Z.of_nat n)) st0 !! k = Some p →
       incomingSamples (arrays st) !! (Z.to_nat j0 + k)%nat = Some p.1
       ∧ incomingFactors (arrays st) !! (Z.to_nat j0 + k)%nat = Some (Some p.2)).
Proof.
  revert h j0 st0. induction n as [|n IH]; intros h j0 st0 Hj0 Hns H Hhit Hmiss.
  { simpl in *. inversion H; subst. repeat split; try done. lia. }
  destruct h as [|h].
  { rewrite drop_0 in Hmiss.
    rewrite (path_records_miss _ _ _ Hmiss H).
    destruct (path_rays_miss _ _ _ _ _ _ _ Hmiss H) as [-> ->].
    repeat split; try done. simpl. lia. }
  rewrite seqZ_cons in * by lia.
  replace (Z.pred (Z.of_nat (S n))) with (Z.of_nat n) in * by lia.
  simpl in H, Hhit, Hmiss |- *.
  apply bind_Ok in H as (st1 & H1 & H).
  pose proof (BakeIndirectLight_bounce_spec _ _ _ _ _ _ _ H1) as (d & rng & Hd & _ & Hcast).
  rewrite Hd, H1 in Hhit, Hmiss |- *. simpl in Hhit, Hmiss.
  apply Forall_cons_1 in Hhit as [Hray Hhit].
  destruct (cast_ray _ _) as [[t hit]|]; [|done].
  destruct Hcast as (geometry & chart & _ & _ & Hjs & Hjf & Hns1 & Hs1 & Hf1).
  assert (Hslot_s : incomingSamples (arrays st1) !! Z.to_nat j0
                    = Some (SampleNearest chart
                              (rtcInterpolate0 geometry (primID hit) (u hit) (v hit)))).
  { rewrite Hs1. apply list_lookup_insert_eq. lia. }
  assert (Hslot_f : incomingFactors (arrays st1) !! Z.to_nat j0
                    = Some (Some (incoming_factor d (currentNormal st0)))).
  { rewrite Hf1. apply list_lookup_insert_eq. lia. }
  rewrite Hslot_s. simpl.
  destruct (IH h (Z.succ j0) st1 ltac:(lia) ltac:(lia) H Hhit Hmiss)
    as (Hnum & Hkeep & Hrec).
  split; [lia|]. split.
  - intros k Hk. destruct (Hkeep k ltac:(lia)) as [-> ->].
    rewrite Hs1, Hf1. split; apply list_lookup_insert_ne; lia.
  - intros [|k] p Hp; simpl in Hp.
    + inversion Hp; subst p. simpl. rewrite Nat.add_0_r.
      destruct (Hkeep (Z.to_nat j0) ltac:(lia)) as [-> ->]. done.
    + destruct (Hrec k p Hp) as [H2 H3].
      replace (Z.to_nat j0 + S k)%nat with (Z.to_nat (Z.succ j0) + k)%nat by lia. done.
Qed.

(** A path on which no miss precedes a hit adds its recorded pairs,
    combined back to front. *)
Lemma accumulate_path_records (h : nat) (position smoothNormal : Vector3 F)
    (a : BounceArrays F) (rng : Rng) (st : PathState F Rng) :
  for_range 0 (numBounces_ settings)
    (BakeIndirectLight_bounce fuel bakedDirect embreeScene settings)
    (mkPathState 0 position smoothNormal a rng) = Ok st →
  Forall (λ ray, cast_ray (GetEmbreeScene embreeScene) ray ≠ None)
    (take h (path_rays fuel bakedDirect embreeScene settings
               (loop_indices 0 (numBounces_ settings))
               (mkPathState 0 position smoothNormal a rng))) →
  Forall (λ ray, cast_ray (GetEmbreeScene embreeScene) ray = None)
    (drop h (path_rays fuel bakedDirect embreeScene settings
               (loop_indices 0 (numBounces_ settings))
               (mkPathState 0 position smoothNormal a rng))) →
  accumulate (arrays st) (numSamples st)
  = Ok (back_to_front
          (path_records fuel bakedDirect embreeScene settings
             (loop_indices 0 (numBounces_ settings))
             (mkPathState 0 position smoothNormal a rng))).
Proof.
  unfold for_range, loop_indices. rewrite Z.sub_0_r. intros H Hhit Hmiss.
  destruct (Z.le_gt_cases 0 (numBounces_ settings)) as [Hn|Hn].
  - rewrite <- (Z2Nat.id (numBounces_ settings)) in H, Hhit, Hmiss |- * by done.
    destruct (path_records_slots h _ 0 (mkPathState 0 position smoothNormal a rng) st
                (Z.le_refl 0) eq_refl H Hhit Hmiss) as (Hnum & _ & Hrec).
    unfold accumulate. rewrite Hnum, Z.add_0_l.
    apply accumulate_slots; done.
  - rewrite seqZ_nil in * by lia. simpl in *. by inversion H.
Qed.
End RecordedPairs.

Section NoBounce.
Context {F : Type} `{!FloatOps F} `{!Engine F}.
Variable fuel : nat.
Variable bakedDirect : list (Direct.LightmapChartBakedDirect F).
Variable bakedGeometry : Geometry.LightmapChartBakedGeometry F.
Variable embreeScene : EmbreeScene F.
Variable settings : LightmapTracingSettings F.
Hypothesis Hzero : numBounces_ settings = 0.

Lemma BakeIndirectLight_texel_no_bounce_total (j : Z) (ts : TaskState F Rng) :
  0 ≤ j < Z.of_nat (length (task_light ts)) →
  (length (task_light ts) ≤ length (Geometry.geometryPositions_ bakedGeometry))%nat →
  (length (task_light ts) ≤ length (Geometry.smoothNormals_ bakedGeometry))%nat →
  (length (task_light ts) ≤ length (Geometry.geometryIds_ bakedGeometry))%nat →
  ∃ ts',
    BakeIndirectLight_texel fuel bakedDirect bakedGeometry embreeScene settings j ts
      = Ok ts'
    ∧ length (task_light ts') = length (task_light ts)
    ∧ task_rng ts' = task_rng ts.
Proof.
  intros Hj Hp Hn Hid. unfold BakeIndirectLight_texel.
  destruct (at_index_total (Geometry.geometryPositions_ bakedGeometry) j ltac:(lia))
    as [p ->].
  destruct (at_index_total (Geometry.smoothNormals_ bakedGeometry) j ltac:(lia))
    as [n ->].
  destruct (at_index_total (Geometry.geometryIds_ bakedGeometry) j ltac:(lia))
    as [gid ->].
  simpl. destruct (decide (gid = 0)) as [|Hgid]; [eauto|].
  rewrite Hzero. simpl.
  destruct (at_index_total (task_light ts) j ltac:(lia)) as [old ->]. simpl.
  unfold set_index. destruct (decide _) as [_|Hbad]; [|lia]. simpl.
  eexists. split; [reflexivity|]. simpl. by rewrite length_insert.
Qed.

(** With no bounce the call returns, and draws no random number. *)
Lemma BakeIndirectLight_no_bounce_total
    (bakedIndirect : Indirect.LightmapChartBakedIndirect F) (rng : Rng) :
  numThreads_ settings ≠ 0 →
  0 ≤ MaxBounces →
  (length (Indirect.light_ bakedIndirect)
   ≤ length (Geometry.geometryPositions_ bakedGeometry))%nat →
  (length (Indirect.light_ bakedIndirect)
   ≤ length (Geometry.smoothNormals_ bakedGeometry))%nat →
  (length (Indirect.light_ bakedIndirect)
   ≤ length (Geometry.geometryIds_ bakedGeometry))%nat →
  ∃ bakedIndirect',
    BakeIndirectLight fuel bakedIndirect bakedDirect bakedGeometry embreeScene
      settings rng = Ok (bakedIndirect', rng).
Proof.
  intros Hn Hmax Hp Hnrm Hid. unfold BakeIndirectLight.
  rewrite Hzero, bool_decide_eq_true_2 by done. simpl.
  set (len := length (Indirect.light_ bakedIndirect)).
  destruct (ParallelFor_callback_total
              (λ s : list (Vector4 F) * Rng, length s.1 = len ∧ s.2 = rng)
              (size_unsigned (Indirect.light_ bakedIndirect)) (numThreads_ settings)
              (BakeIndirectLight_task fuel bakedDirect bakedGeometry embreeScene settings)
              (Indirect.light_ bakedIndirect, rng) Hn)
    as ([buffer r] & -> & _ & Hr); [|done|simpl in *; subst r; eauto].
  intros fromIndex toIndex [l r] Hfrom Hto [Hl Hr]. simpl in Hl, Hr.
  unfold BakeIndirectLight_task, for_range. cbn [fst snd].
  pose proof (size_unsigned_le (Indirect.light_ bakedIndirect)) as Hsize.
  destruct (foldM_total
              (λ ts : TaskState F Rng, length (task_light ts) = len ∧ task_rng ts = rng)
              (λ j, 0 ≤ j < Z.of_nat len)
              (BakeIndirectLight_texel fuel bakedDirect bakedGeometry embreeScene settings)
              (loop_indices fromIndex toIndex)
              (mkTaskState BounceArrays_fresh l r))
    as (ts & -> & Hts & Hrng); [| |done|simpl; eauto].
  - unfold loop_indices. apply Forall_seqZ. intros j Hj. fold len in Hsize. lia.
  - intros j ts Hj [Hlen Hrng'].
    destruct (BakeIndirectLight_texel_no_bounce_total j ts) as (ts' & Hts' & Hl' & Hr');
      try (rewrite Hlen; done).
    exists ts'. split; [done|]. split; congruence.
Qed.
End NoBounce.

(** ** The filter *)

Section Filter.
Context {F : Type} `{!FloatOps F} `{!Engine F} `{!LibM F}.
Implicit Types bakedIndirect : Indirect.LightmapChartBakedIndirect F.
Implicit Types bakedGeometry : Geometry.LightmapChartBakedGeometry F.
Implicit Types params : IndirectFilterParameters F.

Lemma GetKernel_Ok (radius : Z) (kernelWeights : list F) :
  GetKernel radius = Ok kernelWeights →
  (radius = 0 ∧ kernelWeights = k0) ∨ (radius = 1 ∧ kernelWeights = k1)
  ∨ (radius = 2 ∧ kernelWeights = k2).
Proof.
  destruct radius as [|[p|[p|p|]|]|p]; simpl; intros H; inversion H; auto.
Qed.

Lemma GetKernel_unsupported (radius : Z) :
  radius ≠ 0 → radius ≠ 1 → radius ≠ 2 → GetKernel (F:=F) radius = AssertFail.
Proof.
  destruct radius as [|[p|[p|p|]|]|p]; simpl; intros; done.
Qed.

(** The body of the texel loop stores one value, at its own texel. *)
Lemma FilterIndirectLight_texel_spec (buffer : list (Vector4 F)) bakedGeometry
    params (kernelWeights : list F) (j : Z) (lightSwap lightSwap' : list (Vector4 F)) :
  FilterIndirectLight_texel buffer bakedGeometry params kernelWeights j lightSwap
    = Ok lightSwap' →
  ∃ f,
    filter_update bakedGeometry
      (λ j filtered,
         ∃ centerColor centerPosition centerNormal kernel0 acc,
           buffer !! Z.to_nat j = Some centerColor
           ∧ Geometry.geometryPositions_ bakedGeometry !! Z.to_nat j = Some centerPosition
           ∧ Geometry.smoothNormals_ bakedGeometry !! Z.to_nat j = Some centerNormal
           ∧ kernelWeights !! 0%nat = Some kernel0
           ∧ FilterIndirectLight_gather buffer bakedGeometry params kernelWeights
               (IndexToLocation bakedGeometry j) (GetLuminance centerColor)
               centerPosition centerNormal
               (v4scale centerColor (kernel0 ⊗ kernel0), kernel0 ⊗ kernel0) = Ok acc
           ∧ filtered = v4div acc.1 (fmax M_EPSILON acc.2))
      j f
    ∧ lightSwap' = alter f (Z.to_nat j) lightSwap.
Proof.
  intros H. unfold FilterIndirectLight_texel in H. inv_Ok H.
  apply at_index_Ok in Ha as [_ Hid].
  destruct (decide (a = 0)) as [Hz|Hz].
  - inversion H; subst. eexists. split.
    + exists 0, Vector4_zero. repeat split; done.
    + simpl. symmetry. by apply list_alter_id.
  - inv_Ok H.
    apply at_index_Ok in Ha as [_ Hc], Ha0 as [_ Hp], Ha1 as [_ Hn], Ha2 as [_ Hk].
    apply set_index_Ok in H as [Hj ->].
    destruct (lookup_lt_is_Some_2 lightSwap (Z.to_nat j) ltac:(lia)) as [old Hold].
    eexists. split.
    + exists a, (v4div a4.1 (fmax M_EPSILON a4.2)).
      split; [done|]. split; [|done].
      intros _. exists a0, a1, a2, a3, a4. repeat split; done.
    + simpl. rewrite (list_alter_lookup_insert _ _ _ _ Hold).
      destruct (decide (a = 0)); done.
Qed.

(** The call as a sequence of texel visits on the scratch buffer,
    followed by the exchange of the two buffers. *)
Lemma FilterIndirectLight_steps (Rf : Z → (Vector4 F → Vector4 F) → Prop)
    bakedIndirect bakedIndirect' bakedGeometry params (numThreads : Z) :
  (∀ kernelWeights j lightSwap lightSwap',
     GetKernel (kernelRadius_ params) = Ok kernelWeights →
     FilterIndirectLight_texel (Indirect.light_ bakedIndirect) bakedGeometry params
       kernelWeights j lightSwap = Ok lightSwap' →
     ∃ f, Rf j f ∧ lightSwap' = alter f (Z.to_nat j) lightSwap) →
  FilterIndirectLight bakedIndirect bakedGeometry params numThreads = Ok bakedIndirect' →
  steps Rf
    (ParallelFor_indices (size_unsigned (Indirect.light_ bakedIndirect)) numThreads)
    (Indirect.lightSwap_ bakedIndirect) (Indirect.light_ bakedIndirect')
  ∧ Indirect.lightSwap_ bakedIndirect' = Indirect.light_ bakedIndirect.
Proof.
  intros Hbody H. unfold FilterIndirectLight in H. inv_Ok H.
  inversion H; subst; simpl. clear H. split; [|done].
  refine (ParallelFor_steps_chunks (λ l, l) Rf _ _ _ _ _ _ Ha0).
  intros fromIndex toIndex s s'. unfold for_range.
  apply (foldM_steps (λ l, l)). intros j s1 s2. by apply Hbody.
Qed.

(** Nothing is stored for a texel without geometry: after the exchange
    its entry is the one the scratch buffer held. *)
Lemma FilterIndirectLight_empty_texel bakedIndirect bakedIndirect' bakedGeometry
    params (numThreads : Z) (i : nat) :
  Geometry.geometryIds_ bakedGeometry !! i = Some 0 →
  FilterIndirectLight bakedIndirect bakedGeometry params numThreads = Ok bakedIndirect' →
  Indirect.light_ bakedIndirect' !! i = Indirect.lightSwap_ bakedIndirect !! i
  ∧ Indirect.lightSwap_ bakedIndirect' = Indirect.light_ bakedIndirect.
Proof.
  intros Hid H.
  apply (FilterIndirectLight_steps (filter_update bakedGeometry (λ _ _, True))) in H
    as [H Hswap].
  - split; [|done].
    refine (steps_frame _ _ _ _ i _ H).
    intros j f (gid & L & Hgid & _ & ->) <- x.
    rewrite Hid in Hgid. inversion Hgid; subst. done.
  - intros kernelWeights j lightSwap lightSwap' _ Ht.
    apply FilterIndirectLight_texel_spec in Ht as (f & (gid & v & ? & _ & ->) & ->).
    eexists. split; [|reflexivity]. exists gid, v. done.
Qed.

(** In the course of baking the two buffers agree on the texels without
    geometry. *)
Lemma baking_agree bakedGeometry bakedIndirect (i : nat) :
  baking bakedGeometry bakedIndirect →
  Geometry.geometryIds_ bakedGeometry !! i = Some 0 →
  Indirect.light_ bakedIndirect !! i = Indirect.lightSwap_ bakedIndirect !! i.
Proof.
  intros Hb Hid. induction Hb as [w h|? ? ? ? ? ? ? ? _ IH H|? ? ? ? _ IH H].
  - reflexivity.
  - apply (BakeIndirectLight_empty_texel _ _ _ _ _ _ _ _ _ i Hid) in H as [-> ->].
    exact IH.
  - apply (FilterIndirectLight_empty_texel _ _ _ _ _ i Hid) in H as [-> ->].
    symmetry. exact IH.
Qed.

Lemma kernel_offsets_0 : kernel_offsets 0 = [0].
Proof. reflexivity. Qed.

(** With radius 0 the only tap is the centre, which is skipped. *)
Lemma FilterIndirectLight_gather_radius_0 (buffer : list (Vector4 F)) bakedGeometry
    params (kernelWeights : list F) centerLocation centerLuminance
    centerPosition centerNormal (acc : Vector4 F * F) :
  kernelRadius_ params = 0 →
  FilterIndirectLight_gather buffer bakedGeometry params kernelWeights centerLocation
    centerLuminance centerPosition centerNormal acc = Ok acc.
Proof.
  intros Hr. unfold FilterIndirectLight_gather. rewrite Hr, kernel_offsets_0.
  reflexivity.
Qed.
End Filter.

Section FilterRadius0.
Context {F : Type} `{!FloatOps F} `{!Engine F} `{!LibM F}.

(** With radius 0 the value stored for a texel with geometry is
    [centerColor * (1 * 1) / max(M_EPSILON, 1 * 1)]. *)
Lemma FilterIndirectLight_texel_radius_0 (buffer : list (Vector4 F))
    (bakedGeometry : Geometry.LightmapChartBakedGeometry F)
    (params : IndirectFilterParameters F) (kernelWeights : list F)
    (j : Z) (lightSwap lightSwap' : list (Vector4 F)) :
  kernelRadius_ params = 0 →
  GetKernel (kernelRadius_ params) = Ok kernelWeights →
  FilterIndirectLight_texel buffer bakedGeometry params kernelWeights j lightSwap
    = Ok lightSwap' →
  ∃ f,
    filter_update bakedGeometry
      (λ j filtered,
         ∃ centerColor,
           buffer !! Z.to_nat j = Some centerColor
           ∧ filtered
             = v4div (v4scale centerColor (of_int 1 ⊗ of_int 1))
                 (fmax M_EPSILON (of_int 1 ⊗ of_int 1)))
      j f
    ∧ lightSwap' = alter f (Z.to_nat j) lightSwap.
Proof.
  intros Hr Hk H. rewrite Hr in Hk. simpl in Hk. inversion Hk; subst kernelWeights.
  apply FilterIndirectLight_texel_spec in H
    as (f & (gid & filtered & Hgid & HP & ->) & ->).
  eexists. split; [|reflexivity].
  exists gid, filtered. split; [done|]. split; [|done].
  intros Hne. destruct (HP Hne) as (c & p & n & kernel0 & acc & Hc & _ & _ & Hk0 & Hg & ->).
  simpl in Hk0. inversion Hk0; subst kernel0.
  rewrite FilterIndirectLight_gather_radius_0 in Hg by done.
  inversion Hg; subst acc. simpl. eauto.
Qed.

(** With radius 0 the call returns. *)
Lemma FilterIndirectLight_radius_0_total
    (bakedIndirect : Indirect.LightmapChartBakedIndirect F)
    (bakedGeometry : Geometry.LightmapChartBakedGeometry F)
    (params : IndirectFilterParameters F) (numThreads : Z) :
  kernelRadius_ params = 0 →
  numThreads ≠ 0 →
  (length (Indirect.light_ bakedIndirect)
   ≤ length (Indirect.lightSwap_ bakedIndirect))%nat →
  (length (Indirect.light_ bakedIndirect)
   ≤ length (Geometry.geometryPositions_ bakedGeometry))%nat →
  (length (Indirect.light_ bakedIndirect)
   ≤ length (Geometry.smoothNormals_ bakedGeometry))%nat →
  (length (Indirect.light_ bakedIndirect)
   ≤ length (Geometry.geometryIds_ bakedGeometry))%nat →
  ∃ bakedIndirect',
    FilterIndirectLight bakedIndirect bakedGeometry params numThreads = Ok bakedIndirect'.
Proof.
  intros Hr Hn Hs Hp Hnrm Hid. unfold FilterIndirectLight. rewrite Hr. simpl.
  pose proof (size_unsigned_le (Indirect.light_ bakedIndirect)) as Hsize.
  destruct (ParallelFor_total
              (λ l : list (Vector4 F), length l = length (Indirect.lightSwap_ bakedIndirect))
              (size_unsigned (Indirect.light_ bakedIndirect)) numThreads
              (FilterIndirectLight_texel (Indirect.light_ bakedIndirect) bakedGeometry
                 params k0)
              (Indirect.lightSwap_ bakedIndirect) Hn) as (buffer & -> & _);
    [|done|simpl; eauto].
  intros j s Hj Hlen. unfold FilterIndirectLight_texel.
  destruct (at_index_total (Geometry.geometryIds_ bakedGeometry) j ltac:(lia))
    as [gid ->].
  simpl. destruct (decide (gid = 0)) as [|Hgid]; [eauto|].
  destruct (at_index_total (Indirect.light_ bakedIndirect) j ltac:(lia)) as [c ->].
  destruct (at_index_total (Geometry.geometryPositions_ bakedGeometry) j ltac:(lia))
    as [p ->].
  destruct (at_index_total (Geometry.smoothNormals_ bakedGeometry) j ltac:(lia))
    as [nrm ->].
  simpl. rewrite FilterIndirectLight_gather_radius_0 by done. simpl.
  unfold set_index. destruct (decide _) as [_|Hbad]; [|lia].
  eexists. split; [reflexivity|]. by rewrite length_insert.
Qed.
End FilterRadius0.

(** ** Exact arithmetic *)

Section ExactArithmetic.
Local Open Scope R_scope.

Lemma Rltb_true (a b : R) : a < b → Exact.Rltb a b = true.
Proof. intros. unfold Exact.Rltb. destruct (Rlt_dec a b); [done | lra]. Qed.

Lemma Rltb_false (a b : R) : b <= a → Exact.Rltb a b = false.
Proof. intros. unfold Exact.Rltb. destruct (Rlt_dec a b); [lra | done]. Qed.

Lemma fmax_real_ge (a b : R) : a <= fmax a b ∧ b <= fmax a b.
Proof.
  unfold fmax. simpl. unfold Exact.Rltb. destruct (Rlt_dec a b); lra.
Qed.

Lemma fmax_real_r (a b : R) : a < b → fmax a b = b.
Proof. intros. unfold fmax. simpl. by rewrite Rltb_true. Qed.

End ExactArithmetic.

Section ExactSingleTap.
Local Open Scope R_scope.
Context {E : Engine R}.

(** Multiplying by [1 * 1] and dividing by [max(M_EPSILON, 1 * 1)] gives
    the colour back, whenever [M_EPSILON] is below 1. *)
Lemma single_tap_exact (centerColor : Vector4 R) :
  M_EPSILON < 1 →
  v4div (v4scale centerColor (of_int 1 ⊗ of_int 1))
    (fmax M_EPSILON (of_int 1 ⊗ of_int 1))
  = centerColor.
Proof.
  intros Heps.
  assert (Hmax : fmax M_EPSILON (of_int 1 ⊗ of_int 1) = 1).
  { rewrite fmax_real_r; simpl; lra. }
  rewrite Hmax. destruct centerColor as [x y z w].
  unfold v4div, v4scale. simpl. f_equal; field.
Qed.
End ExactSingleTap.

Section ExactPow.
Local Open Scope R_scope.

Lemma RealPow_nonneg (x y : R) : 0 <= Exact.RealPow x y.
Proof.
  unfold Exact.RealPow. destruct (Exact.Rltb 0 x).
  - unfold Rpower. left. apply exp_pos.
  - destruct (Req_dec_T y 0); lra.
Qed.
End ExactPow.

(** The filter over the real numbers, for any [std::exp] and [Pow] that
    return no negative number and any [M_EPSILON] below 9/64, the
    smallest squared centre weight of a kernel. *)
Section ExactFilter.
Local Open Scope R_scope.
Context {E : Engine R} {L : LibM R}.
Hypothesis exp_nonneg : ∀ x : R, 0 <= exp x.
Hypothesis Pow_nonneg : ∀ x y : R, 0 <= x → 0 <= Pow x y.
Hypothesis M_EPSILON_small : M_EPSILON < 9 / 64.

Lemma CalculateEdgeWeight_nonneg
    (luminance1 luminance2 luminanceSigma : R)
    (position1 position2 : Vector3 R) (positionSigma : R)
    (normal1 normal2 : Vector3 R) (normalPower : R) :
  0 <= CalculateEdgeWeight luminance1 luminance2 luminanceSigma
         position1 position2 positionSigma normal1 normal2 normalPower.
Proof.
  unfold CalculateEdgeWeight.
  apply Rmult_le_pos; [apply exp_nonneg|].
  apply Pow_nonneg.
  exact (proj1 (fmax_real_ge (of_int 0) (DotProduct normal1 normal2))).
Qed.

(** The kernels: weights that are not negative, and a centre weight
    whose square is above [M_EPSILON]. *)
Lemma GetKernel_weights (radius : Z) (kernelWeights : list R) :
  GetKernel radius = Ok kernelWeights →
  Forall (λ k, 0 <= k) kernelWeights
  ∧ ∃ kernel0, kernelWeights !! 0%nat = Some kernel0
               ∧ M_EPSILON < kernel0 * kernel0.
Proof.
  intros H. apply GetKernel_Ok in H as [[_ ->]|[[_ ->]|[_ ->]]].
  - split; [repeat constructor; simpl; lra|].
    eexists. split; [reflexivity|]. simpl. lra.
  - split; [repeat constructor; simpl; lra|].
    eexists. split; [reflexivity|]. simpl. lra.
  - split; [repeat constructor; simpl; lra|].
    eexists. split; [reflexivity|]. simpl. lra.
Qed.

(** A tap never lowers the weight sum. *)
Lemma FilterIndirectLight_tap_weight (buffer : list (Vector4 R))
    (bakedGeometry : Geometry.LightmapChartBakedGeometry R)
    (params : IndirectFilterParameters R) (kernelWeights : list R)
    centerLocation centerLuminance centerPosition centerNormal
    (dy dx : Z) (acc acc' : Vector4 R * R) :
  Forall (λ k, 0 <= k) kernelWeights →
  FilterIndirectLight_tap buffer bakedGeometry params kernelWeights centerLocation
    centerLuminance centerPosition centerNormal dy dx acc = Ok acc' →
  acc.2 <= acc'.2.
Proof.
  intros Hk H. unfold FilterIndirectLight_tap in H.
  destruct (_ && _); [inversion H; subst; lra|].
  destruct (negb _); [inversion H; subst; lra|].
  inv_Ok H. destruct (decide (a1 = 0%Z)); [inversion H; subst; lra|].
  inv_Ok H. inversion H; subst; simpl. clear H.
  apply at_index_Ok in Ha as [_ Hx], Ha0 as [_ Hy].
  pose proof (Forall_lookup_1 _ _ _ _ Hk Hx) as Hx0.
  pose proof (Forall_lookup_1 _ _ _ _ Hk Hy) as Hy0. simpl in Hx0, Hy0.
  match goal with
  | |- _ <= _ + ?w * _ => assert (Hw : 0 <= w) by apply CalculateEdgeWeight_nonneg
  end.
  assert (0 <= a * a0) by (apply Rmult_le_pos; lra).
  match goal with
  | |- _ <= _ + ?w * ?k => assert (0 <= w * k) by (apply Rmult_le_pos; lra)
  end.
  lra.
Qed.

Lemma FilterIndirectLight_gather_weight (buffer : list (Vector4 R))
    (bakedGeometry : Geometry.LightmapChartBakedGeometry R)
    (params : IndirectFilterParameters R) (kernelWeights : list R)
    centerLocation centerLuminance centerPosition centerNormal
    (acc acc' : Vector4 R * R) :
  Forall (λ k, 0 <= k) kernelWeights →
  FilterIndirectLight_gather buffer bakedGeometry params kernelWeights centerLocation
    centerLuminance centerPosition centerNormal acc = Ok acc' →
  acc.2 <= acc'.2.
Proof.
  intros Hk H. unfold FilterIndirectLight_gather in H.
  refine (foldM_inv (λ a : Vector4 R * R, acc.2 <= a.2) _ _ _ _ _ H (Rle_refl _)).
  intros dy s s' Hrow Hs.
  refine (foldM_inv (λ a : Vector4 R * R, acc.2 <= a.2) _ _ _ _ _ Hrow Hs).
  intros dx t t' Htap Ht.
  apply (FilterIndirectLight_tap_weight _ _ _ _ _ _ _ _ _ _ _ _ Hk) in Htap. lra.
Qed.
End ExactFilter.

(** ** Binary32 arithmetic

    Multiplying a [float] by 1 and dividing it by 1 are exact. *)

Section Binary32.
Import Float32.

Lemma bounded_spec (m : positive) (e : Z) :
  bounded prec emax m e = true →
  Z.max (Z.pos (digits2_pos m) + e - 24) (-149) = e ∧ e ≤ 104.
Proof.
  unfold bounded, canonical_mantissa, fexp, emin, prec, emax.
  intros H. apply andb_prop in H as [H1 H2].
  apply Z.eqb_eq in H1. apply Z.leb_le in H2. lia.
Qed.

(** Rounding a mantissa that is already canonical changes nothing. *)
Lemma binary_round_aux_canonical (s : bool) (m : positive) (e : Z) :
  bounded prec emax m e = true →
  binary_round_aux prec emax s (Z.pos m) e loc_Exact = S754_finite s m e.
Proof.
  intros H. destruct (bounded_spec m e H) as [Hc He].
  unfold binary_round_aux, shr_fexp, fexp, emin, prec, emax. simpl Zdigits2.
  match goal with |- context [shr _ _ ?n] => replace n with 0 by lia end.
  simpl.
  match goal with |- context [shr _ _ ?n] => replace n with 0 by lia end.
  simpl. destruct (Z.leb_spec e (128 - 24)); [done | lia].
Qed.

Lemma binary_round_aux_shift23 (s : bool) (m : positive) (e : Z) :
  bounded prec emax m e = true →
  binary_round_aux prec emax s (Z.pos (m * 8388608)) (e + -23) loc_Exact
  = S754_finite s m e.
Proof.
  intros H. destruct (bounded_spec m e H) as [Hc He].
  rewrite <- (binary_round_aux_canonical s m e H).
  rewrite Pos.mul_comm.
  let t := eval cbv in (8388608 * m)%positive in
  change (8388608 * m)%positive with t.
  unfold binary_round_aux. unfold shr_fexp at 1. unfold fexp at 1. unfold emin, prec, emax.
  cbn [Zdigits2 digits2_pos].
  match goal with
  | |- context [shr _ _ ?n] =>
    replace n with 23 by (rewrite !Pos2Z.inj_succ; lia)
  end.
  cbn [shr shr_record_of_loc].
  match goal with
  | |- context [SpecFloat.iter_pos shr_1 ?n ?r] =>
    let t := eval cbv in (SpecFloat.iter_pos shr_1 n r) in
    change (SpecFloat.iter_pos shr_1 n r) with t
  end.
  replace (e + -23 + 23) with e by lia.
  unfold shr_fexp at 2. unfold fexp, emin. cbn [Zdigits2].
  match goal with
  | |- _ = (let '(_, _) := shr _ _ ?n in _) => replace n with 0 by lia
  end.
  reflexivity.
Qed.

Lemma binary_round_aux_shift1 (s : bool) (m : positive) (e : Z) :
  bounded prec emax m e = true →
  binary_round_aux prec emax s (Z.pos m~0) (e - 1) loc_Exact = S754_finite s m e.
Proof.
  intros H. destruct (bounded_spec m e H) as [Hc He].
  rewrite <- (binary_round_aux_canonical s m e H).
  unfold binary_round_aux. unfold shr_fexp at 1. unfold fexp at 1. unfold emin, prec, emax.
  cbn [Zdigits2 digits2_pos].
  match goal with
  | |- context [shr _ _ ?n] =>
    replace n with 1 by (rewrite !Pos2Z.inj_succ; lia)
  end.
  cbn [shr shr_record_of_loc].
  match goal with
  | |- context [SpecFloat.iter_pos shr_1 ?n ?r] =>
    let t := eval cbv in (SpecFloat.iter_pos shr_1 n r) in
    change (SpecFloat.iter_pos shr_1 n r) with t
  end.
  replace (e - 1 + 1) with e by lia.
  unfold shr_fexp at 2. unfold fexp, emin. cbn [Zdigits2].
  match goal with
  | |- _ = (let '(_, _) := shr _ _ ?n in _) => replace n with 0 by lia
  end.
  reflexivity.
Qed.

Lemma div_eucl_exact (q b : Z) : 0 < b → Z.div_eucl (q * b) b = (q, 0).
Proof.
  intros Hb.
  assert (H : Z.div_eucl (q * b) b = ((q * b) `div` b, (q * b) `mod` b)).
  { unfold Z.div, Z.modulo. by destruct (Z.div_eucl (q * b) b). }
  rewrite H, Z.div_mul, Z.mod_mul by lia. reflexivity.
Qed.

(** The quotient of a canonical mantissa by the mantissa of 1. *)
Lemma SFdiv_core_binary_one (m : positive) (e : Z) :
  bounded prec emax m e = true →
  SFdiv_core_binary prec emax (Z.pos m) e 8388608 (-23) = (Z.pos m~0, e - 1, loc_Exact)
  ∨ SFdiv_core_binary prec emax (Z.pos m) e 8388608 (-23) = (Z.pos m, e, loc_Exact).
Proof.
  intros H. destruct (bounded_spec m e H) as [Hc He].
  unfold SFdiv_core_binary, fexp, emin, prec, emax. cbn [Zdigits2 digits2_pos].
  change (Z.pos (Pos.succ _)) with 24.
  destruct (Z.le_gt_cases (-149) (Z.pos (digits2_pos m) + e - 25)) as [Hn|Hs].
  - left.
    replace (Z.min (Z.max (Z.pos (digits2_pos m) + e - (24 + -23) - 24) (3 - 128 - 24))
               (e - -23)) with (e - 1) by lia.
    replace (e - -23 - (e - 1)) with 24 by lia.
    rewrite Z.shiftl_mul_pow2 by lia. change (2 ^ 24) with (2 * 8388608).
    replace (Z.pos m * (2 * 8388608)) with (Z.pos m~0 * 8388608) by lia.
    rewrite div_eucl_exact by lia. reflexivity.
  - right.
    replace (Z.min (Z.max (Z.pos (digits2_pos m) + e - (24 + -23) - 24) (3 - 128 - 24))
               (e - -23)) with e by lia.
    replace (e - -23 - e) with 23 by lia.
    rewrite Z.shiftl_mul_pow2 by lia. change (2 ^ 23) with 8388608.
    rewrite div_eucl_exact by lia. reflexivity.
Qed.

Lemma of_int_1 : of_int 1 = one.
Proof. reflexivity. Qed.

Lemma SFmul_one (x : float32) :
  valid x → x ⊗ of_int 1 = x.
Proof.
  intros Hx. rewrite of_int_1. destruct x as [s|s| |s m e]; simpl.
  - by destruct s.
  - by destruct s.
  - done.
  - rewrite xorb_false_r. by apply binary_round_aux_shift23.
Qed.

Lemma SFdiv_one (x : float32) :
  valid x → x ⊘ of_int 1 = x.
Proof.
  intros Hx. rewrite of_int_1. destruct x as [s|s| |s m e]; simpl.
  - by destruct s.
  - by destruct s.
  - done.
  - rewrite xorb_false_r.
    destruct (SFdiv_core_binary_one m e Hx) as [-> | ->].
    + by apply binary_round_aux_shift1.
    + by apply binary_round_aux_canonical.
Qed.

End Binary32.

Section Binary32SingleTap.
Import Float32.
Context {E : Engine float32}.

(** Multiplying by [1 * 1] and dividing by [max(M_EPSILON, 1 * 1)] gives
    the colour back, whenever [M_EPSILON] is below 1. *)
Lemma single_tap_binary32 (centerColor : Vector4 float32) :
  fltb M_EPSILON (of_int 1) = true →
  valid (x4_ centerColor) → valid (y4_ centerColor) →
  valid (z4_ centerColor) → valid (w4_ centerColor) →
  v4div (v4scale centerColor (of_int 1 ⊗ of_int 1))
    (fmax M_EPSILON (of_int 1 ⊗ of_int 1))
  = centerColor.
Proof.
  intros Heps Hx Hy Hz Hw.
  change (of_int 1 ⊗ of_int 1) with (of_int (F:=float32) 1).
  unfold fmax. rewrite Heps.
  destruct centerColor as [x y z w]. unfold v4div, v4scale.
  cbn [x4_ y4_ z4_ w4_] in *.
  by rewrite !SFmul_one, !SFdiv_one.
Qed.
End Binary32SingleTap.

(** Evaluating the filter in binary32 when [std::exp] is only known to
    return NaN on NaN: the arguments of [exp] are computed first. *)
Ltac eval_exp_arguments :=
  repeat match goal with
  | |- context [exp ?x] =>
    lazymatch x with
    | S754_nan => fail
    | _ => let y := eval vm_compute in x in change x with y
    end
  end.

(** ** The ranges handed out by ParallelFor *)

Lemma fromIndex_toIndex_range (count numThreads i : Z) :
  0 ≤ fromIndex count numThreads i < 2 ^ 32
  ∧ toIndex count numThreads i ≤ count.
Proof.
  split.
  - apply wrap32_range.
  - unfold toIndex. rewrite ea_min_Zmin. lia.
Qed.

Lemma ParallelFor_chunks_length (count numThreads : Z) :
  length (ParallelFor_chunks count numThreads) = Z.to_nat numThreads.
Proof. unfold ParallelFor_chunks. by rewrite length_fmap, length_seqZ. Qed.

Lemma ParallelFor_chunks_range (count numThreads : Z) (c : Z * Z) :
  c ∈ ParallelFor_chunks count numThreads → 0 ≤ c.1 ∧ c.2 ≤ count.
Proof.
  intros [i [-> _]]%list_elem_of_fmap. simpl.
  pose proof (fromIndex_toIndex_range count numThreads i). lia.
Qed.

Lemma ParallelFor_indices_range (count numThreads k : Z) :
  k ∈ ParallelFor_indices count numThreads → 0 ≤ k < count.
Proof.
  intros (l & Hk & [c [-> Hin]]%list_elem_of_fmap)%list_elem_of_join.
  apply ParallelFor_chunks_range in Hin. unfold loop_indices in Hk.
  apply elem_of_seqZ in Hk. lia.
Qed.

Lemma ParallelFor_calls {S} (count numThreads : Z)
    (callback : Z → Z → S → Outcome S) (s : S) :
  numThreads ≠ 0 →
  ParallelFor count numThreads callback s
  = foldM (λ c : Z * Z, callback c.1 c.2) (ParallelFor_chunks count numThreads) s.
Proof.
  intros Hn. unfold ParallelFor, ParallelFor_chunks.
  destruct (decide (numThreads = 0)) as [|_]; [done|].
  by rewrite foldM_fmap.
Qed.

(** ** The calls as one loop over the texels *)

Section OneLoop.
Context {F : Type} `{!FloatOps F} `{!Engine F} `{!LibM F}.

Lemma BakeDirectionalLight_one_loop
    (bakedDirect : Direct.LightmapChartBakedDirect F)
    (bakedGeometry : Geometry.LightmapChartBakedGeometry F)
    (embreeScene : EmbreeScene F) (light : DirectionalLightParameters F)
    (settings : LightmapTracingSettings F) :
  1 ≤ numThreads_ settings →
  Z.of_nat (length (Direct.light_ bakedDirect)) + numThreads_ settings ≤ 2 ^ 32 →
  BakeDirectionalLight bakedDirect bakedGeometry embreeScene light settings
  = light' ← for_range 0 (Z.of_nat (length (Direct.light_ bakedDirect)))
               (BakeDirectionalLight_texel bakedGeometry (GetEmbreeScene embreeScene)
                  (light_rayDirection light) (GetMaxDistance embreeScene)
                  (ToVector3 (color_ light)))
               (Direct.light_ bakedDirect);
    Ok (Direct.mk (Direct.width_ bakedDirect) (Direct.height_ bakedDirect) light').
Proof.
  intros Hn Hfit. unfold BakeDirectionalLight. cbv zeta.
  rewrite size_unsigned_small by lia.
  rewrite ParallelFor_for_range by lia. reflexivity.
Qed.

Lemma FilterIndirectLight_one_loop
    (bakedIndirect : Indirect.LightmapChartBakedIndirect F)
    (bakedGeometry : Geometry.LightmapChartBakedGeometry F)
    (params : IndirectFilterParameters F) (numThreads : Z) :
  1 ≤ numThreads →
  Z.of_nat (length (Indirect.light_ bakedIndirect)) + numThreads ≤ 2 ^ 32 →
  FilterIndirectLight bakedIndirect bakedGeometry params numThreads
  = kernelWeights ← GetKernel (kernelRadius_ params);
    lightSwap ← for_range 0 (Z.of_nat (length (Indirect.light_ bakedIndirect)))
                  (FilterIndirectLight_texel (Indirect.light_ bakedIndirect)
                     bakedGeometry params kernelWeights)
                  (Indirect.lightSwap_ bakedIndirect);
    Ok (Indirect.mk (Indirect.width_ bakedIndirect) (Indirect.height_ bakedIndirect)
          lightSwap (Indirect.light_ bakedIndirect)).
Proof.
  intros Hn Hfit. unfold FilterIndirectLight.
  apply bind_ext. intros kernelWeights.
  rewrite size_unsigned_small by lia.
  rewrite ParallelFor_for_range by lia. reflexivity.
Qed.
End OneLoop.

(** ** The entries after a call *)

Section Lookups.
Context {F : Type} `{!FloatOps F} `{!Engine F}.

(** A call of [BakeDirectionalLight] that returns has found the geometry
    of every texel of the buffer. *)
Lemma BakeDirectionalLight_visited bakedDirect bakedDirect' bakedGeometry embreeScene
    light settings (i : nat) (old : Vector3 F) :
  1 ≤ numThreads_ settings →
  Z.of_nat (length (Direct.light_ bakedDirect)) + numThreads_ settings ≤ 2 ^ 32 →
  BakeDirectionalLight bakedDirect bakedGeometry embreeScene light settings
    = Ok bakedDirect' →
  Direct.light_ bakedDirect !! i = Some old →
  ∃ position smoothNormal geometryId,
    Geometry.geometryPositions_ bakedGeometry !! i = Some position
    ∧ Geometry.smoothNormals_ bakedGeometry !! i = Some smoothNormal
    ∧ Geometry.geometryIds_ bakedGeometry !! i = Some geometryId
    ∧ Direct.light_ bakedDirect' !! i
      = Some (if decide (geometryId = 0) then old
              else v3add old (light_contribution embreeScene light position smoothNormal)).
Proof.
  intros Hn Hfit Hcall Hold.
  pose proof (BakeDirectionalLight_steps _ _ _ _ _ _ Hn Hfit Hcall) as Hsteps.
  pose proof (lookup_lt_Some _ _ _ Hold) as Hlt.
  destruct (steps_seqZ_lookup _ _ 0 _ _ (Z.le_refl 0) Hsteps i old Hold) as [Hin _].
  destruct Hin
    as (f & (position & smoothNormal & geometryId & Hp & Hnrm & Hid & ->) & Hnew);
    [lia|].
  rewrite Nat2Z.id in Hp, Hnrm, Hid. eauto 10.
Qed.

Lemma BakeDirectionalLight_dimensions bakedDirect bakedDirect' bakedGeometry embreeScene
    light settings :
  BakeDirectionalLight bakedDirect bakedGeometry embreeScene light settings
    = Ok bakedDirect' →
  Direct.width_ bakedDirect' = Direct.width_ bakedDirect
  ∧ Direct.height_ bakedDirect' = Direct.height_ bakedDirect
  ∧ length (Direct.light_ bakedDirect') = length (Direct.light_ bakedDirect).
Proof.
  intros Hcall.
  pose proof (BakeDirectionalLight_steps_chunks _ _ _ _ _ _ Hcall) as Hsteps.
  apply steps_length in Hsteps.
  unfold BakeDirectionalLight in Hcall. cbv zeta in Hcall.
  apply bind_Ok in Hcall as (light' & _ & Hcall). inversion Hcall; subst. auto.
Qed.

(** What a call of [BakeIndirectLight] leaves in the entry of a texel. *)
Lemma BakeIndirectLight_lookup fuel bakedIndirect bakedIndirect' bakedDirect
    bakedGeometry embreeScene settings (rng rng' : Rng)
    (i : nat) (old : Vector4 F) (geometryId : Z) :
  1 ≤ numThreads_ settings →
  Z.of_nat (length (Indirect.light_ bakedIndirect)) + numThreads_ settings ≤ 2 ^ 32 →
  BakeIndirectLight fuel bakedIndirect bakedDirect bakedGeometry embreeScene settings rng
    = Ok (bakedIndirect', rng') →
  Indirect.light_ bakedIndirect !! i = Some old →
  Geometry.geometryIds_ bakedGeometry !! i = Some geometryId →
  ∃ indirectLighting,
    Indirect.light_ bakedIndirect' !! i
    = Some (if decide (geometryId = 0) then old
            else v4add old (Vector4_of indirectLighting (of_int 1))).
Proof.
  intros Hn Hfit Hcall Hold Hid.
  destruct (BakeIndirectLight_at fuel bakedIndirect bakedIndirect' bakedDirect
              bakedGeometry embreeScene settings rng rng' Hn Hfit Hcall i)
    as (ts & ts' & _ & Htexel & Hbefore & Hafter).
  { by eapply lookup_lt_Some. }
  apply BakeIndirectLight_texel_spec in Htexel
    as (f & (gid & L & Hgid & _ & ->) & Hlight).
  rewrite Nat2Z.id in Hgid, Hlight. rewrite Hid in Hgid. inversion Hgid; subst gid.
  exists L. rewrite Hafter, Hlight, list_lookup_alter_eq, Hbefore, Hold. reflexivity.
Qed.

Lemma BakeIndirectLight_dimensions fuel bakedIndirect bakedIndirect' bakedDirect
    bakedGeometry embreeScene settings (rng rng' : Rng) :
  BakeIndirectLight fuel bakedIndirect bakedDirect bakedGeometry embreeScene settings rng
    = Ok (bakedIndirect', rng') →
  Indirect.width_ bakedIndirect' = Indirect.width_ bakedIndirect
  ∧ Indirect.height_ bakedIndirect' = Indirect.height_ bakedIndirect
  ∧ length (Indirect.light_ bakedIndirect') = length (Indirect.light_ bakedIndirect)
  ∧ Indirect.lightSwap_ bakedIndirect' = Indirect.lightSwap_ bakedIndirect.
Proof.
  intros Hcall.
  destruct (BakeIndirectLight_steps (indirect_update bakedGeometry (λ _, True))
              fuel bakedIndirect bakedIndirect' bakedDirect bakedGeometry embreeScene
              settings rng rng') as [Hsteps Hswap]; [|exact Hcall|].
  { intros j ts ts'. apply BakeIndirectLight_texel_spec. }
  apply steps_length in Hsteps.
  unfold BakeIndirectLight in Hcall.
  apply bind_Ok in Hcall as (_ & _ & Hcall).
  apply bind_Ok in Hcall as ([light r] & _ & Hcall).
  inversion Hcall; subst. simpl in *. auto.
Qed.
End Lookups.

(** ** The two arrays of a task *)

Section BounceSlots.
Context {F : Type} `{!FloatOps F} `{!Engine F}.
Variable fuel : nat.
Variable bakedDirect : list (Direct.LightmapChartBakedDirect F).
Variable embreeScene : EmbreeScene F.
Variable settings : LightmapTracingSettings F.

(** A bounce keeps the number of slots and counts one sample at most. *)
Lemma BakeIndirectLight_bounce_lengths (j : Z) (st st' : PathState F Rng) :
  BakeIndirectLight_bounce fuel bakedDirect embreeScene settings j st = Ok st' →
  length (incomingSamples (arrays st')) = length (incomingSamples (arrays st))
  ∧ length (incomingFactors (arrays st')) = length (incomingFactors (arrays st))
  ∧ numSamples st ≤ numSamples st' ≤ numSamples st + 1.
Proof.
  intros H. apply BakeIndirectLight_bounce_spec in H as (d & r & _ & _ & H).
  destruct (cast_ray _ _) as [[t hit]|].
  - destruct H as (geometry & chart & _ & _ & _ & _ & -> & -> & ->).
    rewrite !length_insert. lia.
  - destruct H as (-> & -> & _). lia.
Qed.

Lemma BakeIndirectLight_path_lengths (js : list Z) (st st' : PathState F Rng) :
  foldM (BakeIndirectLight_bounce fuel bakedDirect embreeScene settings) js st = Ok st' →
  length (incomingSamples (arrays st')) = length (incomingSamples (arrays st))
  ∧ length (incomingFactors (arrays st')) = length (incomingFactors (arrays st))
  ∧ numSamples st ≤ numSamples st' ≤ numSamples st + Z.of_nat (length js).
Proof.
  revert st. induction js as [|j js IH]; intros st H; simpl in H.
  - inversion H; subst. simpl. lia.
  - apply bind_Ok in H as (st1 & H1 & H).
    apply BakeIndirectLight_bounce_lengths in H1 as (E1 & E2 & ?).
    apply IH in H as (E3 & E4 & ?). rewrite E3, E4, E1, E2. simpl length. lia.
Qed.

(** A bounce that hits, finds the geometry that was hit and finds chart 0
    returns when [j] is a slot of both arrays and is undefined
    otherwise. *)
Lemma BakeIndirectLight_bounce_hit (j : Z) (st : PathState F Rng)
    (rayDirection : Vector3 F) (rng : Rng) (hit_tfar : F) (hit : RTCHit F)
    (geometry : RTCGeometry) (chart : Direct.LightmapChartBakedDirect F) :
  RandomHemisphereDirection fuel (currentNormal st) (path_rng st)
    = Ok (rayDirection, rng) →
  cast_ray (GetEmbreeScene embreeScene)
    (bounce_ray settings (GetMaxDistance embreeScene)
       (currentPosition st) (currentNormal st) rayDirection) = Some (hit_tfar, hit) →
  at_index (GetEmbreeGeometryIndex embreeScene) (geomID hit) = Ok geometry →
  at_index bakedDirect 0 = Ok chart →
  (0 ≤ j < Z.of_nat (length (incomingSamples (arrays st)))
   ∧ 0 ≤ j < Z.of_nat (length (incomingFactors (arrays st))) →
   ∃ st', BakeIndirectLight_bounce fuel bakedDirect embreeScene settings j st = Ok st')
  ∧ (¬ (0 ≤ j < Z.of_nat (length (incomingSamples (arrays st)))
        ∧ 0 ≤ j < Z.of_nat (length (incomingFactors (arrays st)))) →
     BakeIndirectLight_bounce fuel bakedDirect embreeScene settings j st = Undefined).
Proof.
  intros Hd Hhit Hgeo Hchart. unfold BakeIndirectLight_bounce.
  rewrite Hd. cbn [mbind Outcome_bind]. rewrite Hhit, Hgeo.
  cbn [mbind Outcome_bind]. rewrite Hchart. cbn [mbind Outcome_bind].
  unfold set_index. split.
  - intros [H1 H2].
    destruct (decide (0 ≤ j < Z.of_nat (length (incomingSamples (arrays st)))));
      [|lia].
    cbn [mbind Outcome_bind].
    destruct (decide (0 ≤ j < Z.of_nat (length (incomingFactors (arrays st)))));
      [|lia].
    cbn [mbind Outcome_bind].
    destruct (_ <? _); eauto.
  - intros Hout.
    destruct (decide (0 ≤ j < Z.of_nat (length (incomingSamples (arrays st)))));
      [|reflexivity].
    cbn [mbind Outcome_bind].
    destruct (decide (0 ≤ j < Z.of_nat (length (incomingFactors (arrays st)))));
      [tauto|reflexivity].
Qed.
End BounceSlots.

(** ** Random directions *)

Section Directions.
Context {F : Type} `{!FloatOps F} `{!Engine F}.

Lemma RandomDirection_Ok (fuel : nat) (rng rng' : Rng) (d : Vector3 F) :
  RandomDirection fuel rng = Ok (d, rng') →
  ∃ result, fltb (of_int 1) (Length result) = false
            ∧ d = v3div result (Length result).
Proof.
  revert rng. induction fuel as [|fuel IH]; intros rng H; simpl in H; [done|].
  destruct (Random _ _ rng) as [x r1]. destruct (Random _ _ r1) as [y r2].
  destruct (Random _ _ r2) as [z r3].
  destruct (fltb _ _) eqn:Hlen.
  - by apply IH in H.
  - inversion H; subst. eauto.
Qed.

(** A generator that keeps returning a number [x] with
    [(x, x, x).Length() > 1] keeps the loop going. *)
Lemma RandomDirection_stuck (fuel : nat) (rng : Rng) (x : F) :
  Random (of_int (-1)) (of_int 1) rng = (x, rng) →
  fltb (of_int 1) (Length (mkVector3 x x x)) = true →
  RandomDirection fuel rng = OutOfFuel.
Proof.
  intros Hdraw Hlen. induction fuel as [|fuel IH]; simpl; [done|].
  by rewrite !Hdraw, Hlen.
Qed.

Lemma RandomHemisphereDirection_Ok (fuel : nat) (normal : Vector3 F)
    (rng rng' : Rng) (d : Vector3 F) :
  RandomHemisphereDirection fuel normal rng = Ok (d, rng') →
  ∃ result,
    RandomDirection fuel rng = Ok (result, rng')
    ∧ d = if fltb (DotProduct result normal) (of_int 0) then v3neg result else result.
Proof.
  unfold RandomHemisphereDirection. intros H.
  apply bind_Ok in H as ([result r] & Hd & H). inversion H; subst. eauto.
Qed.
End Directions.

(** ** The kernels *)

Section Kernels.
Context {F : Type} `{!FloatOps F}.

Lemma GetKernel_length (radius : Z) (kernelWeights : list F) :
  GetKernel radius = Ok kernelWeights →
  0 ≤ radius ≤ 2 ∧ Z.of_nat (length kernelWeights) = radius + 1.
Proof.
  intros H. apply GetKernel_Ok in H as [[-> ->]|[[-> ->]|[-> ->]]]; simpl; lia.
Qed.

Lemma kernel_offsets_range (kernelRadius : Z) :
  Forall (λ d, - kernelRadius ≤ d ≤ kernelRadius) (kernel_offsets kernelRadius).
Proof.
  unfold kernel_offsets, loop_indices. apply Forall_seqZ. intros d Hd. lia.
Qed.

(** The reads of [kernelWeights[Abs(d)]] stay inside the kernel. *)
Lemma GetKernel_read (radius : Z) (kernelWeights : list F) (d : Z) :
  GetKernel radius = Ok kernelWeights →
  - radius ≤ d ≤ radius →
  ∃ k, at_index kernelWeights (Z.abs d) = Ok k.
Proof.
  intros [_ Hlen]%GetKernel_length Hd. apply at_index_total. lia.
Qed.
End Kernels.

(** ** The filter returns *)

Section FilterReturns.
Context {F : Type} `{!FloatOps F} `{!Engine F} `{!LibM F}.
Variable bakedIndirect : Indirect.LightmapChartBakedIndirect F.
Variable bakedGeometry : Geometry.LightmapChartBakedGeometry F.
Variable params : IndirectFilterParameters F.
Variable kernelWeights : list F.
Hypothesis Hkernel : GetKernel (kernelRadius_ params) = Ok kernelWeights.
Hypothesis Hpositions :
  (length (Indirect.light_ bakedIndirect)
   ≤ length (Geometry.geometryPositions_ bakedGeometry))%nat.
Hypothesis Hnormals :
  (length (Indirect.light_ bakedIndirect)
   ≤ length (Geometry.smoothNormals_ bakedGeometry))%nat.
Hypothesis Hids :
  (length (Indirect.light_ bakedIndirect)
   ≤ length (Geometry.geometryIds_ bakedGeometry))%nat.
Hypothesis Hvalid :
  ∀ location, IsValidLocation bakedGeometry location = true →
    0 ≤ LocationToIndex bakedGeometry location
      < Z.of_nat (length (Indirect.light_ bakedIndirect)).

Lemma FilterIndirectLight_tap_total centerLocation centerLuminance centerPosition
    centerNormal (dy dx : Z) (acc : Vector4 F * F) :
  - kernelRadius_ params ≤ dy ≤ kernelRadius_ params →
  - kernelRadius_ params ≤ dx ≤ kernelRadius_ params →
  ∃ acc',
    FilterIndirectLight_tap (Indirect.light_ bakedIndirect) bakedGeometry params
      kernelWeights centerLocation centerLuminance centerPosition centerNormal
      dy dx acc = Ok acc'.
Proof.
  intros Hdy Hdx. unfold FilterIndirectLight_tap.
  destruct (_ && _); [eauto|].
  destruct (IsValidLocation _ _) eqn:Hloc; [|simpl; eauto]. apply Hvalid in Hloc.
  cbn [negb].
  destruct (GetKernel_read _ _ dx Hkernel Hdx) as [kernelX ->].
  destruct (GetKernel_read _ _ dy Hkernel Hdy) as [kernelY ->].
  cbn [mbind Outcome_bind].
  set (otherIndex := LocationToIndex _ _) in *.
  destruct (at_index_total (Geometry.geometryIds_ bakedGeometry) otherIndex ltac:(lia))
    as [gid ->].
  cbn [mbind Outcome_bind]. destruct (decide (gid = 0)); [eauto|].
  destruct (at_index_total (Indirect.light_ bakedIndirect) otherIndex ltac:(lia))
    as [c ->].
  destruct (at_index_total (Geometry.geometryPositions_ bakedGeometry) otherIndex
              ltac:(lia)) as [p ->].
  destruct (at_index_total (Geometry.smoothNormals_ bakedGeometry) otherIndex
              ltac:(lia)) as [nrm ->].
  cbn [mbind Outcome_bind]. eauto.
Qed.

Lemma FilterIndirectLight_gather_total centerLocation centerLuminance centerPosition
    centerNormal (acc : Vector4 F * F) :
  ∃ acc',
    FilterIndirectLight_gather (Indirect.light_ bakedIndirect) bakedGeometry params
      kernelWeights centerLocation centerLuminance centerPosition centerNormal acc
    = Ok acc'.
Proof.
  unfold FilterIndirectLight_gather.
  destruct (foldM_total (λ _ : Vector4 F * F, True)
              (λ d, - kernelRadius_ params ≤ d ≤ kernelRadius_ params)
              (λ dy, foldM
                 (FilterIndirectLight_tap (Indirect.light_ bakedIndirect) bakedGeometry
                    params kernelWeights centerLocation centerLuminance centerPosition
                    centerNormal dy)
                 (kernel_offsets (kernelRadius_ params)))
              (kernel_offsets (kernelRadius_ params)) acc
              (kernel_offsets_range _)) as (acc' & Hacc & _); [|done|eauto].
  intros dy s Hdy _.
  destruct (foldM_total (λ _ : Vector4 F * F, True)
              (λ d, - kernelRadius_ params ≤ d ≤ kernelRadius_ params)
              (FilterIndirectLight_tap (Indirect.light_ bakedIndirect) bakedGeometry
                 params kernelWeights centerLocation centerLuminance centerPosition
                 centerNormal dy)
              (kernel_offsets (kernelRadius_ params)) s
              (kernel_offsets_range _)) as (s' & Hs & _); [|done|eauto].
  intros dx t Hdx _.
  destruct (FilterIndirectLight_tap_total centerLocation centerLuminance centerPosition
              centerNormal dy dx t Hdy Hdx) as [t' Ht]. eauto.
Qed.

Lemma FilterIndirectLight_texel_total (j : Z) (lightSwap : list (Vector4 F)) :
  0 ≤ j < Z.of_nat (length (Indirect.light_ bakedIndirect)) →
  (length (Indirect.light_ bakedIndirect) ≤ length lightSwap)%nat →
  ∃ lightSwap',
    FilterIndirectLight_texel (Indirect.light_ bakedIndirect) bakedGeometry params
      kernelWeights j lightSwap = Ok lightSwap'
    ∧ length lightSwap' = length lightSwap.
Proof.
  intros Hj Hlen. unfold FilterIndirectLight_texel.
  destruct (at_index_total (Geometry.geometryIds_ bakedGeometry) j ltac:(lia))
    as [gid ->].
  cbn [mbind Outcome_bind]. destruct (decide (gid = 0)) as [|Hgid]; [eauto|].
  destruct (at_index_total (Indirect.light_ bakedIndirect) j ltac:(lia)) as [c ->].
  destruct (at_index_total (Geometry.geometryPositions_ bakedGeometry) j ltac:(lia))
    as [p ->].
  destruct (at_index_total (Geometry.smoothNormals_ bakedGeometry) j ltac:(lia))
    as [nrm ->].
  destruct (GetKernel_read _ _ 0 Hkernel) as [kernel0 Hk0].
  { apply GetKernel_length in Hkernel. lia. }
  change (Z.abs 0) with 0 in Hk0. rewrite Hk0.
  cbn [mbind Outcome_bind].
  destruct (FilterIndirectLight_gather_total (IndexToLocation bakedGeometry j)
              (GetLuminance c) p nrm
              (v4scale c (kernel0 ⊗ kernel0), kernel0 ⊗ kernel0)) as [acc ->].
  cbn [mbind Outcome_bind].
  unfold set_index. destruct (decide _) as [_|Hbad]; [|lia].
  eexists. split; [reflexivity|]. by rewrite length_insert.
Qed.
End FilterReturns.

(** ** The stores of the filter *)

Section FilterStores.
Context {F : Type} `{!FloatOps F} `{!Engine F} `{!LibM F}.

(** A texel with geometry that the filter has visited has an entry in the
    scratch buffer. *)
Lemma FilterIndirectLight_texel_in_bounds (light : list (Vector4 F)) bakedGeometry
    params (kernelWeights : list F) (j : Z) (lightSwap lightSwap' : list (Vector4 F))
    (geometryId : Z) :
  FilterIndirectLight_texel light bakedGeometry params kernelWeights j lightSwap
    = Ok lightSwap' →
  Geometry.geometryIds_ bakedGeometry !! Z.to_nat j = Some geometryId →
  geometryId ≠ 0 →
  0 ≤ j < Z.of_nat (length lightSwap).
Proof.
  intros H Hid Hgeo. unfold FilterIndirectLight_texel in H.
  apply bind_Ok in H as (gid & Hgid & H).
  apply at_index_Ok in Hgid as [_ Hgid]. rewrite Hid in Hgid.
  inversion Hgid; subst gid. destruct (decide (geometryId = 0)); [done|].
  inv_Ok H. by apply set_index_Ok in H as [H _].
Qed.

Lemma FilterIndirectLight_scratch_covers bakedIndirect bakedIndirect' bakedGeometry
    params (numThreads : Z) (i : nat) (geometryId : Z) :
  1 ≤ numThreads →
  Z.of_nat (length (Indirect.light_ bakedIndirect)) + numThreads ≤ 2 ^ 32 →
  FilterIndirectLight bakedIndirect bakedGeometry params numThreads = Ok bakedIndirect' →
  (i < length (Indirect.light_ bakedIndirect))%nat →
  Geometry.geometryIds_ bakedGeometry !! i = Some geometryId →
  geometryId ≠ 0 →
  (i < length (Indirect.lightSwap_ bakedIndirect))%nat.
Proof.
  intros Hn Hfit H Hi Hid Hgeo.
  rewrite FilterIndirectLight_one_loop in H by done.
  apply bind_Ok in H as (kernelWeights & _ & H).
  apply bind_Ok in H as (lightSwap & H & _).
  unfold for_range in H.
  rewrite (loop_indices_split 0 _ (Z.of_nat i)) in H by lia.
  apply foldM_split in H as (t & t' & Hbefore & Hvisit & _).
  assert (Hlen : length t = length (Indirect.lightSwap_ bakedIndirect)).
  { refine (foldM_inv (λ s, length s = length (Indirect.lightSwap_ bakedIndirect))
              _ _ _ _ _ Hbefore eq_refl).
    intros j s s' Hj <-.
    apply FilterIndirectLight_texel_spec in Hj as (f & _ & ->).
    apply length_alter. }
  eapply FilterIndirectLight_texel_in_bounds in Hvisit;
    [|rewrite Nat2Z.id; exact Hid|exact Hgeo].
  lia.
Qed.
End FilterStores.

(** ** Exact arithmetic: vectors *)

Section ExactVectors.
Local Open Scope R_scope.

Lemma LengthSquared_nonneg (a : Vector3 R) : 0 <= LengthSquared a.
Proof. unfold LengthSquared. simpl. nra. Qed.

Lemma LengthSquared_v3neg (a : Vector3 R) : LengthSquared (v3neg a) = LengthSquared a.
Proof. unfold LengthSquared, v3neg. simpl. ring. Qed.

Lemma LengthSquared_v3sub (a b : Vector3 R) :
  LengthSquared (v3sub a b) = LengthSquared (v3sub b a).
Proof. unfold LengthSquared, v3sub. simpl. ring. Qed.

Lemma LengthSquared_v3sub_self (a : Vector3 R) : LengthSquared (v3sub a a) = 0.
Proof. unfold LengthSquared, v3sub. simpl. ring. Qed.

Lemma DotProduct_v3neg (a b : Vector3 R) : DotProduct (v3neg a) b = - DotProduct a b.
Proof. unfold DotProduct, v3neg. simpl. ring. Qed.

Lemma DotProduct_comm (a b : Vector3 R) : DotProduct a b = DotProduct b a.
Proof. unfold DotProduct. simpl. ring. Qed.

Lemma v3add_comm_assoc (a b c : Vector3 R) :
  v3add (v3add a b) c = v3add (v3add a c) b.
Proof. unfold v3add. simpl. f_equal; ring. Qed.

Lemma v3add_zero (a : Vector3 R) : v3add a Vector3_zero = a.
Proof. destruct a. unfold v3add, Vector3_zero. simpl. f_equal; ring. Qed.

Lemma v3scale_shadow (a : Vector3 R) (k : R) :
  v3scale (v3scale a (of_int 0)) k = Vector3_zero.
Proof.
  unfold v3scale, Vector3_zero. simpl. by rewrite !Rmult_0_r, !Rmult_0_l.
Qed.

Lemma v3scale_away (a : Vector3 R) (k : R) :
  v3scale (v3scale a k) (of_int 0) = Vector3_zero.
Proof. unfold v3scale, Vector3_zero. simpl. by rewrite !Rmult_0_r. Qed.

Lemma v3scale_lit (a : Vector3 R) (k : R) :
  v3scale (v3scale a (of_int 1)) k = v3scale a k.
Proof. unfold v3scale. simpl. by rewrite !Rmult_1_r. Qed.

Lemma fmax_real_0 (x : R) : x <= 0 → fmax (of_int 0) x = of_int 0.
Proof.
  intros Hx. unfold fmax. simpl. unfold Exact.Rltb.
  destruct (Rlt_dec 0 x); [lra|done].
Qed.

Lemma fmax_real_range (x : R) : x <= 1 → 0 <= fmax (of_int 0) x <= 1.
Proof.
  intros Hx. unfold fmax. simpl. unfold Exact.Rltb.
  destruct (Rlt_dec 0 x); lra.
Qed.

Lemma Rdiv_nonneg (a b : R) : 0 <= a → 0 < b → 0 <= a / b.
Proof.
  intros Ha Hb. apply Rmult_le_pos; [done|]. left. by apply Rinv_0_lt_compat.
Qed.

Lemma Vector4_le_antisym (a b : Vector4 R) : Vector4_le a b → Vector4_le b a → a = b.
Proof.
  destruct a, b. unfold Vector4_le. simpl. intros (? & ? & ? & ?) (? & ? & ? & ?).
  f_equal; lra.
Qed.
End ExactVectors.

(** ** Exact arithmetic: random directions *)

Section ExactDirections.
Local Open Scope R_scope.
Context {E : Engine R}.
Hypothesis Length_sqrt : ∀ a : Vector3 R, Length a = sqrt (LengthSquared a).

Lemma LengthSquared_normalized (a : Vector3 R) :
  Length a ≠ 0 → LengthSquared (v3div a (Length a)) = 1.
Proof.
  intros Hlen. rewrite Length_sqrt in *.
  pose proof (sqrt_sqrt _ (LengthSquared_nonneg a)) as Hsq.
  unfold LengthSquared, v3div in *. simpl in *.
  set (len := sqrt _) in *.
  transitivity ((x_ a * x_ a + y_ a * y_ a + z_ a * z_ a) / (len * len)).
  - field. exact Hlen.
  - rewrite Hsq. field. rewrite <- Hsq. nra.
Qed.

Lemma RandomDirection_unit (fuel : nat) (rng rng' : Rng) (d : Vector3 R) :
  RandomDirection fuel rng = Ok (d, rng') →
  ∃ result, Length result <= 1
            ∧ d = v3div result (Length result)
            ∧ (Length result ≠ 0 → LengthSquared d = 1).
Proof.
  intros (result & Hlen & ->)%RandomDirection_Ok.
  exists result. split; [|split; [done|apply LengthSquared_normalized]].
  simpl in Hlen. unfold Exact.Rltb in Hlen.
  destruct (Rlt_dec 1 (Length result)); [done|lra].
Qed.

Lemma RandomHemisphereDirection_unit (fuel : nat) (normal : Vector3 R)
    (rng rng' : Rng) (d : Vector3 R) :
  RandomHemisphereDirection fuel normal rng = Ok (d, rng') →
  0 <= DotProduct d normal
  ∧ ∃ result, Length result <= 1
              ∧ (d = v3div result (Length result)
                 ∨ d = v3neg (v3div result (Length result)))
              ∧ (Length result ≠ 0 → LengthSquared d = 1).
Proof.
  intros (d0 & Hd & ->)%RandomHemisphereDirection_Ok.
  apply RandomDirection_unit in Hd as (result & Hlen & -> & Hunit).
  simpl fltb. unfold Exact.Rltb.
  destruct (Rlt_dec _ _) as [Hneg|Hpos].
  - split; [rewrite DotProduct_v3neg; unfold DotProduct in *; simpl in *; lra|].
    exists result. rewrite LengthSquared_v3neg. auto.
  - split; [unfold DotProduct in *; simpl in *; lra|]. exists result. auto.
Qed.
End ExactDirections.

(** ** Exact arithmetic: the direct light *)

Section ExactDirectLight.
Local Open Scope R_scope.
Context {E : Engine R}.

(** The light a texel receives: nothing in the shadow, nothing when the
    surface faces away from the light, the colour of the light times the
    cosine otherwise. *)
Lemma direct_contribution_exact (scene : RTCScene) (rayDirection : Vector3 R)
    (maxDistance : R) (lightColor position smoothNormal : Vector3 R) :
  direct_contribution scene rayDirection maxDistance lightColor position smoothNormal
  = match cast_ray scene (shadow_ray rayDirection maxDistance position) with
    | Some _ => Vector3_zero
    | None =>
      if Rle_dec (DotProduct smoothNormal rayDirection) 0 then Vector3_zero
      else v3scale lightColor (DotProduct smoothNormal rayDirection)
    end.
Proof.
  unfold direct_contribution.
  destruct (cast_ray _ _) as [hit|]; [apply v3scale_shadow|].
  destruct (Rle_dec _ _) as [Hle|Hgt].
  - rewrite fmax_real_0 by done. apply v3scale_away.
  - rewrite fmax_real_r by (change (of_int 0) with 0; lra). apply v3scale_lit.
Qed.
End ExactDirectLight.

(** ** Exact arithmetic: the edge-stopping weight *)

Section ExactEdgeWeight.
Local Open Scope R_scope.

Lemma exp_le_1 (x : R) : x <= 0 → Rtrigo_def.exp x <= 1.
Proof.
  intros [Hx| ->].
  - rewrite <- exp_0. left. by apply exp_increasing.
  - rewrite exp_0. lra.
Qed.

Lemma RealPow_le_1 (x y : R) : 0 <= x <= 1 → 0 <= y → Exact.RealPow x y <= 1.
Proof.
  intros [Hx0 Hx1] Hy. unfold Exact.RealPow, Exact.Rltb.
  destruct (Rlt_dec 0 x) as [Hpos|_].
  - unfold Rpower. apply exp_le_1.
    assert (ln x <= 0).
    { destruct Hx1 as [Hlt| ->]; [|rewrite ln_1; lra].
      rewrite <- ln_1. left. by apply ln_increasing. }
    nra.
  - destruct (Req_dec_T y 0); lra.
Qed.

Lemma RealPow_0 (x y : R) : x <= 0 → 0 < y → Exact.RealPow x y = 0.
Proof.
  intros Hx Hy. unfold Exact.RealPow, Exact.Rltb.
  destruct (Rlt_dec 0 x); [lra|]. destruct (Req_dec_T y 0); [lra|done].
Qed.

Lemma RealPow_1 (y : R) : Exact.RealPow 1 y = 1.
Proof.
  unfold Exact.RealPow, Exact.Rltb. destruct (Rlt_dec 0 1); [|lra].
  unfold Rpower. rewrite ln_1, Rmult_0_r. apply exp_0.
Qed.

Lemma CalculateEdgeWeight_real
    (luminance1 luminance2 luminanceSigma : R)
    (position1 position2 : Vector3 R) (positionSigma : R)
    (normal1 normal2 : Vector3 R) (normalPower : R) :
  CalculateEdgeWeight luminance1 luminance2 luminanceSigma
    position1 position2 positionSigma normal1 normal2 normalPower
  = Rtrigo_def.exp
      (0 - Rabs (luminance1 - luminance2) / luminanceSigma
       - LengthSquared (v3sub position1 position2) / positionSigma)
    * Exact.RealPow (fmax (of_int 0) (DotProduct normal1 normal2)) normalPower.
Proof. reflexivity. Qed.
End ExactEdgeWeight.

(** ** Exact arithmetic: the range of the filter *)

Lemma weighted_step (lo hi a s c w k : R) :
  (lo * s <= a <= hi * s → lo <= c <= hi → 0 <= w * k →
   lo * (s + w * k) <= a + c * w * k <= hi * (s + w * k))%R.
Proof.
  intros Ha Hc Ht.
  assert (lo * (w * k) <= c * (w * k))%R by (apply Rmult_le_compat_r; lra).
  assert (c * (w * k) <= hi * (w * k))%R by (apply Rmult_le_compat_r; lra).
  lra.
Qed.

Lemma between_quotient (lo hi a s : R) :
  (0 < s → lo * s <= a <= hi * s → lo <= a / s <= hi)%R.
Proof.
  intros Hs [H1 H2]. split.
  - apply (Rmult_le_reg_r s); [done|]. unfold Rdiv.
    rewrite Rmult_assoc, Rinv_l by lra. lra.
  - apply (Rmult_le_reg_r s); [done|]. unfold Rdiv.
    rewrite Rmult_assoc, Rinv_l by lra. lra.
Qed.

Section ExactFilterRange.
Local Open Scope R_scope.
Context {E : Engine R} {L : LibM R}.
Hypothesis exp_nonneg : ∀ x : R, 0 <= exp x.
Hypothesis Pow_nonneg : ∀ x y : R, 0 <= x → 0 <= Pow x y.
Hypothesis M_EPSILON_small : M_EPSILON < 9 / 64.

Variable light : list (Vector4 R).
Variable bakedGeometry : Geometry.LightmapChartBakedGeometry R.
Variables lo hi : Vector4 R.
Hypothesis light_range :
  ∀ (i : nat) (color : Vector4 R) (geometryId : Z),
    light !! i = Some color →
    Geometry.geometryIds_ bakedGeometry !! i = Some geometryId →
    geometryId ≠ 0%Z →
    Vector4_le lo color ∧ Vector4_le color hi.

Lemma FilterIndirectLight_tap_range
    (params : IndirectFilterParameters R) (kernelWeights : list R)
    centerLocation centerLuminance centerPosition centerNormal
    (dy dx : Z) (acc acc' : Vector4 R * R) :
  Forall (λ k, 0 <= k) kernelWeights →
  FilterIndirectLight_tap light bakedGeometry params kernelWeights centerLocation
    centerLuminance centerPosition centerNormal dy dx acc = Ok acc' →
  weighted_between lo hi acc → weighted_between lo hi acc'.
Proof.
  intros Hk H Hacc. unfold FilterIndirectLight_tap in H.
  destruct (_ && _); [by inversion H; subst|].
  destruct (negb _); [by inversion H; subst|].
  apply bind_Ok in H as (kernelX & HkX & H).
  apply bind_Ok in H as (kernelY & HkY & H).
  apply bind_Ok in H as (otherGeometryId & Hid & H).
  destruct (decide (otherGeometryId = 0%Z)) as [|Hgeo]; [by inversion H; subst|].
  apply bind_Ok in H as (otherColor & Hcolor & H).
  apply bind_Ok in H as (otherPosition & _ & H).
  apply bind_Ok in H as (otherNormal & _ & H).
  set (weight := CalculateEdgeWeight _ _ _ _ _ _ _ _ _) in H.
  assert (Hw : 0 <= weight) by (by apply CalculateEdgeWeight_nonneg).
  clearbody weight.
  inversion H; subst acc'; clear H.
  apply at_index_Ok in HkX as [_ HkX], HkY as [_ HkY], Hid as [_ Hid],
      Hcolor as [_ Hcolor].
  pose proof (Forall_lookup_1 _ _ _ _ Hk HkX) as Hx0.
  pose proof (Forall_lookup_1 _ _ _ _ Hk HkY) as Hy0. simpl in Hx0, Hy0.
  destruct (light_range _ _ _ Hcolor Hid Hgeo)
    as [(Hl1 & Hl2 & Hl3 & Hl4) (Hh1 & Hh2 & Hh3 & Hh4)].
  unfold weighted_between in *. cbn [fst snd] in *.
  assert (Ht : 0 <= weight * (kernelX * kernelY)).
  { apply Rmult_le_pos; [done|]. apply Rmult_le_pos; lra. }
  destruct Hacc as [(Ha1 & Ha2 & Ha3 & Ha4) (Hb1 & Hb2 & Hb3 & Hb4)].
  unfold Vector4_le, v4add, v4scale in *. cbn [x4_ y4_ z4_ w4_] in *.
  change fmul with Rmult in *. change fadd with Rplus in *.
  pose proof (weighted_step _ _ _ _ _ _ _ (conj Ha1 Hb1) (conj Hl1 Hh1) Ht).
  pose proof (weighted_step _ _ _ _ _ _ _ (conj Ha2 Hb2) (conj Hl2 Hh2) Ht).
  pose proof (weighted_step _ _ _ _ _ _ _ (conj Ha3 Hb3) (conj Hl3 Hh3) Ht).
  pose proof (weighted_step _ _ _ _ _ _ _ (conj Ha4 Hb4) (conj Hl4 Hh4) Ht).
  repeat split; lra.
Qed.

Lemma FilterIndirectLight_gather_range
    (params : IndirectFilterParameters R) (kernelWeights : list R)
    centerLocation centerLuminance centerPosition centerNormal
    (acc acc' : Vector4 R * R) :
  Forall (λ k, 0 <= k) kernelWeights →
  FilterIndirectLight_gather light bakedGeometry params kernelWeights centerLocation
    centerLuminance centerPosition centerNormal acc = Ok acc' →
  weighted_between lo hi acc → weighted_between lo hi acc'.
Proof.
  intros Hk H Hacc. unfold FilterIndirectLight_gather in H.
  refine (foldM_inv (weighted_between lo hi) _ _ _ _ _ H Hacc).
  intros dy s s' Hrow Hs.
  refine (foldM_inv (weighted_between lo hi) _ _ _ _ _ Hrow Hs).
  intros dx t t' Htap Ht.
  by apply (FilterIndirectLight_tap_range _ _ _ _ _ _ _ _ _ _ Hk) in Htap.
Qed.

Lemma GetKernel_center (radius : Z) (kernelWeights : list R) :
  GetKernel radius = Ok kernelWeights →
  ∃ kernel0, kernelWeights !! 0%nat = Some kernel0
             ∧ 0 < kernel0 * kernel0 ∧ M_EPSILON < kernel0 * kernel0.
Proof.
  intros H. apply GetKernel_Ok in H as [[_ ->]|[[_ ->]|[_ ->]]];
    (eexists; split; [reflexivity|]; simpl; lra).
Qed.

(** What the filter stores for a texel lies between [lo] and [hi]. *)
Lemma FilterIndirectLight_filtered_range
    (params : IndirectFilterParameters R) (kernelWeights : list R)
    centerLocation centerLuminance centerPosition centerNormal
    (centerColor : Vector4 R) (kernel0 : R) (acc : Vector4 R * R) :
  GetKernel (kernelRadius_ params) = Ok kernelWeights →
  kernelWeights !! 0%nat = Some kernel0 →
  Vector4_le lo centerColor ∧ Vector4_le centerColor hi →
  FilterIndirectLight_gather light bakedGeometry params kernelWeights centerLocation
    centerLuminance centerPosition centerNormal
    (v4scale centerColor (kernel0 ⊗ kernel0), kernel0 ⊗ kernel0) = Ok acc →
  Vector4_le lo (v4div acc.1 (fmax M_EPSILON acc.2))
  ∧ Vector4_le (v4div acc.1 (fmax M_EPSILON acc.2)) hi.
Proof.
  intros Hkernel Hk0 [(Hl1 & Hl2 & Hl3 & Hl4) (Hh1 & Hh2 & Hh3 & Hh4)] Hgather.
  destruct (GetKernel_weights M_EPSILON_small _ _ Hkernel) as [Hk _].
  destruct (GetKernel_center _ _ Hkernel) as (k & Hk' & Hpos & Heps).
  rewrite Hk0 in Hk'. inversion Hk'; subst k. clear Hk'.
  pose proof (FilterIndirectLight_gather_weight exp_nonneg Pow_nonneg
                _ _ _ _ _ _ _ _ _ _ Hk Hgather) as Hweight.
  assert (Hbetween : weighted_between lo hi acc).
  { refine (FilterIndirectLight_gather_range _ _ _ _ _ _ _ _ Hk Hgather _).
    unfold weighted_between, Vector4_le, v4scale. cbn [fst snd x4_ y4_ z4_ w4_].
    change fmul with Rmult.
    repeat split; apply Rmult_le_compat_r; lra. }
  cbn [fst snd] in Hweight. change fmul with Rmult in Hweight.
  rewrite fmax_real_r by lra.
  destruct Hbetween as [(Ha1 & Ha2 & Ha3 & Ha4) (Hb1 & Hb2 & Hb3 & Hb4)].
  unfold Vector4_le, v4div, v4scale in *. cbn [x4_ y4_ z4_ w4_] in *.
  change fmul with Rmult in *. change fdiv with Rdiv.
  assert (Hs : 0 < acc.2) by lra.
  pose proof (between_quotient _ _ _ _ Hs (conj Ha1 Hb1)).
  pose proof (between_quotient _ _ _ _ Hs (conj Ha2 Hb2)).
  pose proof (between_quotient _ _ _ _ Hs (conj Ha3 Hb3)).
  pose proof (between_quotient _ _ _ _ Hs (conj Ha4 Hb4)).
  repeat split; lra.
Qed.
End ExactFilterRange.

(** ** Exact arithmetic: the accumulation *)

Section ExactAccumulation.
Local Open Scope R_scope.

Lemma back_to_front_throughput (pairs : list (Vector3 R * R)) (throughput : R) :
  v3scale (back_to_front pairs) throughput = throughput_sum pairs throughput.
Proof.
  revert throughput. induction pairs as [|[sample weight] pairs IH]; intros t.
  - cbn [throughput_sum back_to_front foldr].
    unfold v3scale, Vector3_zero. simpl. f_equal; ring.
  - change (back_to_front ((sample, weight) :: pairs))
      with (v3scale (v3add (back_to_front pairs) sample) weight).
    cbn [throughput_sum fst snd]. rewrite <- IH.
    unfold v3scale, v3add. simpl. f_equal; ring.
Qed.
End ExactAccumulation.

(** ** A texel without neighbours *)

Lemma foldM_skip {A St} (body : A → St → Outcome St) (l : list A) (s : St) :
  Forall (λ a, body a s = Ok s) l → foldM body l s = Ok s.
Proof.
  induction 1 as [|a l Ha _ IH]; simpl; [done|]. by rewrite Ha.
Qed.

Section FilterAlone.
Context {F : Type} `{!FloatOps F} `{!Engine F} `{!LibM F}.

Lemma FilterIndirectLight_gather_alone (light : list (Vector4 F)) bakedGeometry
    params (kernelWeights : list F) (index : Z) centerLuminance
    centerPosition centerNormal (acc : Vector4 F * F) :
  GetKernel (kernelRadius_ params) = Ok kernelWeights →
  alone bakedGeometry params index →
  FilterIndirectLight_gather light bakedGeometry params kernelWeights
    (IndexToLocation bakedGeometry index) centerLuminance centerPosition centerNormal acc
  = Ok acc.
Proof.
  intros Hkernel Halone. unfold FilterIndirectLight_gather.
  apply foldM_skip. eapply List.Forall_impl; [|apply kernel_offsets_range].
  intros dy Hdy. cbv beta in Hdy. apply foldM_skip.
  eapply List.Forall_impl; [|apply kernel_offsets_range].
  intros dx Hdx. cbv beta in Hdx. unfold FilterIndirectLight_tap.
  destruct (bool_decide (dx = 0) && bool_decide (dy = 0)) eqn:Hcentre; [done|].
  assert (Hoff : ¬ (dx = 0 ∧ dy = 0)).
  { intros [-> ->]. by rewrite !bool_decide_eq_true_2 in Hcentre. }
  destruct (Halone dy dx Hdy Hdx Hoff) as [Hout|Hempty].
  - unfold tap_location in Hout. by rewrite Hout.
  - unfold tap_location in Hempty.
    destruct (IsValidLocation _ _); [|done]. cbn [negb].
    destruct (GetKernel_read _ _ dx Hkernel Hdx) as [kernelX ->].
    destruct (GetKernel_read _ _ dy Hkernel Hdy) as [kernelY ->].
    cbn [mbind Outcome_bind]. rewrite Hempty. cbn [mbind Outcome_bind].
    by destruct (decide (0 = 0)).
Qed.
End FilterAlone.

(** ** Exact arithmetic: light is only added *)

Lemma steps_related {X} (Rel : X → X → Prop) (Rf : Z → (X → X) → Prop)
    (idx : list Z) (l l' : list X) :
  (∀ x, Rel x x) → (∀ x y z, Rel x y → Rel y z → Rel x z) →
  (∀ j f, Rf j f → ∀ x, Rel x (f x)) →
  steps Rf idx l l' →
  ∀ (i : nat) x y, l !! i = Some x → l' !! i = Some y → Rel x y.
Proof.
  intros Hrefl Htrans Hf. revert l.
  induction idx as [|j idx IH]; intros l Hsteps i x y Hx Hy; simpl in Hsteps.
  - subst l'. rewrite Hx in Hy. inversion Hy; subst. apply Hrefl.
  - destruct Hsteps as (f & Hj & Hsteps).
    destruct (decide (Z.to_nat j = i)) as [<-|Hne].
    + eapply Htrans; [apply (Hf j f Hj x)|].
      eapply (IH _ Hsteps (Z.to_nat j)); [|exact Hy].
      by rewrite list_lookup_alter_eq, Hx.
    + eapply (IH _ Hsteps i); [|exact Hy].
      by rewrite list_lookup_alter_ne.
Qed.

Section ExactOrder.
Local Open Scope R_scope.

Lemma Vector3_le_refl (a : Vector3 R) : Vector3_le a a.
Proof. unfold Vector3_le. lra. Qed.

Lemma Vector3_le_trans (a b c : Vector3 R) :
  Vector3_le a b → Vector3_le b c → Vector3_le a c.
Proof. unfold Vector3_le. intros (? & ? & ?) (? & ? & ?). lra. Qed.

Lemma Vector4_le_refl (a : Vector4 R) : Vector4_le a a.
Proof. unfold Vector4_le. lra. Qed.

Lemma Vector4_le_trans (a b c : Vector4 R) :
  Vector4_le a b → Vector4_le b c → Vector4_le a c.
Proof. unfold Vector4_le. intros (? & ? & ? & ?) (? & ? & ? & ?). lra. Qed.

Lemma v3add_nonneg (a b : Vector3 R) :
  Vector3_le Vector3_zero b → Vector3_le a (v3add a b).
Proof. unfold Vector3_le, v3add, Vector3_zero. simpl. lra. Qed.

Lemma v3scale_nonneg (a : Vector3 R) (k : R) :
  Vector3_le Vector3_zero a → 0 <= k → Vector3_le Vector3_zero (v3scale a k).
Proof.
  unfold Vector3_le, v3scale, Vector3_zero. simpl. intros (? & ? & ?) ?.
  repeat split; apply Rmult_le_pos; lra.
Qed.

Lemma v4add_radiance (old : Vector4 R) (indirectLighting : Vector3 R) :
  Vector3_le Vector3_zero indirectLighting →
  Vector4_le old (v4add old (Vector4_of indirectLighting (of_int 1))).
Proof.
  unfold Vector3_le, Vector4_le, v4add, Vector4_of, Vector3_zero. simpl. lra.
Qed.
End ExactOrder.

Section ExactDirectOrder.
Local Open Scope R_scope.
Context {E : Engine R}.

Lemma light_contribution_nonneg (embreeScene : EmbreeScene R)
    (light : DirectionalLightParameters R) (position smoothNormal : Vector3 R) :
  Vector3_le Vector3_zero (ToVector3 (color_ light)) →
  Vector3_le Vector3_zero (light_contribution embreeScene light position smoothNormal).
Proof.
  intros Hcolor. unfold light_contribution. rewrite direct_contribution_exact.
  destruct (cast_ray _ _); [apply Vector3_le_refl|].
  destruct (Rle_dec _ _); [apply Vector3_le_refl|].
  apply v3scale_nonneg; [done|lra].
Qed.
End ExactDirectOrder.

Section ExactIndirectOrder.
Local Open Scope R_scope.
Context {E : Engine R}.
Variable fuel : nat.
Variable bakedDirect : list (Direct.LightmapChartBakedDirect R).
Variable bakedGeometry : Geometry.LightmapChartBakedGeometry R.
Variable embreeScene : EmbreeScene R.
Variable settings : LightmapTracingSettings R.
Hypothesis M_PI_pos : 0 < M_PI.
Hypothesis sample_nonneg :
  ∀ chart uv, bakedDirect !! 0%nat = Some chart →
    Vector3_le Vector3_zero (SampleNearest chart uv).

Lemma RandomHemisphereDirection_dot (normal : Vector3 R) (rng rng' : Rng)
    (d : Vector3 R) :
  RandomHemisphereDirection fuel normal rng = Ok (d, rng') →
  0 <= DotProduct d normal.
Proof.
  intros (d0 & _ & ->)%RandomHemisphereDirection_Ok.
  change (fltb ?a ?b) with (Exact.Rltb a b). unfold Exact.Rltb.
  destruct (Rlt_dec _ _) as [Hneg|Hpos].
  - rewrite DotProduct_v3neg. change (of_int 0) with 0 in Hneg. lra.
  - change (of_int 0) with 0 in Hpos. lra.
Qed.

Lemma incoming_factor_nonneg (rayDirection currentNormal : Vector3 R) :
  0 <= DotProduct rayDirection currentNormal →
  0 <= incoming_factor rayDirection currentNormal.
Proof.
  intros Hdot. unfold incoming_factor.
  change (of_int 1) with 1. change (of_int 2) with 2.
  change fmul with Rmult. change fdiv with Rdiv.
  assert (0 < / M_PI) by (by apply Rinv_0_lt_compat).
  assert (0 < 1 / M_PI) by (unfold Rdiv; lra).
  assert (0 < 1 / M_PI / M_PI) by (by apply Rdiv_lt_0_compat).
  assert (0 < 1 / (2 * M_PI)) by (apply Rdiv_lt_0_compat; lra).
  apply Rdiv_nonneg; [|done]. apply Rmult_le_pos; lra.
Qed.

Lemma BounceArrays_fresh_nonneg : arrays_nonneg BounceArrays_fresh.
Proof.
  split; simpl.
  - apply Forall_replicate. apply Vector3_le_refl.
  - apply Forall_replicate. intros factor Hf. discriminate.
Qed.

Lemma BakeIndirectLight_bounce_nonneg (j : Z) (st st' : PathState R Rng) :
  BakeIndirectLight_bounce fuel bakedDirect embreeScene settings j st = Ok st' →
  arrays_nonneg (arrays st) → arrays_nonneg (arrays st').
Proof.
  intros H [Hs Hf].
  apply BakeIndirectLight_bounce_spec in H as (d & r & Hd & _ & H).
  destruct (cast_ray _ _) as [[t hit]|].
  - destruct H as (geometry & chart & _ & Hchart & _ & _ & _ & Es & Ef).
    split.
    + rewrite Es. apply Forall_insert; [done|]. by apply sample_nonneg.
    + rewrite Ef. apply Forall_insert; [done|]. intros factor Hfactor.
      inversion Hfactor; subst factor.
      apply incoming_factor_nonneg. by eapply RandomHemisphereDirection_dot.
  - destruct H as (_ & Ea & _). rewrite Ea. by split.
Qed.

Lemma accumulate_nonneg (a : BounceArrays R) (numSamples : Z)
    (indirectLighting : Vector3 R) :
  arrays_nonneg a →
  accumulate a numSamples = Ok indirectLighting →
  Vector3_le Vector3_zero indirectLighting.
Proof.
  intros [Hs Hf] H. unfold accumulate in H.
  refine (foldM_inv (Vector3_le Vector3_zero) _ _ _ _ _ H (Vector3_le_refl _)).
  intros j s s' Hstep Hle. unfold accumulate_step in Hstep.
  apply bind_Ok in Hstep as (sample & Hsample & Hstep).
  apply bind_Ok in Hstep as (slot & Hslot & Hstep).
  destruct slot as [factor|]; [|done]. inversion Hstep; subst s'.
  apply at_index_Ok in Hsample as [_ Hsample], Hslot as [_ Hslot].
  pose proof (Forall_lookup_1 _ _ _ _ Hs Hsample) as Hs0.
  pose proof (Forall_lookup_1 _ _ _ _ Hf Hslot _ eq_refl) as Hf0.
  apply v3scale_nonneg; [|done].
  eapply Vector3_le_trans; [exact Hle|]. by apply v3add_nonneg.
Qed.

(** The visit of a texel adds no negative radiance and leaves arrays
    without negative entries. *)
Lemma BakeIndirectLight_texel_nonneg (j : Z) (ts ts' : TaskState R Rng) :
  BakeIndirectLight_texel fuel bakedDirect bakedGeometry embreeScene settings j ts
    = Ok ts' →
  arrays_nonneg (task_arrays ts) →
  arrays_nonneg (task_arrays ts')
  ∧ ∃ f, (∀ old, Vector4_le old (f old))
         ∧ task_light ts' = alter f (Z.to_nat j) (task_light ts).
Proof.
  intros H Harrays. unfold BakeIndirectLight_texel in H.
  apply bind_Ok in H as (position & _ & H).
  apply bind_Ok in H as (smoothNormal & _ & H).
  apply bind_Ok in H as (geometryId & _ & H).
  destruct (decide (geometryId = 0%Z)) as [Hz|Hz].
  - inversion H; subst ts'. split; [done|].
    exists (λ old, old). split; [apply Vector4_le_refl|].
    symmetry. by apply list_alter_id.
  - apply bind_Ok in H as (st & Hpath & H).
    apply bind_Ok in H as (indirectLighting & Hacc & H).
    apply bind_Ok in H as (old & Hold & H).
    apply bind_Ok in H as (light & Hset & H).
    inversion H; subst ts'; clear H. cbn [task_arrays task_light].
    assert (Hst : arrays_nonneg (arrays st)).
    { unfold for_range in Hpath.
      refine (foldM_inv (λ s, arrays_nonneg (arrays s)) _ _ _ _ _ Hpath Harrays).
      intros b s s'. apply BakeIndirectLight_bounce_nonneg. }
    split; [done|].
    apply at_index_Ok in Hold as [_ Hold]. apply set_index_Ok in Hset as [_ ->].
    exists (λ old, v4add old (Vector4_of indirectLighting (of_int 1))). split.
    + intros x. apply v4add_radiance. by eapply accumulate_nonneg.
    + by rewrite (list_alter_lookup_insert _ _ _ _ Hold).
Qed.

Lemma BakeIndirectLight_task_nonneg (fromIndex toIndex : Z)
    (s s' : list (Vector4 R) * Rng) :
  BakeIndirectLight_task fuel bakedDirect bakedGeometry embreeScene settings
    fromIndex toIndex s = Ok s' →
  steps (λ _ f, ∀ old, Vector4_le old (f old)) (loop_indices fromIndex toIndex) s.1 s'.1.
Proof.
  unfold BakeIndirectLight_task. intros H.
  apply bind_Ok in H as (ts & H & Hs'). inversion Hs'; subst s'. cbn [fst].
  unfold for_range in H.
  assert (Hgen : ∀ idx (t t' : TaskState R Rng),
            foldM (BakeIndirectLight_texel fuel bakedDirect bakedGeometry embreeScene
                     settings) idx t = Ok t' →
            arrays_nonneg (task_arrays t) →
            steps (λ _ f, ∀ old, Vector4_le old (f old)) idx (task_light t) (task_light t')).
  { induction idx as [|j idx IH]; intros t t' Hfold Ht; simpl in Hfold.
    - inversion Hfold; subst. reflexivity.
    - apply bind_Ok in Hfold as (t1 & Hj & Hfold).
      apply BakeIndirectLight_texel_nonneg in Hj as (Ht1 & f & Hf & Hlight); [|done].
      simpl. exists f. split; [done|]. rewrite <- Hlight. by apply IH. }
  exact (Hgen _ _ _ H BounceArrays_fresh_nonneg).
Qed.
End ExactIndirectOrder.

(** ** Loops: an invariant over the elements *)

Lemma foldM_inv_elem {A S} (P : S → Prop) (body : A → S → Outcome S) (l : list A)
    (s s' : S) :
  (∀ a s s', a ∈ l → body a s = Ok s' → P s → P s') →
  foldM body l s = Ok s' → P s → P s'.
Proof.
  revert s. induction l as [|a l IH]; intros s Hbody H HP; simpl in H.
  - inversion H; subst. done.
  - apply bind_Ok in H as (s1 & H1 & H).
    apply (IH s1); [|done|].
    + intros b t t' Hb. apply Hbody. by right.
    + apply (Hbody a s s1); [left|done|done].
Qed.

(** When the chunk size is computed as 0, no index is visited. *)
Lemma ParallelFor_chunkSize_0 {St} (count numThreads : Z)
    (body : Z → St → Outcome St) (s : St) :
  numThreads ≠ 0 → 0 ≤ count → chunkSize count numThreads = 0 →
  ParallelFor count numThreads (λ fromIndex toIndex, for_range fromIndex toIndex body) s
  = Ok s.
Proof.
  intros Hn Hc Hchunk. unfold ParallelFor.
  destruct (decide (numThreads = 0)) as [|_]; [done|].
  apply foldM_skip. apply Forall_forall. intros i _.
  unfold ParallelFor_task, toIndex, fromIndex. rewrite Hchunk.
  unfold umul, uadd, wrap32. rewrite Z.mul_0_r. change (0 `mod` 2 ^ 32) with 0.
  change ((0 + 0) `mod` 2 ^ 32) with 0.
  unfold ea_min. destruct (Z.ltb_spec count 0); [lia|]. reflexivity.
Qed.

(** ** The two builds *)

Section Builds.
Context {F : Type} `{!FloatOps F} `{!Engine F} `{!LibM F}.

(** On a supported radius the two builds return the same kernel. *)
Lemma GetKernel_NDEBUG_Ok (radius : Z) (kernelWeights : list F) :
  GetKernel radius = Ok kernelWeights → GetKernel_NDEBUG radius = kernelWeights.
Proof.
  intros H. by apply GetKernel_Ok in H as [[-> ->]|[[-> ->]|[-> ->]]].
Qed.

Lemma FilterIndirectLight_NDEBUG_supported
    (bakedIndirect : Indirect.LightmapChartBakedIndirect F)
    (bakedGeometry : Geometry.LightmapChartBakedGeometry F)
    (params : IndirectFilterParameters F) (numThreads : Z) :
  0 ≤ kernelRadius_ params ≤ 2 →
  FilterIndirectLight_NDEBUG bakedIndirect bakedGeometry params numThreads
  = FilterIndirectLight bakedIndirect bakedGeometry params numThreads.
Proof.
  intros Hr. unfold FilterIndirectLight_NDEBUG, FilterIndirectLight.
  assert (kernelRadius_ params = 0 ∨ kernelRadius_ params = 1
          ∨ kernelRadius_ params = 2) as [->|[->| ->]] by lia; reflexivity.
Qed.

Lemma BakeIndirectLight_NDEBUG_supported (fuel : nat)
    (bakedIndirect : Indirect.LightmapChartBakedIndirect F)
    (bakedDirect : list (Direct.LightmapChartBakedDirect F))
    (bakedGeometry : Geometry.LightmapChartBakedGeometry F)
    (embreeScene : EmbreeScene F) (settings : LightmapTracingSettings F)
    (rng : Rng) :
  numBounces_ settings ≤ MaxBounces →
  BakeIndirectLight_NDEBUG fuel bakedIndirect bakedDirect bakedGeometry embreeScene
    settings rng
  = BakeIndirectLight fuel bakedIndirect bakedDirect bakedGeometry embreeScene
      settings rng.
Proof.
  intros Hmax. unfold BakeIndirectLight_NDEBUG, BakeIndirectLight.
  by rewrite bool_decide_eq_true_2.
Qed.
End Builds.

(** ** Binary32 arithmetic: rounding

    What the rounding of [SpecFloat] does to a positive number: the
    mantissa is cut to 24 digits and rounded to the nearest, the
    exponent follows. *)

Section Binary32Rounding.
Import Float32.

(** [digits2_pos m] is the number of binary digits of [m]. *)
Lemma digits2_pos_spec (m : positive) :
  2 ^ (Z.pos (digits2_pos m) - 1) ≤ Z.pos m < 2 ^ Z.pos (digits2_pos m).
Proof.
  induction m as [m IH|m IH|]; cbn [digits2_pos].
  - rewrite Pos2Z.inj_succ.
    replace (Z.succ (Z.pos (digits2_pos m)) - 1)
      with (Z.succ (Z.pos (digits2_pos m) - 1)) by lia.
    rewrite !Z.pow_succ_r by lia. lia.
  - rewrite Pos2Z.inj_succ.
    replace (Z.succ (Z.pos (digits2_pos m)) - 1)
      with (Z.succ (Z.pos (digits2_pos m) - 1)) by lia.
    rewrite !Z.pow_succ_r by lia. lia.
  - simpl. lia.
Qed.

Lemma digits2_pos_unique (m : positive) (k : Z) :
  2 ^ (k - 1) ≤ Z.pos m < 2 ^ k → Z.pos (digits2_pos m) = k.
Proof.
  intros [Hl Hu]. pose proof (digits2_pos_spec m) as [Hl' Hu'].
  destruct (Z.lt_trichotomy (Z.pos (digits2_pos m)) k) as [Hlt|[Heq|Hgt]]; [|done|].
  - assert (2 ^ Z.pos (digits2_pos m) ≤ 2 ^ (k - 1))
      by (apply Z.pow_le_mono_r; lia).
    lia.
  - assert (0 ≤ k ∨ k < 0) as [Hk|Hk] by lia.
    + assert (2 ^ k ≤ 2 ^ (Z.pos (digits2_pos m) - 1))
        by (apply Z.pow_le_mono_r; lia).
      lia.
    + rewrite (Z.pow_neg_r 2 k) in Hu by lia. lia.
Qed.

(** One step to the right halves the mantissa. *)
Lemma shr_1_m (mrs : shr_record) :
  0 ≤ shr_m mrs → shr_m (shr_1 mrs) = shr_m mrs `div` 2.
Proof.
  destruct mrs as [m r s]. cbn [shr_m]. intros Hm.
  destruct m as [|p|p]; [done| |lia].
  destruct p as [p|p|]; cbn [shr_1 shr_m].
  - rewrite Pos2Z.inj_xI. apply Z.div_unique with 1; lia.
  - rewrite Pos2Z.inj_xO. apply Z.div_unique with 0; lia.
  - reflexivity.
Qed.

Lemma iter_pos_shr_1_m (p : positive) (mrs : shr_record) :
  0 ≤ shr_m mrs →
  shr_m (SpecFloat.iter_pos shr_1 p mrs) = shr_m mrs `div` 2 ^ Z.pos p.
Proof.
  revert mrs. induction p as [p IH|p IH|]; intros mrs Hm; cbn [SpecFloat.iter_pos].
  - assert (H1 : 0 ≤ shr_m (shr_1 mrs)).
    { rewrite shr_1_m by done. apply Z.div_pos; lia. }
    assert (H2 : 0 ≤ shr_m (SpecFloat.iter_pos shr_1 p (shr_1 mrs))).
    { rewrite IH by done. apply Z.div_pos; [done|]. apply Z.pow_pos_nonneg; lia. }
    rewrite IH, IH, shr_1_m by done.
    rewrite !Z.div_div by (try apply Z.pow_pos_nonneg; lia).
    f_equal. replace (Z.pos p~1) with (1 + Z.pos p + Z.pos p) by lia.
    rewrite !Z.pow_add_r by lia. change (2 ^ 1) with 2. ring.
  - assert (H2 : 0 ≤ shr_m (SpecFloat.iter_pos shr_1 p mrs)).
    { rewrite IH by done. apply Z.div_pos; [done|]. apply Z.pow_pos_nonneg; lia. }
    rewrite IH, IH by done.
    rewrite !Z.div_div by (try apply Z.pow_pos_nonneg; lia).
    f_equal. replace (Z.pos p~0) with (Z.pos p + Z.pos p) by lia.
    rewrite !Z.pow_add_r by lia. ring.
  - rewrite shr_1_m by done. reflexivity.
Qed.

(** [shr] by [n] places divides the mantissa by [2^n] and adds [n] to the
    exponent. *)
Lemma shr_spec (mrs : shr_record) (e n : Z) :
  0 ≤ shr_m mrs → 0 ≤ n →
  shr_m (shr mrs e n).1 = shr_m mrs `div` 2 ^ n ∧ (shr mrs e n).2 = e + n.
Proof.
  intros Hm Hn. destruct n as [|p|p]; [| |lia].
  - simpl. rewrite Z.div_1_r. split; [done|lia].
  - cbn [shr fst snd]. split; [by apply iter_pos_shr_1_m|done].
Qed.

Lemma shr_record_of_loc_m (m : Z) (l : location) : shr_m (shr_record_of_loc m l) = m.
Proof. destruct l as [|[]]; reflexivity. Qed.

(** Rounding to the nearest keeps the mantissa or adds 1 to it. *)
Lemma round_nearest_even_range (m : Z) (l : location) :
  m ≤ round_nearest_even m l ≤ m + 1.
Proof.
  destruct l as [|[]]; cbn [round_nearest_even]; try lia.
  destruct (Z.even m); lia.
Qed.

(** Rounding a positive number of the normal range: the result is
    infinite, or it has a mantissa of 24 digits that is not below the
    truncated one. *)
Lemma binary_round_aux_normal (s : bool) (m : positive) (e : Z) (l : location) :
  -149 ≤ Z.pos (digits2_pos m) + e - 24 → e ≤ Z.pos (digits2_pos m) + e - 24 →
  binary_round_aux prec emax s (Z.pos m) e l = S754_infinity s
  ∨ ∃ m' e', binary_round_aux prec emax s (Z.pos m) e l = S754_finite s m' e'
      ∧ Z.pos (digits2_pos m') = 24
      ∧ ((e' = Z.pos (digits2_pos m) + e - 24
          ∧ Z.pos m `div` 2 ^ (Z.pos (digits2_pos m) - 24) ≤ Z.pos m')
         ∨ e' = Z.pos (digits2_pos m) + e - 24 + 1).
Proof.
  intros Hmin Hn. pose proof (digits2_pos_spec m) as [Hl Hu].
  set (n := Z.pos (digits2_pos m) - 24) in *.
  assert (Hn0 : 0 ≤ n) by lia.
  assert (Hpow : 0 < 2 ^ n) by (apply Z.pow_pos_nonneg; lia).
  set (m1 := Z.pos m `div` 2 ^ n).
  assert (Hm1 : 2 ^ 23 ≤ m1 < 2 ^ 24).
  { replace (Z.pos (digits2_pos m) - 1) with (n + 23) in Hl by lia.
    replace (Z.pos (digits2_pos m)) with (n + 24) in Hu by lia.
    rewrite Z.pow_add_r in Hl, Hu by lia. subst m1. split.
    - apply Z.div_le_lower_bound; lia.
    - apply Z.div_lt_upper_bound; lia. }
  remember (binary_round_aux prec emax s (Z.pos m) e l) as r eqn:Er.
  unfold binary_round_aux, shr_fexp in Er. unfold fexp at 1 in Er.
  unfold emin, prec, emax in Er. cbn [Zdigits2] in Er.
  replace (Z.max (Z.pos (digits2_pos m) + e - 24) (3 - 128 - 24) - e)
    with n in Er by lia.
  destruct (shr_spec (shr_record_of_loc (Z.pos m) l) e n) as [E1 E2];
    [by rewrite shr_record_of_loc_m | done |].
  rewrite shr_record_of_loc_m in E1.
  destruct (shr (shr_record_of_loc (Z.pos m) l) e n) as [mrs' e'].
  cbn [fst snd] in E1, E2. fold m1 in E1.
  pose proof (round_nearest_even_range (shr_m mrs') (loc_of_shr_record mrs')) as Hr.
  rewrite E1 in *.
  set (m1' := round_nearest_even m1 (loc_of_shr_record mrs')) in *.
  destruct m1' as [|q|q] eqn:Eq; [lia| |lia].
  destruct (decide (Z.pos q < 2 ^ 24)) as [Hlt|Hge].
  - assert (Hd : Z.pos (digits2_pos q) = 24).
    { apply digits2_pos_unique. change (24 - 1) with 23. lia. }
    unfold fexp, emin in Er. cbn [Zdigits2] in Er. rewrite Hd in Er.
    replace (Z.max (24 + e' - 24) (3 - 128 - 24) - e') with 0 in Er by lia.
    cbn [shr shr_record_of_loc shr_m] in Er.
    destruct (e' <=? 128 - 24); [|by left].
    right. exists q, e'. split; [done|]. split; [done|]. left. split; [lia|].
    subst n. lia.
  - assert (Hq : q = 16777216%positive).
    { change (2 ^ 24) with 16777216 in *. lia. }
    subst q. unfold fexp, emin in Er. cbn [Zdigits2] in Er.
    let t := eval cbv in (Z.pos (digits2_pos 16777216)) in
    change (Z.pos (digits2_pos 16777216)) with t in Er.
    replace (Z.max (25 + e' - 24) (3 - 128 - 24) - e') with 1 in Er by lia.
    cbn [shr shr_record_of_loc shr_m SpecFloat.iter_pos shr_1] in Er.
    destruct (e' + 1 <=? 128 - 24); [|by left].
    right. exists 8388608%positive, (e' + 1). split; [done|]. split; [done|].
    right. lia.
Qed.

(** Rounding a positive number never gives NaN or a number of the other
    sign. *)
Lemma binary_round_aux_sign (s : bool) (m : positive) (e : Z) (l : location) :
  match binary_round_aux prec emax s (Z.pos m) e l with
  | S754_zero s' | S754_infinity s' | S754_finite s' _ _ => s' = s
  | S754_nan => False
  end.
Proof.
  unfold binary_round_aux.
  destruct (shr_fexp prec emax (Z.pos m) e l) as [mrs' e'] eqn:E1.
  assert (H1 : 0 ≤ shr_m mrs').
  { unfold shr_fexp in E1.
    set (n := fexp prec emax (Zdigits2 (Z.pos m) + e) - e) in E1.
    destruct (decide (0 ≤ n)) as [Hn|Hn].
    - destruct (shr_spec (shr_record_of_loc (Z.pos m) l) e n) as [E _];
        [by rewrite shr_record_of_loc_m | done |].
      rewrite E1 in E. cbn [fst] in E. rewrite E, shr_record_of_loc_m.
      apply Z.div_pos; [lia|]. apply Z.pow_pos_nonneg; lia.
    - destruct n as [|p|p]; [lia|lia|]. cbn [shr] in E1. inversion E1; subst.
      by rewrite shr_record_of_loc_m. }
  pose proof (round_nearest_even_range (shr_m mrs') (loc_of_shr_record mrs')) as Hr.
  set (m1' := round_nearest_even (shr_m mrs') (loc_of_shr_record mrs')) in *.
  destruct (shr_fexp prec emax m1' e' loc_Exact) as [mrs'' e''] eqn:E2.
  assert (H2 : 0 ≤ shr_m mrs'').
  { unfold shr_fexp in E2.
    set (n := fexp prec emax (Zdigits2 m1' + e') - e') in E2.
    destruct (decide (0 ≤ n)) as [Hn|Hn].
    - destruct (shr_spec (shr_record_of_loc m1' loc_Exact) e' n) as [E _];
        [cbn; lia | done |].
      rewrite E2 in E. cbn [fst] in E. rewrite E. cbn [shr_record_of_loc shr_m].
      apply Z.div_pos; [lia|]. apply Z.pow_pos_nonneg; lia.
    - destruct n as [|p|p]; [lia|lia|]. cbn [shr] in E2. inversion E2; subst.
      cbn. lia. }
  destruct (shr_m mrs'') as [|q|q]; [done| |lia].
  by destruct (e'' <=? emax - prec).
Qed.

(** Aligning a mantissa to a lower exponent multiplies it by a power
    of 2. *)
Lemma iter_xO (m d : positive) : Z.pos (Pos.iter xO m d) = Z.pos m * 2 ^ Z.pos d.
Proof.
  induction d as [|d IH] using Pos.peano_ind.
  - simpl. lia.
  - rewrite Pos.iter_succ, Pos2Z.inj_succ, Z.pow_succ_r, Pos2Z.inj_xO, IH by lia. ring.
Qed.

Lemma shl_align_spec (mx : positive) (ex ex' : Z) :
  ex' ≤ ex → Z.pos (shl_align mx ex ex').1 = Z.pos mx * 2 ^ (ex - ex').
Proof.
  intros H. unfold shl_align. destruct (ex' - ex) as [|d|d] eqn:E; [|lia|].
  - replace (ex - ex') with 0 by lia. simpl. lia.
  - cbn [fst]. rewrite iter_xO. f_equal. f_equal. lia.
Qed.

Lemma shl_align_id (mx : positive) (ex ex' : Z) :
  ex ≤ ex' → shl_align mx ex ex' = (mx, ex).
Proof. intros H. unfold shl_align. destruct (ex' - ex) eqn:E; [done|done|lia]. Qed.

(** Adding a number that is not negative to a number that is not below
    [mc * 2^ec] gives a number that is not below [mc * 2^ec]: the sum is
    rounded, but never below a [float]. *)
Lemma SFadd_at_least (mc : positive) (ec : Z) (a b : float32) :
  -149 ≤ ec →
  at_least32 mc ec a → SFleb (S754_zero false) b = true →
  at_least32 mc ec (SFadd prec emax a b).
Proof.
  intros Hec Ha Hb.
  destruct a as [| [] | |[] ma ea]; try done;
    destruct b as [sb|[]| |[] mb eb]; try done.
  destruct Ha as [Hda Hge]. cbn [SFadd cond_Zopp].
  set (ez := Z.min ea eb).
  pose proof (shl_align_spec ma ea ez ltac:(lia)) as Hma.
  pose proof (shl_align_spec mb eb ez ltac:(lia)) as Hmb.
  set (ma' := (shl_align ma ea ez).1) in *. set (mb' := (shl_align mb eb ez).1) in *.
  change (Z.pos ma' + Z.pos mb') with (Z.pos (ma' + mb')).
  unfold binary_normalize, binary_round.
  pose proof (digits2_pos_spec ma) as [Hla _]. rewrite Hda in Hla.
  pose proof (digits2_pos_spec (ma' + mb')) as [_ HuS].
  assert (Hpa : 0 < 2 ^ (ea - ez)) by (apply Z.pow_pos_nonneg; lia).
  assert (HS : Z.pos ma * 2 ^ (ea - ez) ≤ Z.pos (ma' + mb')) by lia.
  assert (Hd : 24 + (ea - ez) ≤ Z.pos (digits2_pos (ma' + mb'))).
  { assert (H : 2 ^ (23 + (ea - ez)) < 2 ^ Z.pos (digits2_pos (ma' + mb'))).
    { rewrite Z.pow_add_r by lia. change (24 - 1) with 23 in Hla. nia. }
    apply Z.pow_lt_mono_r_iff in H; lia. }
  rewrite shl_align_id by (unfold fexp, emin, prec, emax; lia).
  destruct (binary_round_aux_normal false (ma' + mb') ez loc_Exact ltac:(lia) ltac:(lia))
    as [-> | (m' & e' & -> & Hd' & He')]; [done|].
  split; [done|].
  destruct He' as [[-> Hm'] | ->]; [|lia].
  destruct (decide (ec < Z.pos (digits2_pos (ma' + mb')) + ez - 24)) as [|Heq]; [by left|].
  right. split; [lia|].
  assert (Hea : ea = ec) by lia.
  assert (Hds : Z.pos (digits2_pos (ma' + mb')) - 24 = ea - ez) by lia.
  rewrite Hds in Hm'.
  assert (Z.pos ma ≤ Z.pos (ma' + mb') `div` 2 ^ (ea - ez)).
  { apply Z.div_le_lower_bound; lia. }
  lia.
Qed.

(** The product of a number that is not negative and of a positive
    number is not negative, and it is not NaN. *)
Lemma SFmul_nonneg (w : float32) (mk : positive) (ek : Z) :
  SFleb (S754_zero false) w = true →
  SFleb (S754_zero false) (SFmul prec emax w (S754_finite false mk ek)) = true.
Proof.
  intros Hw. destruct w as [sw|[]| |[] mw ew]; try done.
  cbn [SFmul xorb].
  pose proof (binary_round_aux_sign false (mw * mk) (ew + ek) loc_Exact) as H.
  destruct (binary_round_aux _ _ _ _ _ _) as [s'|s'| |s' ? ?]; try done; by subst.
Qed.

(** A number that is not below [mc * 2^ec] compares as such. *)
Lemma SFleb_at_least (mc : positive) (ec : Z) (x : float32) :
  at_least32 mc ec x → SFleb (S754_finite false mc ec) x = true.
Proof.
  destruct x as [| [] | |[] m e]; try done. intros [_ H].
  unfold SFleb, SFcompare.
  destruct H as [H | [-> H]].
  - by rewrite (proj2 (Z.compare_lt_iff ec e) H).
  - rewrite Z.compare_refl.
    change (Pos.compare_cont Eq mc m) with (mc ?= m)%positive.
    destruct (Pos.compare_spec mc m); [done|done|lia].
Qed.

(** What is below a number is below every number that is at least as
    large. *)
Lemma SFltb_at_least (eps : float32) (mc mc' : positive) (ec ec' : Z) (x : float32) :
  SFltb eps (S754_finite false mc ec) = true →
  ec < ec' ∨ (ec = ec' ∧ Z.pos mc ≤ Z.pos mc') →
  at_least32 mc' ec' x → SFltb eps x = true.
Proof.
  intros Heps Hc Hx.
  destruct x as [| [] | |[] m e]; try done.
  - destruct eps as [|[]| |[] ? ?]; done.
  - destruct Hx as [_ Hx].
    destruct eps as [|[]| |[] me ee]; try done.
    unfold SFltb, SFcompare in *.
    destruct (Z.compare_spec ee ec) as [->|Hlt|Hgt]; [| |done].
    + change (Pos.compare_cont Eq me mc) with (me ?= mc)%positive in Heps.
      destruct (Pos.compare_spec me mc) as [?|Hlt|?]; try done.
      destruct (Z.compare_spec ec e) as [->|?|?]; [|done|lia].
      change (Pos.compare_cont Eq me m) with (me ?= m)%positive.
      by rewrite (proj2 (Pos.compare_lt_iff me m)) by lia.
    + by rewrite (proj2 (Z.compare_lt_iff ee e)) by lia.
Qed.

End Binary32Rounding.

(** ** Binary32 arithmetic: the weight sum of the filter *)

Section Binary32Filter.
Import Float32.
Context {E : Engine float32} {L : LibM float32}.

(** The products of two weights of a kernel are positive numbers, and
    the square of the centre weight has a mantissa of 24 digits and is
    at least 9/64. *)
Lemma GetKernel_binary32 (radius : Z) (kernelWeights : list float32) :
  GetKernel radius = Ok kernelWeights →
  Forall (λ kernelX, Forall (λ kernelY,
            ∃ m e, kernelX ⊗ kernelY = S754_finite false m e) kernelWeights)
    kernelWeights
  ∧ ∃ kernel0 mc ec,
      kernelWeights !! 0%nat = Some kernel0
      ∧ kernel0 ⊗ kernel0 = S754_finite false mc ec
      ∧ at_least32 mc ec (kernel0 ⊗ kernel0)
      ∧ -149 ≤ ec
      ∧ (-26 < ec ∨ (-26 = ec ∧ 9437184 ≤ Z.pos mc)).
Proof.
  intros H. apply GetKernel_Ok in H as [[_ ->]|[[_ ->]|[_ ->]]].
  - split; [repeat constructor; vm_compute; eauto|].
    eexists _, _, _. split; [reflexivity|]. split; [vm_compute; reflexivity|].
    vm_compute. intuition (try discriminate; auto).
  - split; [repeat constructor; vm_compute; eauto|].
    eexists _, _, _. split; [reflexivity|]. split; [vm_compute; reflexivity|].
    vm_compute. intuition (try discriminate; auto).
  - split; [repeat constructor; vm_compute; eauto|].
    eexists _, _, _. split; [reflexivity|]. split; [vm_compute; reflexivity|].
    vm_compute. intuition (try discriminate; auto).
Qed.

(** A tap leaves the weight sum at least as large as a bound it has
    reached, whenever the weight of the tap is not negative. *)
Lemma FilterIndirectLight_tap_binary32 (buffer : list (Vector4 float32))
    (bakedGeometry : Geometry.LightmapChartBakedGeometry float32)
    (params : IndirectFilterParameters float32) (kernelWeights : list float32)
    centerLocation centerLuminance centerPosition centerNormal
    (mc : positive) (ec dy dx : Z) (acc acc' : Vector4 float32 * float32) :
  Forall (λ kernelX, Forall (λ kernelY,
            ∃ m e, kernelX ⊗ kernelY = S754_finite false m e) kernelWeights)
    kernelWeights →
  -149 ≤ ec →
  every_weight (λ weight, SFleb (of_int 0) weight = true) buffer bakedGeometry params
    centerLocation centerLuminance centerPosition centerNormal →
  - kernelRadius_ params ≤ dy ≤ kernelRadius_ params →
  - kernelRadius_ params ≤ dx ≤ kernelRadius_ params →
  FilterIndirectLight_tap buffer bakedGeometry params kernelWeights centerLocation
    centerLuminance centerPosition centerNormal dy dx acc = Ok acc' →
  at_least32 mc ec acc.2 → at_least32 mc ec acc'.2.
Proof.
  intros Hk Hec Hw Hdy Hdx H Hacc. unfold FilterIndirectLight_tap in H.
  destruct (bool_decide (dx = 0) && bool_decide (dy = 0)) eqn:Hcentre;
    [by inversion H; subst|].
  destruct (negb _) eqn:Hvalid; [by inversion H; subst|].
  apply negb_false_iff in Hvalid.
  inv_Ok H. destruct (decide (a1 = 0)) as [|Hid]; [by inversion H; subst|].
  inv_Ok H.
  assert (Hne : ¬ (dx = 0 ∧ dy = 0)).
  { intros [-> ->]. by rewrite !bool_decide_eq_true_2 in Hcentre. }
  pose proof (Hw dy dx a1 a2 a3 a4 Hdy Hdx Hne Hvalid Ha1 Hid Ha2 Ha3 Ha4) as Hweight.
  cbv beta in Hweight.
  set (weight := CalculateEdgeWeight _ _ _ _ _ _ _ _ _) in H, Hweight.
  clearbody weight. inversion H; subst. cbn [snd].
  apply at_index_Ok in Ha as [_ Hx], Ha0 as [_ Hy].
  pose proof (Forall_lookup_1 _ _ _ _ Hk Hx) as Hkx. cbv beta in Hkx.
  destruct (Forall_lookup_1 _ _ _ _ Hkx Hy) as (m & e & Hke).
  change (a ⊗ a0) with (SFmul prec emax a a0) in Hke. rewrite Hke.
  apply SFadd_at_least; [done|done|]. by apply SFmul_nonneg.
Qed.

(** So do the two loops over the taps. *)
Lemma FilterIndirectLight_gather_binary32 (buffer : list (Vector4 float32))
    (bakedGeometry : Geometry.LightmapChartBakedGeometry float32)
    (params : IndirectFilterParameters float32) (kernelWeights : list float32)
    centerLocation centerLuminance centerPosition centerNormal
    (mc : positive) (ec : Z) (acc acc' : Vector4 float32 * float32) :
  Forall (λ kernelX, Forall (λ kernelY,
            ∃ m e, kernelX ⊗ kernelY = S754_finite false m e) kernelWeights)
    kernelWeights →
  -149 ≤ ec →
  every_weight (λ weight, SFleb (of_int 0) weight = true) buffer bakedGeometry params
    centerLocation centerLuminance centerPosition centerNormal →
  FilterIndirectLight_gather buffer bakedGeometry params kernelWeights centerLocation
    centerLuminance centerPosition centerNormal acc = Ok acc' →
  at_least32 mc ec acc.2 → at_least32 mc ec acc'.2.
Proof.
  intros Hk Hec Hw H Hacc. unfold FilterIndirectLight_gather in H.
  pose proof (kernel_offsets_range (kernelRadius_ params)) as Hrange.
  rewrite list.Forall_forall in Hrange.
  refine (foldM_inv_elem (λ a : Vector4 float32 * float32, at_least32 mc ec a.2)
            _ _ _ _ _ H Hacc).
  intros dy s s' Hdy Hrow Hs.
  refine (foldM_inv_elem (λ a : Vector4 float32 * float32, at_least32 mc ec a.2)
            _ _ _ _ _ Hrow Hs).
  intros dx t t' Hdx Htap Ht.
  exact (FilterIndirectLight_tap_binary32 _ _ _ _ _ _ _ _ mc ec dy dx t t' Hk Hec Hw
           (Hrange dy Hdy) (Hrange dx Hdx) Htap Ht).
Qed.

(** In binary32 the weight sum of a texel is at least
    [kernel[0] * kernel[0]], which is above [M_EPSILON], whenever no
    weight gathered for the texel is NaN or negative. *)
Lemma FilterIndirectLight_weight_sum_binary32 (buffer : list (Vector4 float32))
    (bakedGeometry : Geometry.LightmapChartBakedGeometry float32)
    (params : IndirectFilterParameters float32) :
  fltb M_EPSILON (of_int 9 ⊘ of_int 64) = true →
  0 ≤ kernelRadius_ params ≤ 2 →
  ∃ kernelWeights kernel0,
    GetKernel (kernelRadius_ params) = Ok kernelWeights
    ∧ kernelWeights !! 0%nat = Some kernel0
    ∧ fltb M_EPSILON (kernel0 ⊗ kernel0) = true
    ∧ ∀ centerLocation centerLuminance centerPosition centerNormal
        (colorSum : Vector4 float32) (acc : Vector4 float32 * float32),
        every_weight (λ weight, SFleb (of_int 0) weight = true) buffer bakedGeometry
          params centerLocation centerLuminance centerPosition centerNormal →
        FilterIndirectLight_gather buffer bakedGeometry params kernelWeights
          centerLocation centerLuminance centerPosition centerNormal
          (colorSum, kernel0 ⊗ kernel0) = Ok acc →
        SFleb (kernel0 ⊗ kernel0) acc.2 = true
        ∧ fltb M_EPSILON acc.2 = true
        ∧ fmax M_EPSILON acc.2 = acc.2.
Proof.
  intros Heps Hr.
  assert (Hk : ∃ kernelWeights : list float32,
             GetKernel (kernelRadius_ params) = Ok kernelWeights).
  { assert (kernelRadius_ params = 0 ∨ kernelRadius_ params = 1
            ∨ kernelRadius_ params = 2) as [->|[->| ->]] by lia; simpl; eauto. }
  destruct Hk as [kernelWeights Hk].
  destruct (GetKernel_binary32 _ _ Hk)
    as (Hpairs & kernel0 & mc & ec & Hk0 & Hsq & Hat & Hec & Hlow).
  change (of_int 9 ⊘ of_int 64) with (S754_finite false 9437184 (-26)) in Heps.
  exists kernelWeights, kernel0.
  split; [done|]. split; [done|].
  split. { apply (SFltb_at_least _ _ _ _ _ _ Heps Hlow Hat). }
  intros centerLocation centerLuminance centerPosition centerNormal colorSum acc Hw H.
  apply (FilterIndirectLight_gather_binary32 _ _ _ _ _ _ _ _ mc ec _ _ Hpairs Hec Hw)
    in H; [|done].
  cbn [snd] in H.
  assert (Hlt : fltb M_EPSILON acc.2 = true).
  { apply (SFltb_at_least _ _ _ _ _ _ Heps Hlow H). }
  split. { pose proof (SFleb_at_least _ _ _ H) as Hle. by rewrite <- Hsq in Hle. }
  split; [done|].
  unfold fmax. by rewrite Hlt.
Qed.

End Binary32Filter.

Section Binary32Weight.
Import Float32.
Context {E : Engine float32} {L : LibM float32}.

(** The product of two numbers that are not negative is not negative,
    unless it is NaN (infinity times zero). *)
Lemma SFmul_nonneg_or_nan (a b : float32) :
  SFleb (S754_zero false) a = true → SFleb (S754_zero false) b = true →
  SFmul prec emax a b = S754_nan
  ∨ SFleb (S754_zero false) (SFmul prec emax a b) = true.
Proof.
  intros Ha Hb.
  destruct a as [sa|[]| |[] ma ea]; try done;
    destruct b as [sb|[]| |[] mb eb]; try done; auto.
  right. by apply SFmul_nonneg.
Qed.

(** [max(0.0f, d)] is never negative and never NaN. *)
Lemma fmax_0_nonneg (d : float32) : SFleb (S754_zero false) (fmax (of_int 0) d) = true.
Proof.
  destruct d as [[]|[]| |[] m e]; reflexivity.
Qed.

(** An edge-stopping weight is NaN or not negative, when [std::exp] and
    [Pow] return NaN or a number that is not negative. *)
Lemma CalculateEdgeWeight_binary32
    (luminance1 luminance2 luminanceSigma : float32)
    (position1 position2 : Vector3 float32) (positionSigma : float32)
    (normal1 normal2 : Vector3 float32) (normalPower : float32) :
  (∀ x : float32, exp x = S754_nan ∨ SFleb (of_int 0) (exp x) = true) →
  (∀ d y : float32, Pow (fmax (of_int 0) d) y = S754_nan
          ∨ SFleb (of_int 0) (Pow (fmax (of_int 0) d) y) = true) →
  CalculateEdgeWeight luminance1 luminance2 luminanceSigma
    position1 position2 positionSigma normal1 normal2 normalPower = S754_nan
  ∨ SFleb (of_int 0)
      (CalculateEdgeWeight luminance1 luminance2 luminanceSigma
         position1 position2 positionSigma normal1 normal2 normalPower) = true.
Proof.
  intros Hexp HPow. unfold CalculateEdgeWeight.
  set (x := of_int 0 ⊖ _ ⊖ _). set (d := DotProduct normal1 normal2).
  destruct (Hexp x) as [-> | He]; [by left|].
  destruct (HPow d normalPower) as [-> | Hp].
  - left. change (exp x ⊗ S754_nan) with (SFmul prec emax (exp x) S754_nan).
    by destruct (exp x) as [|[]| |[] ? ?].
  - by apply SFmul_nonneg_or_nan.
Qed.
End Binary32Weight.

(** Evaluating the arguments of [Pow] first. *)
Ltac eval_Pow_arguments :=
  repeat match goal with
  | |- context [Pow ?x ?y] =>
    lazymatch x with
    | S754_finite _ _ _ => fail
    | S754_zero _ => fail
    | S754_infinity _ => fail
    | S754_nan => fail
    | _ => let x' := eval vm_compute in x in change x with x'
    end
  end.

(** ** Exact arithmetic: the weights of the filter *)

Section ExactWeights.
Local Open Scope R_scope.
Context {E : Engine R} {L : LibM R}.
Hypothesis exp_nonneg : ∀ x : R, 0 <= exp x.
Hypothesis Pow_nonneg : ∀ x y : R, 0 <= x → 0 <= Pow x y.

(** In exact arithmetic no weight of the gather is negative. *)
Lemma every_weight_nonneg (buffer : list (Vector4 R))
    (bakedGeometry : Geometry.LightmapChartBakedGeometry R)
    (params : IndirectFilterParameters R)
    centerLocation centerLuminance centerPosition centerNormal :
  every_weight (λ weight, 0 <= weight) buffer bakedGeometry params
    centerLocation centerLuminance centerPosition centerNormal.
Proof.
  intros dy dx otherGeometryId otherColor otherPosition otherNormal _ _ _ ? ? _ _ _ _ _ _.
  by apply CalculateEdgeWeight_nonneg.
Qed.
End ExactWeights.

(** The length of a tap offset other than (0, 0) is not 0. *)
Lemma Length2_real_nonzero (dx dy : Z) :
  ¬ (dx = 0 ∧ dy = 0) →
  Length2 (Engine:=Exact.real_engine) (mkVector2 (of_int dx) (of_int dy)) ≠ 0%R.
Proof.
  intros Hne H. simpl in H.
  apply sqrt_eq_0 in H; [|nra].
  assert (Hx : IZR dx = 0%R) by nra. assert (Hy : IZR dy = 0%R) by nra.
  apply eq_IZR_R0 in Hx, Hy. auto.
Qed.


(** * The claims *)

(** ** C1: texels without geometry *)

(** C1, as stated, fails for the filter: the filter does not store
    anything for a texel without geometry, and the exchange of the buffers
    then makes the old [lightSwap_] entry the current one.  Here
    [light_] holds (1, 1, 1, 1) and [lightSwap_] holds zero before the
    call; after it [light_] holds zero. *)
Lemma filter_replaces_empty_texel :
  Geometry.geometryIds_ ExactInputs.empty_geometry !! 0%nat = Some 0
  ∧ ∃ bakedIndirect',
      FilterIndirectLight ExactInputs.stale_indirect ExactInputs.empty_geometry
        (ExactInputs.filter_radius 1) 1 = Ok bakedIndirect'
      ∧ Indirect.light_ bakedIndirect' !! 0%nat = Some Vector4_zero
      ∧ Indirect.light_ bakedIndirect' !! 0%nat
        ≠ Indirect.light_ ExactInputs.stale_indirect !! 0%nat.
Proof.
  split; [reflexivity|].
  exists (Indirect.mk 1 1 [Vector4_zero] [mkVector4 1%R 1%R 1%R 1%R]).
  split; [vm_compute; reflexivity|]. split; [reflexivity|].
  simpl. unfold Vector4_zero. simpl. intros H. inversion H. lra.
Qed.

(** C1, amended: a texel whose geometry id is 0 keeps its value in the
    direct buffer through [BakeDirectionalLight] and in the [light_] buffer
    through [BakeIndirectLight] (which also leaves [lightSwap_] alone);
    [FilterIndirectLight] stores nothing for it, so that after the exchange
    of the buffers its [light_] entry is the [lightSwap_] entry of before
    the call, and [lightSwap_] is the [light_] buffer of before the call.
    When the two buffers agree on the texel before the filter is called,
    its [light_] entry is therefore unchanged, and the buffers still
    agree on it. *)
Theorem empty_texel_untouched {F : Type} `{!FloatOps F} `{!Engine F}
    (bakedGeometry : Geometry.LightmapChartBakedGeometry F) (i : nat) :
  Geometry.geometryIds_ bakedGeometry !! i = Some 0 →
  (∀ bakedDirect embreeScene light settings bakedDirect',
     BakeDirectionalLight bakedDirect bakedGeometry embreeScene light settings
       = Ok bakedDirect' →
     Direct.light_ bakedDirect' !! i = Direct.light_ bakedDirect !! i)
  ∧ (∀ fuel bakedIndirect bakedDirect embreeScene settings rng bakedIndirect' rng',
       BakeIndirectLight fuel bakedIndirect bakedDirect bakedGeometry embreeScene
         settings rng = Ok (bakedIndirect', rng') →
       Indirect.light_ bakedIndirect' !! i = Indirect.light_ bakedIndirect !! i
       ∧ Indirect.lightSwap_ bakedIndirect' = Indirect.lightSwap_ bakedIndirect)
  ∧ (∀ `{!LibM F} bakedIndirect params numThreads bakedIndirect',
       FilterIndirectLight bakedIndirect bakedGeometry params numThreads
         = Ok bakedIndirect' →
       Indirect.light_ bakedIndirect' !! i = Indirect.lightSwap_ bakedIndirect !! i
       ∧ Indirect.lightSwap_ bakedIndirect' = Indirect.light_ bakedIndirect
       ∧ (Indirect.light_ bakedIndirect !! i = Indirect.lightSwap_ bakedIndirect !! i →
          Indirect.light_ bakedIndirect' !! i = Indirect.light_ bakedIndirect !! i
          ∧ Indirect.light_ bakedIndirect' !! i
            = Indirect.lightSwap_ bakedIndirect' !! i)).
Proof.
  intros Hid. split; [|split].
  - intros bakedDirect embreeScene light settings bakedDirect'.
    by apply BakeDirectionalLight_empty_texel.
  - intros fuel bakedIndirect bakedDirect embreeScene settings rng bakedIndirect' rng'.
    by apply BakeIndirectLight_empty_texel.
  - intros ? bakedIndirect params numThreads bakedIndirect' H.
    apply (FilterIndirectLight_empty_texel _ _ _ _ _ i Hid) in H as [H1 H2].
    split; [done|]. split; [done|]. intros Hagree.
    rewrite H1, H2. done.
Qed.

Lemma empty_texel_untouched_witness :
  Geometry.geometryIds_ ExactInputs.empty_geometry !! 0%nat = Some 0
  ∧ ∃ bakedIndirect',
      FilterIndirectLight ExactInputs.stale_indirect ExactInputs.empty_geometry
        (ExactInputs.filter_radius 1) 1 = Ok bakedIndirect'
      ∧ Indirect.light_ bakedIndirect' !! 0%nat
        = Indirect.lightSwap_ ExactInputs.stale_indirect !! 0%nat
      ∧ Indirect.lightSwap_ bakedIndirect' = Indirect.light_ ExactInputs.stale_indirect.
Proof.
  split; [reflexivity|].
  exists (Indirect.mk 1 1 [Vector4_zero] [mkVector4 1%R 1%R 1%R 1%R]).
  assert (Hcall : FilterIndirectLight ExactInputs.stale_indirect
                    ExactInputs.empty_geometry (ExactInputs.filter_radius 1) 1
                  = Ok (Indirect.mk 1 1 [Vector4_zero] [mkVector4 1%R 1%R 1%R 1%R]))
    by (vm_compute; reflexivity).
  split; [exact Hcall|].
  destruct (proj2 (proj2 (empty_texel_untouched ExactInputs.empty_geometry 0 eq_refl))
              _ _ _ _ _ Hcall) as (H1 & H2 & _).
  exact (conj H1 H2).
Defined.

(** ** C2: the chunks of ParallelFor *)

(** C2, as stated, fails when [count + numThreads - 1] wraps around: with
    [count = 4294967295] and [numThreads = 2] the chunk size is computed
    as 0, both tasks receive the empty range [0, 0) and no index is
    visited. *)
Lemma ParallelFor_wraps_around :
  chunkSize 4294967295 2 = 0
  ∧ ParallelFor_chunks 4294967295 2 = [(0, 0); (0, 0)]
  ∧ ParallelFor_indices 4294967295 2 = []
  ∧ ¬ (∀ k, 0 ≤ k < 4294967295 → k ∈ ParallelFor_indices 4294967295 2).
Proof.
  assert (Hidx : ParallelFor_indices 4294967295 2 = []) by (vm_compute; reflexivity).
  split; [vm_compute; reflexivity|].
  split; [vm_compute; reflexivity|].
  split; [exact Hidx|].
  intros Hall. specialize (Hall 0 ltac:(lia)). rewrite Hidx in Hall.
  by apply not_elem_of_nil in Hall.
Qed.

(** C2, amended: for [0 <= count], [1 <= numThreads] and
    [count + numThreads <= 2^32] (no wrap-around in
    [count + numThreads - 1]), [chunkSize] is the ceiling of
    [count / numThreads], task [i] receives
    [[i * chunkSize, min(i * chunkSize + chunkSize, count))], the indices
    visited by the tasks taken in order are exactly [0, 1, ..., count - 1],
    each once, and [ParallelFor] is the composition of the callbacks on all
    the chunks: its result exists only when every callback has returned. *)
Theorem ParallelFor_partition (count numThreads : Z) :
  0 ≤ count → 1 ≤ numThreads → count + numThreads ≤ 2 ^ 32 →
  chunkSize count numThreads = (count + numThreads - 1) `div` numThreads
  ∧ count ≤ chunkSize count numThreads * numThreads
  ∧ (chunkSize count numThreads - 1) * numThreads < count
  ∧ (∀ i, 0 ≤ i < numThreads →
       fromIndex count numThreads i = i * chunkSize count numThreads
       ∧ toIndex count numThreads i
         = Z.min (i * chunkSize count numThreads + chunkSize count numThreads) count)
  ∧ ParallelFor_indices count numThreads = seqZ 0 count
  ∧ NoDup (ParallelFor_indices count numThreads)
  ∧ (∀ k, k ∈ ParallelFor_indices count numThreads ↔ 0 ≤ k < count)
  ∧ (∀ (St : Type) (callback : Z → Z → St → Outcome St) (s : St),
       ParallelFor count numThreads callback s
       = foldM (λ c : Z * Z, callback c.1 c.2) (ParallelFor_chunks count numThreads) s)
  ∧ (∀ (St : Type) (body : Z → St → Outcome St) (s : St),
       ParallelFor count numThreads
         (λ fromIndex toIndex, for_range fromIndex toIndex body) s
       = foldM body (seqZ 0 count) s).
Proof.
  intros Hc Hn Hfit.
  pose proof (ParallelFor_indices_exact count numThreads Hc Hn Hfit) as Hidx.
  destruct (chunkSize_ceil count numThreads Hc Hn Hfit) as [Hceil1 Hceil2].
  split; [by apply chunkSize_exact|].
  split; [done|]. split; [done|].
  split. { intros i Hi. split; [by apply fromIndex_exact | by apply toIndex_exact]. }
  split; [done|].
  split. { rewrite Hidx. apply NoDup_seqZ. }
  split. { intros k. rewrite Hidx, elem_of_seqZ. lia. }
  split. { intros St callback s. by apply ParallelFor_on_chunks. }
  intros St body s. rewrite ParallelFor_for_range by done.
  unfold for_range, loop_indices. by rewrite Z.sub_0_r.
Qed.

Lemma ParallelFor_partition_witness :
  0 ≤ 10 ∧ 1 ≤ 4 ∧ 10 + 4 ≤ 2 ^ 32
  ∧ ParallelFor_chunks 10 4 = [(0, 3); (3, 6); (6, 9); (9, 10)]
  ∧ ParallelFor_indices 10 4 = seqZ 0 10.
Proof.
  split; [lia|]. split; [lia|]. split; [lia|].
  split; [vm_compute; reflexivity|].
  apply (ParallelFor_partition 10 4); lia.
Defined.

(** ** C3: no bounce, or no hit *)

(** C3, as stated, fails: what is added is [Vector4(indirectLighting, 1)],
    so a texel with geometry has its alpha incremented even when no
    radiance was gathered.  With no bounce, the entry (0, 0, 0, 0) of the
    only texel becomes (0, 0, 0, 1). *)
Lemma BakeIndirectLight_counts_the_pass :
  numBounces_ (Float32Inputs.one_thread 0) = 0
  ∧ ∃ bakedIndirect',
      BakeIndirectLight 0 Float32Inputs.black_indirect [] Float32Inputs.one_texel
        Float32Inputs.open_sky (Float32Inputs.one_thread 0) []
      = Ok (bakedIndirect', [])
      ∧ Indirect.light_ bakedIndirect' !! 0%nat
        = Some (mkVector4 (F:=Float32.float32)
                  (of_int 0) (of_int 0) (of_int 0) (of_int 1))
      ∧ Indirect.light_ bakedIndirect' !! 0%nat
        ≠ Indirect.light_ Float32Inputs.black_indirect !! 0%nat.
Proof.
  split; [reflexivity|].
  eexists. split; [vm_compute; reflexivity|]. split; [vm_compute; reflexivity|].
  vm_compute. discriminate.
Qed.

(** C3, amended: in a call of [BakeIndirectLight] (one thread at least, no
    wrap-around of the texel count), every texel with geometry is visited
    in a state of its task that the call determines; when [numBounces] is
    0, or every ray cast along the path of the texel from that state
    misses, the call adds (0, 0, 0, 1) to the entry of the texel: no
    radiance, and 1 to alpha.  The entry of a texel without geometry is
    left as it is.  With [numBounces = 0], on a chart whose geometry
    covers the buffer, the call returns and draws no random number. *)
Theorem BakeIndirectLight_without_hits {F : Type} `{!FloatOps F} `{!Engine F}
    (fuel : nat) (bakedIndirect : Indirect.LightmapChartBakedIndirect F)
    (bakedDirect : list (Direct.LightmapChartBakedDirect F))
    (bakedGeometry : Geometry.LightmapChartBakedGeometry F)
    (embreeScene : EmbreeScene F) (settings : LightmapTracingSettings F)
    (rng : Rng) :
  1 ≤ numThreads_ settings →
  Z.of_nat (length (Indirect.light_ bakedIndirect)) + numThreads_ settings ≤ 2 ^ 32 →
  (numBounces_ settings = 0 →
   0 ≤ MaxBounces →
   (length (Indirect.light_ bakedIndirect)
    ≤ length (Geometry.geometryPositions_ bakedGeometry))%nat →
   (length (Indirect.light_ bakedIndirect)
    ≤ length (Geometry.smoothNormals_ bakedGeometry))%nat →
   (length (Indirect.light_ bakedIndirect)
    ≤ length (Geometry.geometryIds_ bakedGeometry))%nat →
   ∃ result,
     BakeIndirectLight fuel bakedIndirect bakedDirect bakedGeometry embreeScene
       settings rng = Ok (result, rng))
  ∧ ∀ (bakedIndirect' : Indirect.LightmapChartBakedIndirect F) (rng' : Rng),
      BakeIndirectLight fuel bakedIndirect bakedDirect bakedGeometry embreeScene settings rng
        = Ok (bakedIndirect', rng') →
      ∀ (i : nat) (old : Vector4 F) (position smoothNormal : Vector3 F) (geometryId : Z),
        Indirect.light_ bakedIndirect !! i = Some old →
        Geometry.geometryPositions_ bakedGeometry !! i = Some position →
        Geometry.smoothNormals_ bakedGeometry !! i = Some smoothNormal →
        Geometry.geometryIds_ bakedGeometry !! i = Some geometryId →
        (geometryId = 0 → Indirect.light_ bakedIndirect' !! i = Some old)
        ∧ (geometryId ≠ 0 →
           (∃ ts, BakeIndirectLight_visit fuel bakedIndirect bakedDirect bakedGeometry
                    embreeScene settings rng (Z.of_nat i) ts)
           ∧ ∀ ts,
               BakeIndirectLight_visit fuel bakedIndirect bakedDirect bakedGeometry
                 embreeScene settings rng (Z.of_nat i) ts →
               numBounces_ settings = 0
                 ∨ Forall (λ ray, cast_ray (GetEmbreeScene embreeScene) ray = None)
                     (path_rays fuel bakedDirect embreeScene settings
                        (loop_indices 0 (numBounces_ settings))
                        (mkPathState 0 position smoothNormal (task_arrays ts) (task_rng ts))) →
               Indirect.light_ bakedIndirect' !! i
               = Some (mkVector4 (x4_ old ⊕ of_int 0) (y4_ old ⊕ of_int 0)
                                 (z4_ old ⊕ of_int 0) (w4_ old ⊕ of_int 1))).
Proof.
  intros Hn Hfit. split.
  { intros Hzero Hmax Hp Hnrm Hid.
    apply BakeIndirectLight_no_bounce_total; try done. lia. }
  intros bakedIndirect' rng' H i old position smoothNormal geometryId Hold Hp Hnrm Hid.
  destruct (BakeIndirectLight_at fuel _ _ _ _ _ _ _ _ Hn Hfit H i
              (lookup_lt_Some _ _ _ Hold)) as (ts & ts' & Hv & Ht & Hpre & Hpost).
  rewrite Hold in Hpre. split.
  - intros Hz. rewrite Hpost.
    apply BakeIndirectLight_texel_spec in Ht as (f & (gid & L & Hgid & _ & ->) & ->).
    rewrite Nat2Z.id in *. rewrite list_lookup_alter_eq, Hpre. simpl.
    rewrite Hid in Hgid. inversion Hgid; subst gid.
    destruct (decide (geometryId = 0)); done.
  - intros Hne. split; [eauto|]. intros ts2 Hv2 Hno.
    rewrite (BakeIndirectLight_visit_unique fuel _ _ _ _ _ _ Hn Hfit _ _ _ Hv2 Hv) in Hno.
    rewrite Hpost.
    rewrite <- (Nat2Z.id i) at 1.
    apply (BakeIndirectLight_texel_misses fuel bakedDirect bakedGeometry embreeScene
             settings (Z.of_nat i) ts ts' position smoothNormal geometryId old);
      rewrite ?Nat2Z.id; done.
Qed.

Lemma BakeIndirectLight_without_hits_witness :
  1 ≤ numThreads_ (Float32Inputs.one_thread 1)
  ∧ Z.of_nat (length (Indirect.light_ Float32Inputs.black_indirect))
      + numThreads_ (Float32Inputs.one_thread 1) ≤ 2 ^ 32
  ∧ BakeIndirectLight 1 Float32Inputs.black_indirect [] Float32Inputs.one_texel
      Float32Inputs.open_sky (Float32Inputs.one_thread 1)
      (Float32Room.draw Float32Inputs.up)
    = Ok (Float32Inputs.counted_indirect, [])
  ∧ Indirect.light_ Float32Inputs.counted_indirect !! 0%nat
    = Some (mkVector4 (F:=Float32.float32)
              (of_int 0 ⊕ of_int 0) (of_int 0 ⊕ of_int 0)
              (of_int 0 ⊕ of_int 0) (of_int 0 ⊕ of_int 1)).
Proof.
  assert (H1 : 1 ≤ numThreads_ (Float32Inputs.one_thread 1)) by (simpl; lia).
  assert (H2 : Z.of_nat (length (Indirect.light_ Float32Inputs.black_indirect))
               + numThreads_ (Float32Inputs.one_thread 1) ≤ 2 ^ 32) by (simpl; lia).
  assert (H3 : BakeIndirectLight 1 Float32Inputs.black_indirect []
                 Float32Inputs.one_texel Float32Inputs.open_sky
                 (Float32Inputs.one_thread 1) (Float32Room.draw Float32Inputs.up)
               = Ok (Float32Inputs.counted_indirect, []))
    by (vm_compute; reflexivity).
  split; [exact H1|]. split; [exact H2|]. split; [exact H3|].
  assert (H4 : (1 : Z) ≠ 0) by discriminate.
  assert (Hv : BakeIndirectLight_visit 1 Float32Inputs.black_indirect []
                 Float32Inputs.one_texel Float32Inputs.open_sky
                 (Float32Inputs.one_thread 1) (Float32Room.draw Float32Inputs.up) 0
                 (mkTaskState BounceArrays_fresh
                    (Indirect.light_ Float32Inputs.black_indirect)
                    (Float32Room.draw Float32Inputs.up))).
  { exists 0, (Indirect.light_ Float32Inputs.black_indirect,
               Float32Room.draw Float32Inputs.up).
    split; [simpl; lia|]. split; [vm_compute; split; [discriminate | reflexivity]|].
    split; reflexivity. }
  refine (proj2 (proj2 (proj2 (BakeIndirectLight_without_hits 1 _ _ _ _ _ _ H1 H2)
                                 _ _ H3 0%nat Vector4_zero Vector3_zero
                                 Float32Inputs.up 1 eq_refl eq_refl eq_refl eq_refl)
                          H4) _ Hv _).
  right. repeat constructor.
Defined.

(** ** C4: one directional light *)

(** C4, as stated, fails in two ways.  The term that is added is computed
    from the normalized light direction
    ([-light.direction_.Normalized()]), not from the light direction: a
    white light of direction (0, 0, -2) over a texel that faces up, under
    an open sky, adds (1, 1, 1), where
    [lightColor * visibility * max(0, dot(smoothNormal, -lightDirection))]
    is (2, 2, 2).  And when [count + numThreads - 1] wraps around, no
    texel is lit: with two texels and 2^32 - 1 threads the chunk size is
    computed as 0 and the buffer comes back as it was, though both texels
    have geometry and the light gives a texel that it reaches
    (1, 1, 1). *)
Lemma BakeDirectionalLight_not_as_stated :
  direction_ Float32Slant.long_light
  = mkVector3 (F:=Float32.float32) (of_int 0) (of_int 0) (of_int (-2))
  ∧ (∃ bakedDirect',
       BakeDirectionalLight Float32Inputs.black_direct Float32Inputs.one_texel
         Float32Inputs.open_sky Float32Slant.long_light (Float32Inputs.one_thread 0)
       = Ok bakedDirect'
       ∧ Direct.light_ bakedDirect' !! 0%nat
         = Some (mkVector3 (F:=Float32.float32) (of_int 1) (of_int 1) (of_int 1)))
  ∧ (let reversed := v3neg (direction_ Float32Slant.long_light) in
     cast_ray (GetEmbreeScene Float32Inputs.open_sky)
       (shadow_ray reversed (GetMaxDistance Float32Inputs.open_sky) Vector3_zero)
     = None
     ∧ v3add Vector3_zero
         (v3scale (v3scale (ToVector3 (color_ Float32Slant.long_light)) (of_int 1))
            (fmax (of_int 0) (DotProduct Float32Inputs.up reversed)))
       = mkVector3 (F:=Float32.float32) (of_int 2) (of_int 2) (of_int 2))
  ∧ numThreads_ Float32Slant.crowd = 4294967295
  ∧ Geometry.geometryIds_ Float32Flat.flat_geometry = [1; 1]
  ∧ BakeDirectionalLight Float32Slant.two_black_direct Float32Flat.flat_geometry
      Float32Inputs.open_sky Float32Inputs.zenith_light Float32Slant.crowd
    = Ok Float32Slant.two_black_direct
  ∧ light_contribution Float32Inputs.open_sky Float32Inputs.zenith_light
      Vector3_zero Float32Inputs.up
    = mkVector3 (F:=Float32.float32) (of_int 1) (of_int 1) (of_int 1).
Proof.
  split; [reflexivity|].
  split. { eexists. split; [vm_compute; reflexivity|reflexivity]. }
  split. { split; vm_compute; reflexivity. }
  split; [reflexivity|]. split; [reflexivity|].
  split; [|vm_compute; reflexivity].
  unfold BakeDirectionalLight.
  rewrite ParallelFor_chunkSize_0; [reflexivity|done|done|vm_compute; reflexivity].
Qed.

(** C4, amended: on a chart whose geometry covers the buffer, called with
    at least one thread and with [count + numThreads <= 2^32] (no
    wrap-around in [count + numThreads - 1]), [BakeDirectionalLight]
    returns, and for every texel with geometry the new direct value is the
    old one plus
    [lightColor * visibility * max(0, dot(smoothNormal, rayDirection))],
    where [rayDirection] is the reversed, normalized light direction (the
    reversed light direction itself when [Normalized] leaves it as it is)
    and [visibility] is 1 when the ray from
    [position + rayDirection * 0.001f] along [rayDirection], of length
    [GetMaxDistance()], hits nothing, and 0 otherwise.  A second call with
    another light adds that light's term to the result of the first. *)
Theorem BakeDirectionalLight_adds_light {F : Type} `{!FloatOps F} `{!Engine F}
    (bakedDirect : Direct.LightmapChartBakedDirect F)
    (bakedGeometry : Geometry.LightmapChartBakedGeometry F)
    (embreeScene : EmbreeScene F) (light : DirectionalLightParameters F)
    (settings : LightmapTracingSettings F) :
  1 ≤ numThreads_ settings →
  Z.of_nat (length (Direct.light_ bakedDirect)) + numThreads_ settings ≤ 2 ^ 32 →
  (length (Direct.light_ bakedDirect)
   ≤ length (Geometry.geometryPositions_ bakedGeometry))%nat →
  (length (Direct.light_ bakedDirect)
   ≤ length (Geometry.smoothNormals_ bakedGeometry))%nat →
  (length (Direct.light_ bakedDirect)
   ≤ length (Geometry.geometryIds_ bakedGeometry))%nat →
  ∃ bakedDirect',
    BakeDirectionalLight bakedDirect bakedGeometry embreeScene light settings
      = Ok bakedDirect'
    ∧ (∀ (i : nat) (old position smoothNormal : Vector3 F) (geometryId : Z),
         Direct.light_ bakedDirect !! i = Some old →
         Geometry.geometryPositions_ bakedGeometry !! i = Some position →
         Geometry.smoothNormals_ bakedGeometry !! i = Some smoothNormal →
         Geometry.geometryIds_ bakedGeometry !! i = Some geometryId →
         geometryId ≠ 0 →
         let rayDirection := v3neg (Normalized (direction_ light)) in
         let lightColor := ToVector3 (color_ light) in
         let shadowRay :=
           mkRTCRay
             (mkVector3 (x_ position ⊕ x_ rayDirection ⊗ lit_0_001)
                        (y_ position ⊕ y_ rayDirection ⊗ lit_0_001)
                        (z_ position ⊕ z_ rayDirection ⊗ lit_0_001))
             rayDirection (of_int 0) (GetMaxDistance embreeScene) (of_int 0)
             0 4294967295 4294967295 in
         let visibility :=
           match cast_ray (GetEmbreeScene embreeScene) shadowRay with
           | None => of_int 1
           | Some _ => of_int 0
           end in
         (Normalized (direction_ light) = direction_ light →
          rayDirection = v3neg (direction_ light))
         ∧ light_contribution embreeScene light position smoothNormal
           = v3scale (v3scale lightColor visibility)
               (fmax (of_int 0) (DotProduct smoothNormal rayDirection))
         ∧ Direct.light_ bakedDirect' !! i
           = Some (v3add old (light_contribution embreeScene light position smoothNormal))
         ∧ ∀ light2 bakedDirect'',
             BakeDirectionalLight bakedDirect' bakedGeometry embreeScene light2 settings
               = Ok bakedDirect'' →
             Direct.light_ bakedDirect'' !! i
             = Some (v3add
                       (v3add old
                          (light_contribution embreeScene light position smoothNormal))
                       (light_contribution embreeScene light2 position smoothNormal))).
Proof.
  intros Hn Hfit Hp Hnrm Hid.
  destruct (BakeDirectionalLight_total bakedDirect bakedGeometry embreeScene light
              settings ltac:(lia) Hp Hnrm Hid) as [bakedDirect' Hcall].
  exists bakedDirect'. split; [done|].
  intros i old position smoothNormal geometryId Hold Hpos Hnormal Hgid Hne.
  cbv zeta.
  assert (H1 : Direct.light_ bakedDirect' !! i
               = Some (v3add old
                         (light_contribution embreeScene light position smoothNormal))).
  { rewrite (BakeDirectionalLight_lookup _ _ _ _ _ _ _ _ _ _ _ Hn Hfit Hcall
               Hold Hpos Hnormal Hgid).
    destruct (decide (geometryId = 0)); done. }
  split; [by intros ->|]. split; [reflexivity|]. split; [done|].
  intros light2 bakedDirect'' Hcall2.
  assert (Hlen : length (Direct.light_ bakedDirect') = length (Direct.light_ bakedDirect)).
  { apply BakeDirectionalLight_steps_chunks in Hcall. by apply steps_length in Hcall. }
  rewrite (BakeDirectionalLight_lookup _ _ _ _ _ _ _ _ _ _ _ Hn
             ltac:(rewrite Hlen; exact Hfit) Hcall2 H1 Hpos Hnormal Hgid).
  destruct (decide (geometryId = 0)); done.
Qed.

Lemma BakeDirectionalLight_adds_light_witness :
  ∃ bakedDirect',
    BakeDirectionalLight Float32Inputs.black_direct Float32Inputs.one_texel
      Float32Inputs.open_sky Float32Inputs.zenith_light (Float32Inputs.one_thread 0)
    = Ok bakedDirect'
    ∧ Direct.light_ bakedDirect' !! 0%nat
      = Some (mkVector3 (F:=Float32.float32) (of_int 1) (of_int 1) (of_int 1)).
Proof.
  assert (H1 : 1 ≤ numThreads_ (Float32Inputs.one_thread 0)) by (simpl; lia).
  assert (H2 : Z.of_nat (length (Direct.light_ Float32Inputs.black_direct))
               + numThreads_ (Float32Inputs.one_thread 0) ≤ 2 ^ 32) by (simpl; lia).
  destruct (BakeDirectionalLight_adds_light Float32Inputs.black_direct
              Float32Inputs.one_texel Float32Inputs.open_sky
              Float32Inputs.zenith_light (Float32Inputs.one_thread 0) H1 H2
              (le_n 1) (le_n 1) (le_n 1)) as (bakedDirect' & Hcall & Htexel).
  exists bakedDirect'. split; [exact Hcall|].
  assert (H3 : (1 : Z) ≠ 0) by discriminate.
  destruct (Htexel 0%nat Vector3_zero Vector3_zero Float32Inputs.up 1
              eq_refl eq_refl eq_refl eq_refl H3) as (_ & _ & -> & _).
  vm_compute. reflexivity.
Defined.

(** ** C5: the accumulation of the recorded bounces *)

(** C5 fails on the code.  A bounce is recorded in the slot of its bounce
    index [j], the accumulation reads the slots [numSamples - 1, ..., 0]:
    after a miss followed by a hit, slot 1 holds the recorded pair and slot
    0, which is read, holds what an earlier texel of the task left there
    (or nothing).

    The task below visits two texels with two bounces each.  Texel 0 hits
    twice and sees the radiance (1, 1, 1).  Texel 1 misses, then hits and
    records the radiance (5, 5, 5) with weight [w] in slot 1; it receives
    [((0, 0, 0) + (1, 1, 1)) * w], the first bounce of texel 0, instead of
    [((0, 0, 0) + (5, 5, 5)) * w].  On a fresh task the same path reads an
    uninitialised [incomingFactors[0]]. *)
Theorem BakeIndirectLight_reads_stale_slots :
  let settings := Float32Inputs.one_thread 2 in
  let draws :=
    Float32Room.draw Float32Inputs.up ++ Float32Room.draw Float32Inputs.up
    ++ Float32Room.draw Float32Room.east ++ Float32Room.draw Float32Inputs.up in
  let w := Float32Room.weight_1 in
  ∃ (ts0 : TaskState Float32.float32 (list Float32.float32))
    (st1 : PathState Float32.float32 (list Float32.float32))
    (bakedIndirect' : Indirect.LightmapChartBakedIndirect Float32.float32),
    BakeIndirectLight_texel 1 [Float32Room.two_tone] Float32Room.two_texels
      Float32Room.room settings 0
      (mkTaskState BounceArrays_fresh (Indirect.light_ Float32Room.two_black) draws)
    = Ok ts0
    ∧ for_range 0 2
        (BakeIndirectLight_bounce 1 [Float32Room.two_tone] Float32Room.room settings)
        (mkPathState 0 (mkVector3 (of_int 10) (of_int 0) (of_int 0)) Float32Inputs.up
           (task_arrays ts0) (task_rng ts0))
      = Ok st1
    ∧ numSamples st1 = 1
    ∧ incomingSamples (arrays st1) !! 1%nat = Some Float32Room.bright
    ∧ incomingFactors (arrays st1) !! 1%nat = Some (Some w)
    ∧ incomingSamples (arrays st1) !! 0%nat = Some Float32Room.dim
    ∧ accumulate (arrays st1) (numSamples st1)
      = Ok (v3scale (v3add Vector3_zero Float32Room.dim) w)
    ∧ BakeIndirectLight 1 Float32Room.two_black [Float32Room.two_tone]
        Float32Room.two_texels Float32Room.room settings draws
      = Ok (bakedIndirect', [])
    ∧ Indirect.light_ bakedIndirect' !! 1%nat
      = Some (v4add Vector4_zero
                (Vector4_of (v3scale (v3add Vector3_zero Float32Room.dim) w) (of_int 1)))
    ∧ Indirect.light_ bakedIndirect' !! 1%nat
      ≠ Some (v4add Vector4_zero
                (Vector4_of (v3scale (v3add Vector3_zero Float32Room.bright) w)
                   (of_int 1)))
    ∧ BakeIndirectLight 1 Float32Inputs.black_indirect [Float32Room.two_tone]
        Float32Inputs.one_texel Float32Room.room settings
        (Float32Room.draw Float32Room.east ++ Float32Room.draw Float32Inputs.up)
      = Undefined.
Proof.
  cbv zeta. eexists _, _, _.
  split; [vm_compute; reflexivity|].
  split; [vm_compute; reflexivity|].
  split; [vm_compute; reflexivity|].
  split; [vm_compute; reflexivity|].
  split; [vm_compute; reflexivity|].
  split; [vm_compute; reflexivity|].
  split; [vm_compute; reflexivity|].
  split; [vm_compute; reflexivity|].
  split; [vm_compute; reflexivity|].
  split; [vm_compute; discriminate|].
  vm_compute; reflexivity.
Qed.

(** ** C6: the weight of a bounce *)

(** C6: a bounce that hits geometry records, in [incomingFactors[j]], the
    value [brdf * cosTheta / probability] with [brdf = (1 / M_PI) / M_PI],
    [cosTheta = dot(rayDirection, currentNormal)] and
    [probability = 1 / (2 * M_PI)]; in exact arithmetic this value is
    [2 * cosTheta / pi]. *)
Theorem BakeIndirectLight_bounce_weight :
  (∀ {F : Type} `{!FloatOps F} `{!Engine F}
     (fuel : nat) (bakedDirect : list (Direct.LightmapChartBakedDirect F))
     (embreeScene : EmbreeScene F) (settings : LightmapTracingSettings F)
     (j : Z) (st st' : PathState F Rng) (rayDirection : Vector3 F) (rng : Rng)
     (hit_tfar : F) (hit : RTCHit F),
     BakeIndirectLight_bounce fuel bakedDirect embreeScene settings j st = Ok st' →
     RandomHemisphereDirection fuel (currentNormal st) (path_rng st)
       = Ok (rayDirection, rng) →
     cast_ray (GetEmbreeScene embreeScene)
       (bounce_ray settings (GetMaxDistance embreeScene)
          (currentPosition st) (currentNormal st) rayDirection)
       = Some (hit_tfar, hit) →
     let brdf := (of_int 1 ⊘ M_PI) ⊘ M_PI in
     let cosTheta := DotProduct rayDirection (currentNormal st) in
     let probability := of_int 1 ⊘ (of_int 2 ⊗ M_PI) in
     incomingFactors (arrays st') !! Z.to_nat j
     = Some (Some (brdf ⊗ cosTheta ⊘ probability)))
  ∧ (∀ rayDirection currentNormal : Vector3 R,
       incoming_factor rayDirection currentNormal
       = (2 * DotProduct rayDirection currentNormal / PI)%R).
Proof.
  split.
  - intros F ? ? fuel bakedDirect embreeScene settings j st st' rayDirection rng
      hit_tfar hit H Hdir Hhit. cbv zeta.
    apply BakeIndirectLight_bounce_spec in H as (d & r & Hd & _ & H).
    rewrite Hdir in Hd. inversion Hd; subst d r. rewrite Hhit in H.
    destruct H as (geometry & chart & _ & _ & _ & Hj & _ & _ & ->).
    rewrite list_lookup_insert_eq by lia. reflexivity.
  - intros rayDirection currentNormal. unfold incoming_factor. simpl.
    pose proof PI_neq0. field. done.
Qed.

Lemma BakeIndirectLight_bounce_weight_witness :
  ∃ (st' : PathState Float32.float32 (list Float32.float32)) hit_tfar hit,
    BakeIndirectLight_bounce 1 [Float32Room.two_tone] Float32Room.room
      (Float32Inputs.one_thread 2) 0
      (mkPathState 0 Vector3_zero Float32Inputs.up BounceArrays_fresh
         (Float32Room.draw Float32Inputs.up))
    = Ok st'
    ∧ RandomHemisphereDirection 1 Float32Inputs.up (Float32Room.draw Float32Inputs.up)
      = Ok (Float32Inputs.up, [])
    ∧ cast_ray (GetEmbreeScene Float32Room.room)
        (bounce_ray (Float32Inputs.one_thread 2) (GetMaxDistance Float32Room.room)
           Vector3_zero Float32Inputs.up Float32Inputs.up)
      = Some (hit_tfar, hit)
    ∧ incomingFactors (arrays st') !! 0%nat = Some (Some Float32Room.weight_1)
    ∧ incoming_factor (F:=R) (mkVector3 0 0 1)%R (mkVector3 0 0 1)%R = (2 / PI)%R.
Proof.
  eassert (H1 : BakeIndirectLight_bounce 1 [Float32Room.two_tone] Float32Room.room
                  (Float32Inputs.one_thread 2) 0
                  (mkPathState 0 Vector3_zero Float32Inputs.up BounceArrays_fresh
                     (Float32Room.draw Float32Inputs.up))
                = Ok _) by (vm_compute; reflexivity).
  assert (H2 : RandomHemisphereDirection 1 Float32Inputs.up
                 (Float32Room.draw Float32Inputs.up)
               = Ok (Float32Inputs.up, [])) by (vm_compute; reflexivity).
  eassert (H3 : cast_ray (GetEmbreeScene Float32Room.room)
                  (bounce_ray (Float32Inputs.one_thread 2)
                     (GetMaxDistance Float32Room.room)
                     Vector3_zero Float32Inputs.up Float32Inputs.up)
                = Some (_, _)) by (vm_compute; reflexivity).
  eexists _, _, _. split; [exact H1|]. split; [exact H2|]. split; [exact H3|].
  split.
  - exact (proj1 BakeIndirectLight_bounce_weight _ _ _ _ _ _ _ _ _ _ _ _ _ _ H1 H2 H3).
  - rewrite (proj2 BakeIndirectLight_bounce_weight). unfold DotProduct. simpl.
    f_equal. ring.
Defined.

(** ** C7: the filter with radius 0 *)

(** C7, as stated, fails on a texel without geometry, for which nothing is
    stored: after the exchange of the buffers its [light_] entry is the old
    [lightSwap_] entry.  Here [light_] holds (1, 1, 1, 1) and [lightSwap_]
    holds zero before the call with radius 0; after it [light_] holds
    zero. *)
Lemma filter_radius_0_replaces_empty_texel :
  kernelRadius_ (ExactInputs.filter_radius 0) = 0
  ∧ ∃ bakedIndirect',
      FilterIndirectLight ExactInputs.stale_indirect ExactInputs.empty_geometry
        (ExactInputs.filter_radius 0) 1 = Ok bakedIndirect'
      ∧ Indirect.light_ bakedIndirect' !! 0%nat
        ≠ Indirect.light_ ExactInputs.stale_indirect !! 0%nat.
Proof.
  split; [reflexivity|].
  exists (Indirect.mk 1 1 [Vector4_zero] [mkVector4 1%R 1%R 1%R 1%R]).
  split; [vm_compute; reflexivity|].
  simpl. unfold Vector4_zero. simpl. intros H. inversion H. lra.
Qed.

(** C7, amended: with [kernelRadius = 0] (one thread at least, no
    wrap-around of the texel count), the [light_] entry of a texel with
    geometry is, after the call, [centerColor * (1 * 1) / max(M_EPSILON,
    1 * 1)] for its entry [centerColor] of before the call, which is
    [centerColor] itself both in binary32 and in exact arithmetic as soon
    as [M_EPSILON] is below 1; the [light_] entry of a texel without
    geometry is its [lightSwap_] entry of before the call.  On a chart
    whose geometry and scratch buffer cover the buffer, the call
    returns. *)
Theorem FilterIndirectLight_radius_0 :
  (∀ {F : Type} `{!FloatOps F} `{!Engine F} `{!LibM F}
     (bakedIndirect bakedIndirect' : Indirect.LightmapChartBakedIndirect F)
     (bakedGeometry : Geometry.LightmapChartBakedGeometry F)
     (params : IndirectFilterParameters F) (numThreads : Z),
     kernelRadius_ params = 0 →
     1 ≤ numThreads →
     Z.of_nat (length (Indirect.light_ bakedIndirect)) + numThreads ≤ 2 ^ 32 →
     FilterIndirectLight bakedIndirect bakedGeometry params numThreads
       = Ok bakedIndirect' →
     ∀ (i : nat) (centerColor scratch : Vector4 F) (geometryId : Z),
       Indirect.light_ bakedIndirect !! i = Some centerColor →
       Indirect.lightSwap_ bakedIndirect !! i = Some scratch →
       Geometry.geometryIds_ bakedGeometry !! i = Some geometryId →
       (geometryId = 0 → Indirect.light_ bakedIndirect' !! i = Some scratch)
       ∧ (geometryId ≠ 0 →
          Indirect.light_ bakedIndirect' !! i
          = Some (v4div (v4scale centerColor (of_int 1 ⊗ of_int 1))
                    (fmax M_EPSILON (of_int 1 ⊗ of_int 1)))))
  ∧ (∀ (E : Engine Float32.float32) (centerColor : Vector4 Float32.float32),
       fltb M_EPSILON (of_int 1) = true →
       Float32.valid (x4_ centerColor) → Float32.valid (y4_ centerColor) →
       Float32.valid (z4_ centerColor) → Float32.valid (w4_ centerColor) →
       v4div (v4scale centerColor (of_int 1 ⊗ of_int 1))
         (fmax M_EPSILON (of_int 1 ⊗ of_int 1))
       = centerColor)
  ∧ (∀ (E : Engine R) (centerColor : Vector4 R),
       (M_EPSILON < 1)%R →
       v4div (v4scale centerColor (of_int 1 ⊗ of_int 1))
         (fmax M_EPSILON (of_int 1 ⊗ of_int 1))
       = centerColor)
  ∧ (∀ {F : Type} `{!FloatOps F} `{!Engine F} `{!LibM F}
       (bakedIndirect : Indirect.LightmapChartBakedIndirect F)
       (bakedGeometry : Geometry.LightmapChartBakedGeometry F)
       (params : IndirectFilterParameters F) (numThreads : Z),
       kernelRadius_ params = 0 →
       1 ≤ numThreads →
       (length (Indirect.light_ bakedIndirect)
        ≤ length (Indirect.lightSwap_ bakedIndirect))%nat →
       (length (Indirect.light_ bakedIndirect)
        ≤ length (Geometry.geometryPositions_ bakedGeometry))%nat →
       (length (Indirect.light_ bakedIndirect)
        ≤ length (Geometry.smoothNormals_ bakedGeometry))%nat →
       (length (Indirect.light_ bakedIndirect)
        ≤ length (Geometry.geometryIds_ bakedGeometry))%nat →
       ∃ bakedIndirect',
         FilterIndirectLight bakedIndirect bakedGeometry params numThreads
           = Ok bakedIndirect').
Proof.
  split; [|split; [exact @single_tap_binary32|split; [exact @single_tap_exact|]]].
  2:{ intros F ? ? ? bakedIndirect bakedGeometry params numThreads Hr Hn Hs Hp Hnrm Hid.
      apply FilterIndirectLight_radius_0_total; try done. lia. }
  intros F ? ? ? bakedIndirect bakedIndirect' bakedGeometry params numThreads
    Hr Hn Hfit H i centerColor scratch geometryId Hc Hs Hid.
  eapply FilterIndirectLight_steps in H as [H _];
    [|intros kw j s s' Hk; by apply FilterIndirectLight_texel_radius_0].
  rewrite size_unsigned_small in H by lia.
  rewrite ParallelFor_indices_exact in H by lia.
  pose proof (lookup_lt_Some _ _ _ Hc) as Hlt.
  destruct (steps_seqZ_lookup _ _ 0 _ _ (Z.le_refl 0) H i scratch Hs) as [Hin _].
  destruct Hin as (f & (gid & filtered & Hgid & HP & ->) & ->); [lia|].
  rewrite Nat2Z.id in Hgid, HP. simplify_eq.
  destruct (decide (geometryId = 0)); split; intros ?; try done.
  destruct HP as (c & Hc' & ->); [done|]. simplify_eq. reflexivity.
Qed.

Lemma FilterIndirectLight_radius_0_witness :
  ∃ bakedIndirect',
    FilterIndirectLight ExactInputs.stale_indirect ExactInputs.lit_geometry
      (ExactInputs.filter_radius 0) 1 = Ok bakedIndirect'
    ∧ Indirect.light_ bakedIndirect' !! 0%nat = Some (mkVector4 1 1 1 1)%R.
Proof.
  eassert (Hcall : FilterIndirectLight ExactInputs.stale_indirect
                     ExactInputs.lit_geometry (ExactInputs.filter_radius 0) 1
                   = Ok _) by (vm_compute; reflexivity).
  eexists. split; [exact Hcall|].
  assert (H1 : (1 : Z) ≤ 1) by lia.
  assert (H2 : Z.of_nat (length (Indirect.light_ ExactInputs.stale_indirect)) + 1
               ≤ 2 ^ 32) by (simpl; lia).
  assert (H3 : (1 : Z) ≠ 0) by discriminate.
  etrans;
    [exact (proj2 (proj1 FilterIndirectLight_radius_0 R _ _ _
                     ExactInputs.stale_indirect _ ExactInputs.lit_geometry
                     (ExactInputs.filter_radius 0) 1 eq_refl H1 H2
                     Hcall 0%nat (mkVector4 1 1 1 1)%R Vector4_zero 1
                     eq_refl eq_refl eq_refl) H3)|].
  f_equal. apply (proj1 (proj2 (proj2 FilterIndirectLight_radius_0))).
  simpl. lra.
Defined.

(** ** C8: the chart that is sampled *)

(** C8: a bounce that hits geometry records, in [incomingSamples[j]], the
    nearest sample of [bakedDirect[0]] at the lightmap coordinates of the
    hit, whatever the geometry that was hit; and the result of
    [BakeIndirectLight] depends on [bakedDirect] through its chart 0 only. *)
Theorem BakeIndirectLight_samples_chart_0 {F : Type} `{!FloatOps F} `{!Engine F} :
  (∀ (fuel : nat) (bakedDirect : list (Direct.LightmapChartBakedDirect F))
     (embreeScene : EmbreeScene F) (settings : LightmapTracingSettings F)
     (j : Z) (st st' : PathState F Rng) (rayDirection : Vector3 F) (rng : Rng)
     (hit_tfar : F) (hit : RTCHit F),
     BakeIndirectLight_bounce fuel bakedDirect embreeScene settings j st = Ok st' →
     RandomHemisphereDirection fuel (currentNormal st) (path_rng st)
       = Ok (rayDirection, rng) →
     cast_ray (GetEmbreeScene embreeScene)
       (bounce_ray settings (GetMaxDistance embreeScene)
          (currentPosition st) (currentNormal st) rayDirection)
       = Some (hit_tfar, hit) →
     ∃ chart geometry,
       bakedDirect !! 0%nat = Some chart
       ∧ GetEmbreeGeometryIndex embreeScene !! Z.to_nat (geomID hit) = Some geometry
       ∧ incomingSamples (arrays st') !! Z.to_nat j
         = Some (SampleNearest chart
                   (rtcInterpolate0 geometry (primID hit) (u hit) (v hit))))
  ∧ (∀ (fuel : nat) (bakedIndirect : Indirect.LightmapChartBakedIndirect F)
       (bakedDirect bakedDirect2 : list (Direct.LightmapChartBakedDirect F))
       (bakedGeometry : Geometry.LightmapChartBakedGeometry F)
       (embreeScene : EmbreeScene F) (settings : LightmapTracingSettings F)
       (rng : Rng),
       bakedDirect !! 0%nat = bakedDirect2 !! 0%nat →
       BakeIndirectLight fuel bakedIndirect bakedDirect bakedGeometry embreeScene
         settings rng
       = BakeIndirectLight fuel bakedIndirect bakedDirect2 bakedGeometry embreeScene
           settings rng).
Proof.
  split.
  - intros fuel bakedDirect embreeScene settings j st st' rayDirection rng
      hit_tfar hit H Hdir Hhit.
    apply BakeIndirectLight_bounce_spec in H as (d & r & Hd & _ & H).
    rewrite Hdir in Hd. inversion Hd; subst d r. rewrite Hhit in H.
    destruct H as (geometry & chart & Hg & Hc & Hj & _ & _ & -> & _).
    exists chart, geometry. split; [done|]. split; [done|].
    rewrite list_lookup_insert_eq by lia. reflexivity.
  - intros fuel bakedIndirect bakedDirect bakedDirect2 bakedGeometry embreeScene
      settings rng Hhead.
    rewrite <- (BakeIndirectLight_chart0 fuel bakedIndirect bakedDirect).
    rewrite <- (BakeIndirectLight_chart0 fuel bakedIndirect bakedDirect2).
    replace (take 1 bakedDirect2) with (take 1 bakedDirect); [done|].
    destruct bakedDirect, bakedDirect2; simpl in *; try done.
    inversion Hhead; subst. by rewrite !take_0.
Qed.

Lemma BakeIndirectLight_samples_chart_0_witness :
  ∃ (st' : PathState Float32.float32 (list Float32.float32)) hit_tfar hit,
    BakeIndirectLight_bounce 1 [Float32Room.two_tone] Float32Room.room
      (Float32Inputs.one_thread 2) 0
      (mkPathState 0 Vector3_zero Float32Inputs.up BounceArrays_fresh
         (Float32Room.draw Float32Inputs.up))
    = Ok st'
    ∧ RandomHemisphereDirection 1 Float32Inputs.up (Float32Room.draw Float32Inputs.up)
      = Ok (Float32Inputs.up, [])
    ∧ cast_ray (GetEmbreeScene Float32Room.room)
        (bounce_ray (Float32Inputs.one_thread 2) (GetMaxDistance Float32Room.room)
           Vector3_zero Float32Inputs.up Float32Inputs.up)
      = Some (hit_tfar, hit)
    ∧ incomingSamples (arrays st') !! 0%nat = Some Float32Room.dim
    ∧ BakeIndirectLight 1 Float32Room.two_black [Float32Room.two_tone]
        Float32Room.two_texels Float32Room.room (Float32Inputs.one_thread 2) []
      = BakeIndirectLight 1 Float32Room.two_black
          [Float32Room.two_tone; Float32Inputs.black_direct]
          Float32Room.two_texels Float32Room.room (Float32Inputs.one_thread 2) [].
Proof.
  eassert (H1 : BakeIndirectLight_bounce 1 [Float32Room.two_tone] Float32Room.room
                  (Float32Inputs.one_thread 2) 0
                  (mkPathState 0 Vector3_zero Float32Inputs.up BounceArrays_fresh
                     (Float32Room.draw Float32Inputs.up))
                = Ok _) by (vm_compute; reflexivity).
  assert (H2 : RandomHemisphereDirection 1 Float32Inputs.up
                 (Float32Room.draw Float32Inputs.up)
               = Ok (Float32Inputs.up, [])) by (vm_compute; reflexivity).
  eassert (H3 : cast_ray (GetEmbreeScene Float32Room.room)
                  (bounce_ray (Float32Inputs.one_thread 2)
                     (GetMaxDistance Float32Room.room)
                     Vector3_zero Float32Inputs.up Float32Inputs.up)
                = Some (_, _)) by (vm_compute; reflexivity).
  eexists _, _, _. split; [exact H1|]. split; [exact H2|]. split; [exact H3|].
  split.
  - destruct (proj1 BakeIndirectLight_samples_chart_0 _ _ _ _ _ _ _ _ _ _ _ H1 H2 H3)
      as (chart & geometry & Hc & Hg & Hs).
    etrans; [exact Hs|]. inversion Hc; subst chart.
    vm_compute in Hg. inversion Hg; subst geometry.
    vm_compute. reflexivity.
  - apply (proj2 BakeIndirectLight_samples_chart_0). reflexivity.
Defined.

(** ** C9: unsupported configurations *)




(** ** C10: the denominator of the filter *)




(** * Further properties *)

(** ** X1: texels without geometry in the course of baking *)

(** X1: on indirect buffers that were allocated and then passed through
    any number of calls of [BakeIndirectLight] and [FilterIndirectLight],
    a call of [FilterIndirectLight] leaves the [light_] entry of a texel
    whose geometry id is 0 as it was: the two buffers agree on such a
    texel, so the exchange of the buffers does not show. *)
Theorem empty_texel_untouched_while_baking {F : Type} `{!FloatOps F} `{!Engine F}
    `{!LibM F} (bakedGeometry : Geometry.LightmapChartBakedGeometry F)
    (bakedIndirect bakedIndirect' : Indirect.LightmapChartBakedIndirect F)
    (params : IndirectFilterParameters F) (numThreads : Z) (i : nat) :
  baking bakedGeometry bakedIndirect →
  Geometry.geometryIds_ bakedGeometry !! i = Some 0 →
  FilterIndirectLight bakedIndirect bakedGeometry params numThreads = Ok bakedIndirect' →
  Indirect.light_ bakedIndirect' !! i = Indirect.light_ bakedIndirect !! i
  ∧ baking bakedGeometry bakedIndirect'.
Proof.
  intros Hb Hid H. split; [|by eapply baking_filtered].
  apply (FilterIndirectLight_empty_texel _ _ _ _ _ i Hid) in H as [-> _].
  symmetry. by apply (baking_agree bakedGeometry).
Qed.

Lemma empty_texel_untouched_while_baking_witness :
  baking ExactInputs.empty_geometry (LightmapChartBakedIndirect_new (F:=R) 1 1)
  ∧ Geometry.geometryIds_ ExactInputs.empty_geometry !! 0%nat = Some 0
  ∧ ∃ bakedIndirect',
      FilterIndirectLight (LightmapChartBakedIndirect_new 1 1)
        ExactInputs.empty_geometry (ExactInputs.filter_radius 1) 1 = Ok bakedIndirect'
      ∧ Indirect.light_ bakedIndirect' !! 0%nat = Some Vector4_zero.
Proof.
  assert (Hb : baking ExactInputs.empty_geometry
                 (LightmapChartBakedIndirect_new (F:=R) 1 1)) by constructor.
  split; [exact Hb|]. split; [reflexivity|].
  eassert (Hcall : FilterIndirectLight (LightmapChartBakedIndirect_new 1 1)
                     ExactInputs.empty_geometry (ExactInputs.filter_radius 1) 1
                   = Ok _) by (vm_compute; reflexivity).
  eexists. split; [exact Hcall|].
  exact (proj1 (empty_texel_untouched_while_baking _ _ _ _ _ 0%nat
                  Hb eq_refl Hcall)).
Defined.

(** ** X2: the weight of a bounce in binary32 *)

(** X2: in binary32 the weight recorded for a bounce is the value of
    [brdf * cosTheta / probability] as the code evaluates it; at
    [cosTheta = 1/3] it is 14240944 * 2^-26, one unit in the last place
    above [2 * cosTheta / M_PI] evaluated in binary32. *)
Theorem incoming_factor_binary32 :
  let rayDirection : Vector3 Float32.float32 :=
    mkVector3 (of_int 0) (of_int 0) (of_int 1 ⊘ of_int 3) in
  DotProduct rayDirection Float32Inputs.up = of_int 1 ⊘ of_int 3
  ∧ incoming_factor rayDirection Float32Inputs.up = S754_finite false 14240944 (-26)
  ∧ of_int 2 ⊗ (of_int 1 ⊘ of_int 3) ⊘ M_PI = S754_finite false 14240943 (-26).
Proof.
  cbv zeta. split; [vm_compute; reflexivity|].
  split; vm_compute; reflexivity.
Qed.

(** ** X3: paths on which no miss precedes a hit *)

(** X3: when the first [h] rays of the path of a texel hit and the others
    miss, the slots [0, ..., h - 1] hold the recorded pairs and the visit
    adds to the entry of the texel the pairs combined back to front:
    starting from zero, from the last pair to the first,
    [accumulator = (accumulator + sample) * weight]. *)
Theorem recorded_pairs_back_to_front {F : Type} `{!FloatOps F} `{!Engine F}
    (fuel : nat) (bakedDirect : list (Direct.LightmapChartBakedDirect F))
    (bakedGeometry : Geometry.LightmapChartBakedGeometry F)
    (embreeScene : EmbreeScene F) (settings : LightmapTracingSettings F)
    (j : Z) (ts ts' : TaskState F Rng) (position smoothNormal : Vector3 F)
    (geometryId : Z) (old : Vector4 F) (h : nat) :
  BakeIndirectLight_texel fuel bakedDirect bakedGeometry embreeScene settings j ts
    = Ok ts' →
  Geometry.geometryPositions_ bakedGeometry !! Z.to_nat j = Some position →
  Geometry.smoothNormals_ bakedGeometry !! Z.to_nat j = Some smoothNormal →
  Geometry.geometryIds_ bakedGeometry !! Z.to_nat j = Some geometryId →
  geometryId ≠ 0 →
  task_light ts !! Z.to_nat j = Some old →
  Forall (λ ray, cast_ray (GetEmbreeScene embreeScene) ray ≠ None)
    (take h (path_rays fuel bakedDirect embreeScene settings
               (loop_indices 0 (numBounces_ settings))
               (mkPathState 0 position smoothNormal (task_arrays ts) (task_rng ts)))) →
  Forall (λ ray, cast_ray (GetEmbreeScene embreeScene) ray = None)
    (drop h (path_rays fuel bakedDirect embreeScene settings
               (loop_indices 0 (numBounces_ settings))
               (mkPathState 0 position smoothNormal (task_arrays ts) (task_rng ts)))) →
  task_light ts' !! Z.to_nat j
  = Some (v4add old
            (Vector4_of
               (back_to_front
                  (path_records fuel bakedDirect embreeScene settings
                     (loop_indices 0 (numBounces_ settings))
                     (mkPathState 0 position smoothNormal
                        (task_arrays ts) (task_rng ts))))
               (of_int 1))).
Proof.
  intros H Hp Hn Hid Hne Hold Hhit Hmiss. unfold BakeIndirectLight_texel in H.
  apply bind_Ok in H as (position' & Hp' & H).
  apply bind_Ok in H as (smoothNormal' & Hn' & H).
  apply bind_Ok in H as (geometryId' & Hid' & H).
  apply at_index_Ok in Hp' as [_ Hp'], Hn' as [_ Hn'], Hid' as [_ Hid'].
  rewrite Hp in Hp'. rewrite Hn in Hn'. rewrite Hid in Hid'.
  inversion Hp'; inversion Hn'; inversion Hid'; subst position' smoothNormal' geometryId'.
  destruct (decide (geometryId = 0)); [done|].
  apply bind_Ok in H as (st & Hpath & H).
  apply bind_Ok in H as (indirectLighting & Hacc & H).
  apply bind_Ok in H as (old' & Hold' & H).
  apply bind_Ok in H as (light & Hset & H).
  inversion H; subst ts'; simpl. clear H.
  rewrite (accumulate_path_records _ _ _ _ h _ _ _ _ _ Hpath Hhit Hmiss) in Hacc.
  inversion Hacc; subst indirectLighting.
  apply at_index_Ok in Hold' as [_ Hold']. rewrite Hold in Hold'.
  inversion Hold'; subst old'.
  apply set_index_Ok in Hset as [Hj ->].
  apply list_lookup_insert_eq. lia.
Qed.

Lemma recorded_pairs_back_to_front_witness :
  ∃ ts' : TaskState Float32.float32 (list Float32.float32),
    BakeIndirectLight_texel 1 [Float32Room.two_tone] Float32Room.two_texels
      Float32Room.room (Float32Inputs.one_thread 2) 0
      (mkTaskState BounceArrays_fresh (Indirect.light_ Float32Room.two_black)
         (Float32Room.draw Float32Inputs.up ++ Float32Room.draw Float32Inputs.up))
    = Ok ts'
    ∧ task_light ts' !! 0%nat
      = Some (v4add Vector4_zero
                (Vector4_of
                   (back_to_front
                      [(Float32Room.dim, Float32Room.weight_1);
                       (Float32Room.dim, Float32Room.weight_1)])
                   (of_int 1))).
Proof.
  eassert (Hcall : BakeIndirectLight_texel 1 [Float32Room.two_tone]
                     Float32Room.two_texels Float32Room.room
                     (Float32Inputs.one_thread 2) 0
                     (mkTaskState BounceArrays_fresh
                        (Indirect.light_ Float32Room.two_black)
                        (Float32Room.draw Float32Inputs.up
                         ++ Float32Room.draw Float32Inputs.up))
                   = Ok _) by (vm_compute; reflexivity).
  eexists. split; [exact Hcall|].
  assert (Hne : (1 : Z) ≠ 0) by discriminate.
  etrans;
    [refine (recorded_pairs_back_to_front 1 _ _ _ _ 0 _ _ Vector3_zero Float32Inputs.up
               1 Vector4_zero 2 Hcall eq_refl eq_refl eq_refl Hne eq_refl _ _)|].
  - match goal with
    | |- Forall _ ?l => let l' := eval vm_compute in l in change l with l'
    end.
    repeat (constructor; [vm_compute; discriminate|]). constructor.
  - match goal with
    | |- Forall _ ?l => let l' := eval vm_compute in l in change l with l'
    end.
    constructor.
  - vm_compute. reflexivity.
Defined.

(** ** X4: the ranges handed out by ParallelFor *)

(** X4: whatever [count] and [numThreads] are, wrap-around included, every
    range handed to the callback starts at 0 or above and ends at [count]
    or below, so a callback that loops from [fromIndex] to [toIndex] only
    visits indices of [0, count).  The callback is called once per thread,
    in posting order, also on ranges that are empty or inverted; with
    [count = 0] no index is visited; with [numThreads = 0] the chunk size
    is a division by zero. *)
Theorem ParallelFor_stays_in_range (count numThreads : Z) :
  (∀ c, c ∈ ParallelFor_chunks count numThreads → 0 ≤ c.1 ∧ c.2 ≤ count)
  ∧ (∀ k, k ∈ ParallelFor_indices count numThreads → 0 ≤ k < count)
  ∧ length (ParallelFor_chunks count numThreads) = Z.to_nat numThreads
  ∧ (∀ {S} (callback : Z → Z → S → Outcome S) (s : S),
       ParallelFor count numThreads callback s
       = if decide (numThreads = 0) then Undefined
         else foldM (λ c : Z * Z, callback c.1 c.2)
                (ParallelFor_chunks count numThreads) s)
  ∧ ParallelFor_indices 0 numThreads = [].
Proof.
  split; [apply ParallelFor_chunks_range|].
  split; [apply ParallelFor_indices_range|].
  split; [apply ParallelFor_chunks_length|]. split.
  - intros S callback s. destruct (decide (numThreads = 0)) as [->|Hn].
    + reflexivity.
    + by apply ParallelFor_calls.
  - destruct (ParallelFor_indices 0 numThreads) as [|k l] eqn:E; [done|].
    assert (Hk : k ∈ ParallelFor_indices 0 numThreads) by (rewrite E; left).
    apply ParallelFor_indices_range in Hk. lia.
Qed.

Lemma ParallelFor_stays_in_range_witness :
  ParallelFor_chunks 5 4 = [(0, 2); (2, 4); (4, 5); (6, 5)]
  ∧ (0 ≤ 6 ∧ 5 ≤ 5)
  ∧ ParallelFor_indices 5 4 = [0; 1; 2; 3; 4]
  ∧ (0 ≤ 4 < 5).
Proof.
  assert (Hc : ParallelFor_chunks 5 4 = [(0, 2); (2, 4); (4, 5); (6, 5)])
    by (vm_compute; reflexivity).
  assert (Hi : ParallelFor_indices 5 4 = [0; 1; 2; 3; 4]) by (vm_compute; reflexivity).
  split; [exact Hc|]. split; [|split; [exact Hi|]].
  - apply (proj1 (ParallelFor_stays_in_range 5 4) (6, 5)).
    rewrite Hc. repeat constructor.
  - apply (proj1 (proj2 (ParallelFor_stays_in_range 5 4)) 4).
    rewrite Hi. repeat constructor.
Defined.

(** ** X5: the number of threads *)

(** X5: [BakeDirectionalLight] and [FilterIndirectLight] give the same
    outcome for any two numbers of threads (one at least, no wrap-around
    of the texel count): both are one loop over the texels in which a
    texel only changes its own entry.  [BakeIndirectLight] does not share
    this: its two arrays live as long as a task, and the run of C5 that
    returns with one thread reads an uninitialised weight with two. *)
Theorem thread_count_does_not_show :
  (∀ {F : Type} `{!FloatOps F} `{!Engine F}
     (bakedDirect : Direct.LightmapChartBakedDirect F)
     (bakedGeometry : Geometry.LightmapChartBakedGeometry F)
     (embreeScene : EmbreeScene F) (light : DirectionalLightParameters F)
     (settings settings' : LightmapTracingSettings F),
     1 ≤ numThreads_ settings → 1 ≤ numThreads_ settings' →
     Z.of_nat (length (Direct.light_ bakedDirect)) + numThreads_ settings ≤ 2 ^ 32 →
     Z.of_nat (length (Direct.light_ bakedDirect)) + numThreads_ settings' ≤ 2 ^ 32 →
     BakeDirectionalLight bakedDirect bakedGeometry embreeScene light settings
     = BakeDirectionalLight bakedDirect bakedGeometry embreeScene light settings')
  ∧ (∀ {F : Type} `{!FloatOps F} `{!Engine F} `{!LibM F}
       (bakedIndirect : Indirect.LightmapChartBakedIndirect F)
       (bakedGeometry : Geometry.LightmapChartBakedGeometry F)
       (params : IndirectFilterParameters F) (numThreads numThreads' : Z),
       1 ≤ numThreads → 1 ≤ numThreads' →
       Z.of_nat (length (Indirect.light_ bakedIndirect)) + numThreads ≤ 2 ^ 32 →
       Z.of_nat (length (Indirect.light_ bakedIndirect)) + numThreads' ≤ 2 ^ 32 →
       FilterIndirectLight bakedIndirect bakedGeometry params numThreads
       = FilterIndirectLight bakedIndirect bakedGeometry params numThreads')
  ∧ (let draws :=
       Float32Room.draw Float32Inputs.up ++ Float32Room.draw Float32Inputs.up
       ++ Float32Room.draw Float32Room.east ++ Float32Room.draw Float32Inputs.up in
     (∃ bakedIndirect',
        BakeIndirectLight 1 Float32Room.two_black [Float32Room.two_tone]
          Float32Room.two_texels Float32Room.room
          (mkLightmapTracingSettings 1 2 lit_0_001) draws
        = Ok (bakedIndirect', []))
     ∧ BakeIndirectLight 1 Float32Room.two_black [Float32Room.two_tone]
         Float32Room.two_texels Float32Room.room
         (mkLightmapTracingSettings 2 2 lit_0_001) draws
       = Undefined).
Proof.
  split; [|split].
  - intros F ? ? bakedDirect bakedGeometry embreeScene light settings settings' ? ? ? ?.
    by rewrite !BakeDirectionalLight_one_loop.
  - intros F ? ? ? bakedIndirect bakedGeometry params numThreads numThreads' ? ? ? ?.
    by rewrite !FilterIndirectLight_one_loop.
  - cbv zeta. split.
    + eexists. vm_compute. reflexivity.
    + vm_compute. reflexivity.
Qed.

Lemma thread_count_does_not_show_witness :
  BakeDirectionalLight Float32Inputs.black_direct Float32Inputs.one_texel
    Float32Inputs.open_sky Float32Inputs.zenith_light
    (mkLightmapTracingSettings 1 0 lit_0_001)
  = BakeDirectionalLight Float32Inputs.black_direct Float32Inputs.one_texel
      Float32Inputs.open_sky Float32Inputs.zenith_light
      (mkLightmapTracingSettings 3 0 lit_0_001)
  ∧ FilterIndirectLight ExactFlat.grey_indirect ExactFlat.flat_geometry
      (ExactInputs.filter_radius 1) 1
    = FilterIndirectLight ExactFlat.grey_indirect ExactFlat.flat_geometry
        (ExactInputs.filter_radius 1) 2.
Proof.
  split.
  - apply (proj1 thread_count_does_not_show); simpl; lia.
  - apply (proj1 (proj2 thread_count_does_not_show)); simpl; lia.
Defined.

(** ** X6: the alpha channel of the indirect buffer *)

(** X6: after [k] calls of [BakeIndirectLight] the alpha of a texel with
    geometry is its alpha of before with 1 added [k] times, whatever the
    paths have gathered: alpha counts the calls ([alpha + k] in exact
    arithmetic).  The entry of a texel without geometry, the length of
    the buffer and the scratch buffer are as before. *)
Theorem alpha_counts_the_passes :
  (∀ {F : Type} `{!FloatOps F} `{!Engine F}
     (bakedGeometry : Geometry.LightmapChartBakedGeometry F) (k : nat)
     (bakedIndirect bakedIndirect' : Indirect.LightmapChartBakedIndirect F)
     (i : nat) (old : Vector4 F) (geometryId : Z),
     indirect_passes bakedGeometry k bakedIndirect bakedIndirect' →
     Indirect.light_ bakedIndirect !! i = Some old →
     Geometry.geometryIds_ bakedGeometry !! i = Some geometryId →
     length (Indirect.light_ bakedIndirect') = length (Indirect.light_ bakedIndirect)
     ∧ Indirect.lightSwap_ bakedIndirect' = Indirect.lightSwap_ bakedIndirect
     ∧ ∃ new,
         Indirect.light_ bakedIndirect' !! i = Some new
         ∧ (geometryId = 0 → new = old)
         ∧ (geometryId ≠ 0 →
            w4_ new = Nat.iter k (λ alpha, alpha ⊕ of_int 1) (w4_ old)))
  ∧ (∀ (k : nat) (alpha : R),
       Nat.iter k (λ alpha : R, alpha ⊕ of_int 1) alpha = (alpha + INR k)%R).
Proof.
  split.
  - intros F ? ? bakedGeometry k bakedIndirect bakedIndirect' i old geometryId
      Hp Hold Hid.
    induction Hp as [bi|k fuel bi bi1 bi2 bd scene settings rng rng'
                       Hp IH Hn Hfit Hcall].
    + split; [done|]. split; [done|]. exists old. auto.
    + destruct (IH Hold) as (Hlen & Hswap & mid & Hmid & Hempty & Halpha).
      pose proof (BakeIndirectLight_dimensions _ _ _ _ _ _ _ _ _ Hcall)
        as (_ & _ & Hlen' & Hswap').
      split; [congruence|]. split; [congruence|].
      destruct (BakeIndirectLight_lookup _ _ _ _ _ _ _ _ _ i mid geometryId
                  Hn Hfit Hcall Hmid Hid) as (L & Hnew).
      eexists. split; [exact Hnew|]. split.
      * intros ->. simpl. auto.
      * intros Hg. destruct (decide (geometryId = 0)); [done|].
        simpl. by rewrite Halpha.
  - intros k alpha. induction k as [|k IH].
    + simpl. lra.
    + rewrite S_INR. cbn [Nat.iter nat_rect]. unfold Nat.iter in IH. rewrite IH.
      simpl. lra.
Qed.

Lemma alpha_counts_the_passes_witness :
  indirect_passes Float32Inputs.one_texel 1 Float32Inputs.black_indirect
    Float32Inputs.counted_indirect
  ∧ ∃ new,
      Indirect.light_ Float32Inputs.counted_indirect !! 0%nat = Some new
      ∧ w4_ new = of_int 0 ⊕ of_int 1.
Proof.
  assert (Hcall : BakeIndirectLight 0 Float32Inputs.black_indirect []
                    Float32Inputs.one_texel Float32Inputs.open_sky
                    (Float32Inputs.one_thread 0) []
                  = Ok (Float32Inputs.counted_indirect, []))
    by (vm_compute; reflexivity).
  assert (Hp : indirect_passes Float32Inputs.one_texel 1 Float32Inputs.black_indirect
                 Float32Inputs.counted_indirect).
  { eapply indirect_passes_S; [apply indirect_passes_0| | |exact Hcall].
    - simpl. lia.
    - simpl. lia. }
  split; [exact Hp|].
  destruct (proj1 alpha_counts_the_passes _ _ _ Float32Inputs.one_texel 1%nat
              _ _ 0%nat Vector4_zero 1 Hp eq_refl eq_refl)
    as (_ & _ & new & Hnew & _ & Halpha).
  exists new. split; [exact Hnew|]. apply Halpha. discriminate.
Defined.

(** ** X7: the stores into the two arrays of a task *)

(** X7: [incomingSamples] and [incomingFactors] have [MaxBounces] slots.
    A bounce [j] that hits, finds the geometry that was hit and finds
    chart 0 returns when [j] is below [MaxBounces] and is an access outside
    both arrays otherwise, which is what the assertion
    [numBounces <= MaxBounces] excludes.  When the assertion holds, the
    arrays still have their [MaxBounces] slots after the bounces of a
    texel, [numSamples] is [numBounces] at most, and every slot the
    accumulation reads exists. *)
Theorem BakeIndirectLight_stores_in_bounds {F : Type} `{!FloatOps F} `{!Engine F}
    (fuel : nat) (bakedDirect : list (Direct.LightmapChartBakedDirect F))
    (embreeScene : EmbreeScene F) (settings : LightmapTracingSettings F)
    (a : BounceArrays F) :
  length (incomingSamples a) = Z.to_nat MaxBounces →
  length (incomingFactors a) = Z.to_nat MaxBounces →
  (∀ (j : Z) position normal numSamples (rng rng' : Rng) rayDirection hit_tfar hit
     geometry chart,
     let st := mkPathState numSamples position normal a rng in
     RandomHemisphereDirection fuel normal rng = Ok (rayDirection, rng') →
     cast_ray (GetEmbreeScene embreeScene)
       (bounce_ray settings (GetMaxDistance embreeScene) position normal rayDirection)
       = Some (hit_tfar, hit) →
     at_index (GetEmbreeGeometryIndex embreeScene) (geomID hit) = Ok geometry →
     at_index bakedDirect 0 = Ok chart →
     (0 ≤ j < MaxBounces →
      ∃ st', BakeIndirectLight_bounce fuel bakedDirect embreeScene settings j st = Ok st')
     ∧ (MaxBounces ≤ j →
        BakeIndirectLight_bounce fuel bakedDirect embreeScene settings j st = Undefined))
  ∧ (∀ position normal (rng : Rng) st',
       0 ≤ numBounces_ settings ≤ MaxBounces →
       for_range 0 (numBounces_ settings)
         (BakeIndirectLight_bounce fuel bakedDirect embreeScene settings)
         (mkPathState 0 position normal a rng) = Ok st' →
       length (incomingSamples (arrays st')) = Z.to_nat MaxBounces
       ∧ length (incomingFactors (arrays st')) = Z.to_nat MaxBounces
       ∧ 0 ≤ numSamples st' ≤ numBounces_ settings
       ∧ ∀ j, 0 ≤ j < numSamples st' →
           ∃ sample slot,
             at_index (incomingSamples (arrays st')) j = Ok sample
             ∧ at_index (incomingFactors (arrays st')) j = Ok slot).
Proof.
  intros Hs Hf. split.
  - intros j position normal numSamples rng rng' rayDirection hit_tfar hit geometry
      chart st Hd Hhit Hgeo Hchart.
    destruct (BakeIndirectLight_bounce_hit fuel bakedDirect embreeScene settings j st
                rayDirection rng' hit_tfar hit geometry chart Hd Hhit Hgeo Hchart)
      as [Hin Hout].
    simpl in Hin, Hout. rewrite Hs, Hf in Hin, Hout. split.
    + intros Hj. apply Hin. lia.
    + intros Hj. apply Hout. lia.
  - intros position normal rng st' Hassert Hpath.
    apply BakeIndirectLight_path_lengths in Hpath as (Hs' & Hf' & Hn).
    simpl in Hs', Hf', Hn. unfold loop_indices in Hn. rewrite length_seqZ in Hn.
    rewrite Hs', Hf', Hs, Hf.
    split; [done|]. split; [done|]. split; [lia|].
    intros j Hj.
    destruct (at_index_total (incomingSamples (arrays st')) j) as [sample Hsample];
      [lia|].
    destruct (at_index_total (incomingFactors (arrays st')) j) as [slot Hslot];
      [lia|].
    eauto.
Qed.

Lemma BakeIndirectLight_stores_in_bounds_witness :
  (∃ st' : PathState Float32.float32 (list Float32.float32),
     BakeIndirectLight_bounce 1 [Float32Room.two_tone] Float32Room.room
       (Float32Inputs.one_thread 2) 15
       (mkPathState 0 Vector3_zero Float32Inputs.up BounceArrays_fresh
          (Float32Room.draw Float32Inputs.up))
     = Ok st')
  ∧ BakeIndirectLight_bounce 1 [Float32Room.two_tone] Float32Room.room
      (Float32Inputs.one_thread 2) 16
      (mkPathState 0 Vector3_zero Float32Inputs.up BounceArrays_fresh
         (Float32Room.draw Float32Inputs.up))
    = Undefined.
Proof.
  assert (H2 : RandomHemisphereDirection 1 Float32Inputs.up
                 (Float32Room.draw Float32Inputs.up)
               = Ok (Float32Inputs.up, [])) by (vm_compute; reflexivity).
  eassert (H3 : cast_ray (GetEmbreeScene Float32Room.room)
                  (bounce_ray (Float32Inputs.one_thread 2)
                     (GetMaxDistance Float32Room.room)
                     Vector3_zero Float32Inputs.up Float32Inputs.up)
                = Some (_, _)) by (vm_compute; reflexivity).
  eassert (H4 : at_index (GetEmbreeGeometryIndex Float32Room.room) 0 = Ok _)
    by reflexivity.
  assert (H5 : at_index [Float32Room.two_tone] 0 = Ok Float32Room.two_tone)
    by reflexivity.
  split.
  - refine (proj1 (proj1 (BakeIndirectLight_stores_in_bounds 1 [Float32Room.two_tone]
                            Float32Room.room (Float32Inputs.one_thread 2)
                            BounceArrays_fresh eq_refl eq_refl)
                     15 Vector3_zero Float32Inputs.up 0 _ _ _ _ _ _ _ H2 H3 H4 H5) _).
    simpl. lia.
  - refine (proj2 (proj1 (BakeIndirectLight_stores_in_bounds 1 [Float32Room.two_tone]
                            Float32Room.room (Float32Inputs.one_thread 2)
                            BounceArrays_fresh eq_refl eq_refl)
                     16 Vector3_zero Float32Inputs.up 0 _ _ _ _ _ _ _ H2 H3 H4 H5) _).
    simpl. lia.
Defined.

(** ** X8: random directions *)

(** X8: [RandomDirection] returns a drawn triple that [len > 1.0f] has not
    rejected, divided by its length; with a generator that keeps returning
    a number [x] for which [(x, x, x)] is rejected, the loop does not end.
    In exact arithmetic, with [Length] the square root of
    [LengthSquared], [RandomHemisphereDirection] returns a vector that
    makes no negative dot product with the normal and that is of length 1
    unless the triple drawn is of length 0; in binary32 the triple
    (0, 0, 0) gives a vector of NaN. *)
Theorem RandomHemisphereDirection_in_hemisphere :
  (∀ {F : Type} `{!FloatOps F} `{!Engine F} (fuel : nat) (rng rng' : Rng)
     (d : Vector3 F),
     RandomDirection fuel rng = Ok (d, rng') →
     ∃ result, fltb (of_int 1) (Length result) = false
               ∧ d = v3div result (Length result))
  ∧ (∀ {F : Type} `{!FloatOps F} `{!Engine F} (fuel : nat) (rng : Rng) (x : F),
       Random (of_int (-1)) (of_int 1) rng = (x, rng) →
       fltb (of_int 1) (Length (mkVector3 x x x)) = true →
       RandomDirection fuel rng = OutOfFuel)
  ∧ (∀ (E : Engine R),
       (∀ a : Vector3 R, Length a = sqrt (LengthSquared a)) →
       ∀ (fuel : nat) (normal : Vector3 R) (rng rng' : Rng) (d : Vector3 R),
         RandomHemisphereDirection fuel normal rng = Ok (d, rng') →
         (0 <= DotProduct d normal)%R
         ∧ ∃ result,
             (Length result <= 1)%R
             ∧ (d = v3div result (Length result)
                ∨ d = v3neg (v3div result (Length result)))
             ∧ (Length result ≠ 0%R → LengthSquared d = 1%R))
  ∧ RandomDirection (F:=Float32.float32) 1 [of_int 0; of_int 0; of_int 0]
    = Ok (mkVector3 S754_nan S754_nan S754_nan, []).
Proof.
  split; [exact @RandomDirection_Ok|].
  split; [exact @RandomDirection_stuck|].
  split; [exact @RandomHemisphereDirection_unit|].
  vm_compute. reflexivity.
Qed.

Lemma RandomHemisphereDirection_in_hemisphere_witness :
  ∃ d : Vector3 R,
    RandomHemisphereDirection (F:=R) 1 ExactFlat.up [0; 0; -1]%R = Ok (d, [])
    ∧ (0 <= DotProduct d ExactFlat.up)%R
    ∧ RandomDirection (F:=Float32.float32) 3 [] = OutOfFuel.
Proof.
  assert (Hlen : sqrt (LengthSquared (mkVector3 0 0 (-1))%R) = 1%R).
  { unfold LengthSquared. simpl.
    replace (0 * 0 + 0 * 0 + -1 * -1)%R with 1%R by ring. apply sqrt_1. }
  eassert (Hcall : RandomHemisphereDirection (F:=R) 1 ExactFlat.up [0; 0; -1]%R
                   = Ok (_, [])).
  { unfold RandomHemisphereDirection, RandomDirection. simpl Random.
    unfold replay_Random. cbv beta iota zeta.
    replace (Length (mkVector3 0 0 (-1))%R) with 1%R by (symmetry; exact Hlen).
    change (fltb (of_int 1) 1%R) with (Exact.Rltb 1 1).
    rewrite Rltb_false by lra. reflexivity. }
  eexists. split; [exact Hcall|]. split.
  - exact (proj1 (proj1 (proj2 (proj2 RandomHemisphereDirection_in_hemisphere))
                    Exact.real_engine (λ a, eq_refl) 1%nat ExactFlat.up _ _ _ Hcall)).
  - apply (proj1 (proj2 RandomHemisphereDirection_in_hemisphere)
             Float32.float32 Float32.float32_ops Float32.float32_engine
             3%nat [] (of_int (-1))).
    + reflexivity.
    + vm_compute. reflexivity.
Defined.

(** ** X9: the kernels *)

(** X9: a kernel that [GetKernel] returns is for a radius of 0, 1 or 2 and
    has [radius + 1] weights, so that every read [kernelWeights[Abs(d)]]
    with [-radius <= d <= radius] is inside it.  Its weights are positive
    and their sum over the offsets [-radius, ..., radius] is 1, in exact
    arithmetic and in binary32. *)
Theorem GetKernel_normalized :
  (∀ {F : Type} `{!FloatOps F} (radius : Z) (kernelWeights : list F),
     GetKernel radius = Ok kernelWeights →
     0 ≤ radius ≤ 2
     ∧ Z.of_nat (length kernelWeights) = radius + 1
     ∧ ∀ d, - radius ≤ d ≤ radius → ∃ k, at_index kernelWeights (Z.abs d) = Ok k)
  ∧ (∀ (radius : Z) (kernelWeights : list R),
       GetKernel radius = Ok kernelWeights →
       Forall (λ k, 0 < k)%R kernelWeights
       ∧ kernel_sum kernelWeights radius = 1%R)
  ∧ (∀ (radius : Z) (kernelWeights : list Float32.float32),
       GetKernel radius = Ok kernelWeights →
       kernel_sum kernelWeights radius = of_int 1).
Proof.
  split; [|split].
  - intros F ? radius kernelWeights H.
    destruct (GetKernel_length _ _ H) as [Hr Hlen].
    split; [done|]. split; [done|]. intros d Hd. by eapply GetKernel_read.
  - intros radius kernelWeights H.
    apply GetKernel_Ok in H as [[-> ->]|[[-> ->]|[-> ->]]].
    + split; [repeat constructor; simpl; lra|].
      unfold kernel_sum. simpl. lra.
    + split; [repeat constructor; simpl; lra|].
      unfold kernel_sum. simpl. lra.
    + split; [repeat constructor; simpl; lra|].
      unfold kernel_sum. simpl. lra.
  - intros radius kernelWeights H.
    apply GetKernel_Ok in H as [[-> ->]|[[-> ->]|[-> ->]]];
      vm_compute; reflexivity.
Qed.

Lemma GetKernel_normalized_witness :
  (∃ k : R, at_index k1 (Z.abs (-1)) = Ok k)
  ∧ kernel_sum (F:=R) k1 1 = 1%R
  ∧ kernel_sum (F:=Float32.float32) k2 2 = of_int 1.
Proof.
  split; [|split].
  - apply (proj2 (proj2 (proj1 GetKernel_normalized R _ 1 k1 eq_refl)) (-1)). lia.
  - exact (proj2 (proj1 (proj2 GetKernel_normalized) 1 k1 eq_refl)).
  - exact (proj2 (proj2 GetKernel_normalized) 2 k2 eq_refl).
Defined.

(** ** X10: the filter returns *)

(** X10: for a kernel radius of 0, 1 or 2 and at least one thread,
    [FilterIndirectLight] returns, on a chart whose geometry arrays and
    scratch buffer are at least as long as the buffer and whose valid
    locations have their index inside the buffer: no access is outside an
    array.  The buffers are exchanged and the dimensions are kept. *)
Theorem FilterIndirectLight_returns {F : Type} `{!FloatOps F} `{!Engine F} `{!LibM F}
    (bakedIndirect : Indirect.LightmapChartBakedIndirect F)
    (bakedGeometry : Geometry.LightmapChartBakedGeometry F)
    (params : IndirectFilterParameters F) (numThreads : Z) :
  0 ≤ kernelRadius_ params ≤ 2 →
  numThreads ≠ 0 →
  (length (Indirect.light_ bakedIndirect)
   ≤ length (Indirect.lightSwap_ bakedIndirect))%nat →
  (length (Indirect.light_ bakedIndirect)
   ≤ length (Geometry.geometryPositions_ bakedGeometry))%nat →
  (length (Indirect.light_ bakedIndirect)
   ≤ length (Geometry.smoothNormals_ bakedGeometry))%nat →
  (length (Indirect.light_ bakedIndirect)
   ≤ length (Geometry.geometryIds_ bakedGeometry))%nat →
  (∀ location, IsValidLocation bakedGeometry location = true →
     0 ≤ LocationToIndex bakedGeometry location
       < Z.of_nat (length (Indirect.light_ bakedIndirect))) →
  ∃ bakedIndirect',
    FilterIndirectLight bakedIndirect bakedGeometry params numThreads = Ok bakedIndirect'
    ∧ Indirect.width_ bakedIndirect' = Indirect.width_ bakedIndirect
    ∧ Indirect.height_ bakedIndirect' = Indirect.height_ bakedIndirect
    ∧ length (Indirect.light_ bakedIndirect') = length (Indirect.lightSwap_ bakedIndirect)
    ∧ Indirect.lightSwap_ bakedIndirect' = Indirect.light_ bakedIndirect.
Proof.
  intros Hr Hn Hs Hp Hnrm Hid Hvalid. unfold FilterIndirectLight.
  assert (∃ kernelWeights, GetKernel (F:=F) (kernelRadius_ params) = Ok kernelWeights)
    as [kernelWeights Hkernel].
  { assert (kernelRadius_ params = 0 ∨ kernelRadius_ params = 1
            ∨ kernelRadius_ params = 2) as [->|[->| ->]] by lia; simpl; eauto. }
  rewrite Hkernel. cbn [mbind Outcome_bind].
  pose proof (size_unsigned_le (Indirect.light_ bakedIndirect)) as Hsize.
  destruct (ParallelFor_total
              (λ l : list (Vector4 F), length l = length (Indirect.lightSwap_ bakedIndirect))
              (size_unsigned (Indirect.light_ bakedIndirect)) numThreads
              (FilterIndirectLight_texel (Indirect.light_ bakedIndirect) bakedGeometry
                 params kernelWeights)
              (Indirect.lightSwap_ bakedIndirect) Hn) as (buffer & -> & Hlen);
    [|done|simpl; eauto 10].
  intros j s Hj Hlen.
  destruct (FilterIndirectLight_texel_total bakedIndirect bakedGeometry params
              kernelWeights Hkernel Hp Hnrm Hid Hvalid j s) as (s' & Hs' & Hlen');
    [lia|lia|].
  exists s'. split; [done|congruence].
Qed.

Lemma FilterIndirectLight_returns_witness :
  ∃ bakedIndirect',
    FilterIndirectLight ExactFlat.grey_indirect ExactFlat.flat_geometry
      (ExactInputs.filter_radius 2) 3 = Ok bakedIndirect'
    ∧ Indirect.lightSwap_ bakedIndirect' = [ExactFlat.grey; ExactFlat.grey].
Proof.
  destruct (FilterIndirectLight_returns ExactFlat.grey_indirect ExactFlat.flat_geometry
              (ExactInputs.filter_radius 2) 3)
    as (bakedIndirect' & Hcall & _ & _ & _ & Hswap).
  - simpl. lia.
  - discriminate.
  - simpl. lia.
  - simpl. lia.
  - simpl. lia.
  - simpl. lia.
  - intros [x y]. simpl. unfold row_IsValidLocation, row_LocationToIndex, wrap32.
    simpl. intros [Hx Hy]%andb_prop.
    apply bool_decide_eq_true in Hx, Hy.
    assert (y = 0) as -> by lia.
    rewrite Z.mod_small by lia. lia.
  - exists bakedIndirect'. split; [exact Hcall|exact Hswap].
Defined.

(** ** X11: the range of the filtered values *)

(** X11: in exact arithmetic (no negative result of [std::exp] and [Pow],
    [M_EPSILON] below 9/64), what [FilterIndirectLight] leaves in the
    entry of a texel with geometry is a weighted mean of entries of texels
    with geometry: when these lie between [lo] and [hi], channel by
    channel, before the call, so does the entry after the call; in
    particular a buffer that holds the same colour on all texels with
    geometry keeps that colour on them. *)
Theorem FilterIndirectLight_within_range (E : Engine R) (L : LibM R)
    (bakedIndirect bakedIndirect' : Indirect.LightmapChartBakedIndirect R)
    (bakedGeometry : Geometry.LightmapChartBakedGeometry R)
    (params : IndirectFilterParameters R) (numThreads : Z) (lo hi : Vector4 R) :
  (∀ x : R, 0 <= exp x)%R →
  (∀ x y : R, 0 <= x → 0 <= Pow x y)%R →
  (M_EPSILON < 9 / 64)%R →
  1 ≤ numThreads →
  Z.of_nat (length (Indirect.light_ bakedIndirect)) + numThreads ≤ 2 ^ 32 →
  FilterIndirectLight bakedIndirect bakedGeometry params numThreads = Ok bakedIndirect' →
  (∀ (i : nat) (color : Vector4 R) (geometryId : Z),
     Indirect.light_ bakedIndirect !! i = Some color →
     Geometry.geometryIds_ bakedGeometry !! i = Some geometryId →
     geometryId ≠ 0 →
     Vector4_le lo color ∧ Vector4_le color hi) →
  ∀ (i : nat) (color : Vector4 R) (geometryId : Z),
    Indirect.light_ bakedIndirect !! i = Some color →
    Geometry.geometryIds_ bakedGeometry !! i = Some geometryId →
    geometryId ≠ 0 →
    ∃ filtered,
      Indirect.light_ bakedIndirect' !! i = Some filtered
      ∧ Vector4_le lo filtered ∧ Vector4_le filtered hi
      ∧ (lo = hi → filtered = color).
Proof.
  intros Hexp Hpow Heps Hn Hfit H Hrange i color geometryId Hcolor Hid Hgeo.
  pose proof H as Hcall.
  eapply (FilterIndirectLight_steps
            (filter_update bakedGeometry
               (λ _ filtered, Vector4_le lo filtered ∧ Vector4_le filtered hi)))
    in H as [H _].
  2:{ intros kernelWeights j lightSwap lightSwap' Hkernel Htexel.
      apply FilterIndirectLight_texel_spec in Htexel
        as (f & (gid & filtered & Hgid & HP & ->) & ->).
      eexists. split; [|reflexivity].
      exists gid, filtered. split; [done|]. split; [|done].
      intros Hg.
      destruct (HP Hg) as (c & p & nrm & k0 & acc & Hc & _ & _ & Hk0 & Hga & ->).
      eapply FilterIndirectLight_filtered_range; eauto. }
  rewrite size_unsigned_small in H by lia.
  rewrite ParallelFor_indices_exact in H by lia.
  pose proof (lookup_lt_Some _ _ _ Hcolor) as Hlt.
  destruct (Indirect.lightSwap_ bakedIndirect !! i) as [scratch|] eqn:Hscratch.
  - destruct (steps_seqZ_lookup _ _ 0 _ _ (Z.le_refl 0) H i scratch Hscratch) as [Hin _].
    destruct Hin as (f & (gid & filtered & Hgid & HP & ->) & Hnew); [lia|].
    rewrite Nat2Z.id in Hgid. rewrite Hid in Hgid. inversion Hgid; subst gid.
    destruct (decide (geometryId = 0)); [done|].
    exists filtered. split; [done|]. destruct (HP Hgeo) as [Hlo Hhi].
    split; [done|]. split; [done|]. intros ->.
    destruct (Hrange _ _ _ Hcolor Hid Hgeo) as [H1 H2].
    transitivity hi; [|symmetry]; by apply Vector4_le_antisym.
  - apply lookup_ge_None in Hscratch.
    pose proof (FilterIndirectLight_scratch_covers _ _ _ _ _ i _ Hn Hfit Hcall Hlt
                  Hid Hgeo). lia.
Qed.

Lemma FilterIndirectLight_within_range_witness :
  ∃ bakedIndirect' filtered,
    FilterIndirectLight ExactFlat.grey_indirect ExactFlat.flat_geometry
      (ExactInputs.filter_radius 1) 1 = Ok bakedIndirect'
    ∧ Indirect.light_ bakedIndirect' !! 1%nat = Some filtered
    ∧ filtered = ExactFlat.grey.
Proof.
  eassert (Hcall : FilterIndirectLight ExactFlat.grey_indirect ExactFlat.flat_geometry
                     (ExactInputs.filter_radius 1) 1 = Ok _)
    by (vm_compute; reflexivity).
  assert (Hexp : ∀ x : R, (0 <= exp x)%R) by (intros x; left; apply exp_pos).
  assert (Hpow : ∀ x y : R, (0 <= x)%R → (0 <= Pow x y)%R)
    by (intros x y _; apply RealPow_nonneg).
  assert (Heps : (M_EPSILON < 9 / 64)%R) by (simpl; lra).
  assert (Hn : (1 : Z) ≤ 1) by lia.
  assert (Hfit : Z.of_nat (length (Indirect.light_ ExactFlat.grey_indirect)) + 1
                 ≤ 2 ^ 32) by (simpl; lia).
  assert (Hrange : ∀ (i : nat) (color : Vector4 R) (geometryId : Z),
             Indirect.light_ ExactFlat.grey_indirect !! i = Some color →
             Geometry.geometryIds_ ExactFlat.flat_geometry !! i = Some geometryId →
             geometryId ≠ 0 →
             Vector4_le ExactFlat.grey color ∧ Vector4_le color ExactFlat.grey).
  { intros [|[|i]] color geometryId Hc _ _; simpl in Hc; [| |done];
      inversion Hc; subst color; unfold Vector4_le; simpl; lra. }
  destruct (FilterIndirectLight_within_range _ _ _ _ _ _ _ _ _
              Hexp Hpow Heps Hn Hfit Hcall Hrange 1%nat ExactFlat.grey 1
              eq_refl eq_refl ltac:(discriminate))
    as (filtered & Hnew & _ & _ & Hsame).
  eexists _, filtered. split; [exact Hcall|]. split; [exact Hnew|].
  by apply Hsame.
Defined.

(** ** X12: the edge-stopping weight in exact arithmetic *)

(** X12: in exact arithmetic [CalculateEdgeWeight] gives two texels the
    same weight in both directions; the weight lies between 0 and 1 when
    the two sigmas are positive, the dot product of the normals is 1 at
    most and the power is not negative; it is 0 when the normals are at a
    right angle or more (with a positive power), and 1 between two texels
    of equal luminance and position whose normals have the dot product
    1. *)
Theorem CalculateEdgeWeight_exact
    (luminance1 luminance2 luminanceSigma : R)
    (position1 position2 : Vector3 R) (positionSigma : R)
    (normal1 normal2 : Vector3 R) (normalPower : R) :
  let weight :=
    CalculateEdgeWeight luminance1 luminance2 luminanceSigma
      position1 position2 positionSigma normal1 normal2 normalPower in
  (weight = CalculateEdgeWeight luminance2 luminance1 luminanceSigma
              position2 position1 positionSigma normal2 normal1 normalPower)
  ∧ (0 < luminanceSigma → 0 < positionSigma → DotProduct normal1 normal2 <= 1 →
     0 <= normalPower → 0 <= weight <= 1)%R
  ∧ (DotProduct normal1 normal2 <= 0 → 0 < normalPower → weight = 0)%R
  ∧ (luminance1 = luminance2 → position1 = position2 →
     DotProduct normal1 normal2 = 1 →
     luminanceSigma ≠ 0 → positionSigma ≠ 0 → weight = 1)%R.
Proof.
  cbv zeta. rewrite !CalculateEdgeWeight_real.
  split; [|split; [|split]].
  - rewrite (LengthSquared_v3sub position1), (DotProduct_comm normal1).
    rewrite <- (Rabs_Ropp (luminance1 - luminance2)%R).
    by replace (- (luminance1 - luminance2))%R with (luminance2 - luminance1)%R by ring.
  - intros Hl Hp Hdot Hpow.
    assert (0 <= Rabs (luminance1 - luminance2) / luminanceSigma)%R.
    { apply Rdiv_nonneg; [apply Rabs_pos|done]. }
    assert (0 <= LengthSquared (v3sub position1 position2) / positionSigma)%R.
    { apply Rdiv_nonneg; [apply LengthSquared_nonneg|done]. }
    pose proof (fmax_real_range _ Hdot) as Hmax.
    pose proof (RealPow_le_1 _ _ Hmax Hpow).
    pose proof (RealPow_nonneg (fmax (of_int 0) (DotProduct normal1 normal2)) normalPower).
    match goal with
    | |- (0 <= Rtrigo_def.exp ?x * _ <= 1)%R =>
      pose proof (exp_le_1 x); pose proof (exp_pos x)
    end.
    split; [apply Rmult_le_pos; lra|].
    match goal with
    | |- (?a * ?b <= 1)%R => assert (a * b <= 1 * 1)%R by (apply Rmult_le_compat; lra)
    end. lra.
  - intros Hdot Hpow. rewrite (fmax_real_0 _ Hdot), RealPow_0 by (simpl; lra).
    apply Rmult_0_r.
  - intros -> -> Hdot Hl Hp. rewrite Hdot.
    replace (fmax (of_int 0) 1%R) with 1%R.
    2:{ unfold fmax. simpl. unfold Exact.Rltb. destruct (Rlt_dec 0 1); [done|lra]. }
    rewrite RealPow_1, Rmult_1_r, LengthSquared_v3sub_self.
    rewrite <- exp_0. f_equal.
    replace (luminance2 - luminance2)%R with 0%R by ring.
    rewrite Rabs_R0. by field.
Qed.

Lemma CalculateEdgeWeight_exact_witness :
  (0 <= CalculateEdgeWeight 1%R 2%R 1%R Vector3_zero ExactFlat.up 1%R
          ExactFlat.up ExactFlat.up 1%R <= 1)%R
  ∧ CalculateEdgeWeight 1%R 2%R 1%R Vector3_zero ExactFlat.up 1%R
      ExactFlat.up ExactFlat.down 1%R = 0%R
  ∧ CalculateEdgeWeight 1%R 1%R 1%R ExactFlat.up ExactFlat.up 1%R
      ExactFlat.up ExactFlat.up 1%R = 1%R.
Proof.
  split; [|split].
  - apply (proj1 (proj2 (CalculateEdgeWeight_exact 1%R 2%R 1%R Vector3_zero
                           ExactFlat.up 1%R ExactFlat.up ExactFlat.up 1%R)));
      try lra.
    unfold DotProduct. simpl. lra.
  - apply (proj1 (proj2 (proj2 (CalculateEdgeWeight_exact 1%R 2%R 1%R Vector3_zero
                                  ExactFlat.up 1%R ExactFlat.up ExactFlat.down 1%R))));
      [|lra].
    unfold DotProduct. simpl. lra.
  - apply (proj2 (proj2 (proj2 (CalculateEdgeWeight_exact 1%R 1%R 1%R ExactFlat.up
                                  ExactFlat.up 1%R ExactFlat.up ExactFlat.up 1%R))));
      try done; try lra.
    unfold DotProduct. simpl. lra.
Defined.

(** ** X13: texels that receive no direct light *)

(** X13: in exact arithmetic a call of [BakeDirectionalLight] (one thread
    at least, no wrap-around of the texel count) leaves the entry of a
    texel as it was when the texel has no geometry, when its shadow ray
    hits something, or when its normal makes no positive dot product with
    the direction to the light; every other texel receives the colour of
    the light times that dot product. *)
Theorem BakeDirectionalLight_exact (E : Engine R)
    (bakedDirect bakedDirect' : Direct.LightmapChartBakedDirect R)
    (bakedGeometry : Geometry.LightmapChartBakedGeometry R)
    (embreeScene : EmbreeScene R) (light : DirectionalLightParameters R)
    (settings : LightmapTracingSettings R) (i : nat) (old : Vector3 R) :
  1 ≤ numThreads_ settings →
  Z.of_nat (length (Direct.light_ bakedDirect)) + numThreads_ settings ≤ 2 ^ 32 →
  BakeDirectionalLight bakedDirect bakedGeometry embreeScene light settings
    = Ok bakedDirect' →
  Direct.light_ bakedDirect !! i = Some old →
  ∃ position smoothNormal geometryId,
    Geometry.geometryPositions_ bakedGeometry !! i = Some position
    ∧ Geometry.smoothNormals_ bakedGeometry !! i = Some smoothNormal
    ∧ Geometry.geometryIds_ bakedGeometry !! i = Some geometryId
    ∧ Direct.light_ bakedDirect' !! i
      = Some
          (if decide (geometryId = 0) then old
           else
             match cast_ray (GetEmbreeScene embreeScene)
                     (shadow_ray (light_rayDirection light)
                        (GetMaxDistance embreeScene) position) with
             | Some _ => old
             | None =>
               if Rle_dec (DotProduct smoothNormal (light_rayDirection light)) 0
               then old
               else v3add old
                      (v3scale (ToVector3 (color_ light))
                         (DotProduct smoothNormal (light_rayDirection light)))
             end).
Proof.
  intros Hn Hfit Hcall Hold.
  destruct (BakeDirectionalLight_visited _ _ _ _ _ _ i old Hn Hfit Hcall Hold)
    as (position & smoothNormal & geometryId & Hp & Hnrm & Hid & Hnew).
  exists position, smoothNormal, geometryId.
  split; [done|]. split; [done|]. split; [done|].
  rewrite Hnew. f_equal. destruct (decide (geometryId = 0)); [done|].
  unfold light_contribution. rewrite direct_contribution_exact.
  destruct (cast_ray _ _); [apply v3add_zero|].
  destruct (Rle_dec _ _); [apply v3add_zero|done].
Qed.

Lemma BakeDirectionalLight_exact_witness :
  ∃ bakedDirect' position smoothNormal geometryId new,
    BakeDirectionalLight ExactFlat.black_direct ExactFlat.flat_geometry
      ExactFlat.open_sky ExactFlat.white_light ExactFlat.one_thread = Ok bakedDirect'
    ∧ Geometry.geometryPositions_ ExactFlat.flat_geometry !! 1%nat = Some position
    ∧ Geometry.smoothNormals_ ExactFlat.flat_geometry !! 1%nat = Some smoothNormal
    ∧ Geometry.geometryIds_ ExactFlat.flat_geometry !! 1%nat = Some geometryId
    ∧ Direct.light_ bakedDirect' !! 1%nat = Some new.
Proof.
  destruct (BakeDirectionalLight_total ExactFlat.black_direct ExactFlat.flat_geometry
              ExactFlat.open_sky ExactFlat.white_light ExactFlat.one_thread)
    as [bakedDirect' Hcall]; [discriminate|simpl; lia|simpl; lia|simpl; lia|].
  assert (Hn : 1 ≤ numThreads_ ExactFlat.one_thread) by (simpl; lia).
  assert (Hfit : Z.of_nat (length (Direct.light_ ExactFlat.black_direct))
                 + numThreads_ ExactFlat.one_thread ≤ 2 ^ 32) by (simpl; lia).
  destruct (BakeDirectionalLight_exact _ _ _ _ _ _ _ 1%nat Vector3_zero
              Hn Hfit Hcall eq_refl)
    as (position & smoothNormal & geometryId & Hp & Hnrm & Hid & Hnew).
  eexists bakedDirect', position, smoothNormal, geometryId, _.
  split; [exact Hcall|]. split; [exact Hp|]. split; [exact Hnrm|].
  split; [exact Hid|exact Hnew].
Defined.

(** ** X14: the order of the lights *)

(** X14: in exact arithmetic the order in which two directional lights are
    baked into a chart does not show: baking [lightA] and then [lightB]
    leaves the buffer that baking [lightB] and then [lightA] leaves (one
    thread at least, no wrap-around of the texel count).  In binary32 the
    order can show: on an entry of 2^24, a light that adds 1 and then a
    light that adds 2 leave 2^24 + 2, the other order leaves 2^24 + 4. *)
Theorem directional_lights_commute :
  (∀ (E : Engine R)
     (bakedDirect afterA afterAB afterB afterBA : Direct.LightmapChartBakedDirect R)
     (bakedGeometry : Geometry.LightmapChartBakedGeometry R)
     (embreeScene : EmbreeScene R) (lightA lightB : DirectionalLightParameters R)
     (settings : LightmapTracingSettings R),
     1 ≤ numThreads_ settings →
     Z.of_nat (length (Direct.light_ bakedDirect)) + numThreads_ settings ≤ 2 ^ 32 →
     BakeDirectionalLight bakedDirect bakedGeometry embreeScene lightA settings
       = Ok afterA →
     BakeDirectionalLight afterA bakedGeometry embreeScene lightB settings
       = Ok afterAB →
     BakeDirectionalLight bakedDirect bakedGeometry embreeScene lightB settings
       = Ok afterB →
     BakeDirectionalLight afterB bakedGeometry embreeScene lightA settings
       = Ok afterBA →
     afterAB = afterBA)
  ∧ (let bake light bakedDirect :=
       BakeDirectionalLight bakedDirect Float32Inputs.one_texel Float32Inputs.open_sky
         light (Float32Inputs.one_thread 0) in
     ∃ afterA afterB,
       bake Float32Inputs.zenith_light Float32Order.heavy_direct = Ok afterA
       ∧ bake Float32Order.double_light afterA
         = Ok (Direct.mk 1 1
                 [mkVector3 (of_int 16777218) (of_int 16777218) (of_int 16777218)])
       ∧ bake Float32Order.double_light Float32Order.heavy_direct = Ok afterB
       ∧ bake Float32Inputs.zenith_light afterB
         = Ok (Direct.mk 1 1
                 [mkVector3 (of_int 16777220) (of_int 16777220) (of_int 16777220)])
       ∧ of_int 16777218 ≠ (of_int 16777220 : Float32.float32)).
Proof.
  split.
  2:{ cbv zeta. eexists _, _.
      split; [vm_compute; reflexivity|]. split; [vm_compute; reflexivity|].
      split; [vm_compute; reflexivity|]. split; [vm_compute; reflexivity|].
      vm_compute. discriminate. }
  intros E bakedDirect afterA afterAB afterB afterBA bakedGeometry embreeScene
    lightA lightB settings Hn Hfit HA HAB HB HBA.
  pose proof (BakeDirectionalLight_dimensions _ _ _ _ _ _ HA) as (WA & HhA & LA).
  pose proof (BakeDirectionalLight_dimensions _ _ _ _ _ _ HAB) as (WAB & HhAB & LAB).
  pose proof (BakeDirectionalLight_dimensions _ _ _ _ _ _ HB) as (WB & HhB & LB).
  pose proof (BakeDirectionalLight_dimensions _ _ _ _ _ _ HBA) as (WBA & HhBA & LBA).
  assert (Hlight : Direct.light_ afterAB = Direct.light_ afterBA).
  { apply list_eq. intros i.
    destruct (Direct.light_ bakedDirect !! i) as [old|] eqn:Hold.
    - destruct (BakeDirectionalLight_visited _ _ _ _ _ _ i old Hn Hfit HA Hold)
        as (position & smoothNormal & geometryId & Hp & Hnrm & Hid & HoldA).
      pose proof (BakeDirectionalLight_lookup _ _ _ _ _ _ i _ _ _ _ Hn Hfit HB Hold
                    Hp Hnrm Hid) as HoldB.
      assert (HfitA : Z.of_nat (length (Direct.light_ afterA)) + numThreads_ settings
                      ≤ 2 ^ 32) by (rewrite LA; exact Hfit).
      assert (HfitB : Z.of_nat (length (Direct.light_ afterB)) + numThreads_ settings
                      ≤ 2 ^ 32) by (rewrite LB; exact Hfit).
      rewrite (BakeDirectionalLight_lookup _ _ _ _ _ _ i _ _ _ _ Hn HfitA HAB HoldA
                 Hp Hnrm Hid).
      rewrite (BakeDirectionalLight_lookup _ _ _ _ _ _ i _ _ _ _ Hn HfitB HBA HoldB
                 Hp Hnrm Hid).
      destruct (decide (geometryId = 0)); [done|].
      f_equal. apply v3add_comm_assoc.
    - apply lookup_ge_None in Hold.
      rewrite (proj2 (lookup_ge_None (Direct.light_ afterAB) i)),
        (proj2 (lookup_ge_None (Direct.light_ afterBA) i)); [done|lia|lia]. }
  destruct afterAB as [w1 h1 l1], afterBA as [w2 h2 l2]. simpl in *.
  f_equal; congruence.
Qed.

Lemma directional_lights_commute_witness :
  ∃ afterA afterAB afterB afterBA,
    BakeDirectionalLight ExactFlat.black_direct ExactFlat.flat_geometry
      ExactFlat.open_sky ExactFlat.white_light ExactFlat.one_thread = Ok afterA
    ∧ BakeDirectionalLight afterA ExactFlat.flat_geometry
        ExactFlat.open_sky ExactFlat.red_light ExactFlat.one_thread = Ok afterAB
    ∧ BakeDirectionalLight ExactFlat.black_direct ExactFlat.flat_geometry
        ExactFlat.open_sky ExactFlat.red_light ExactFlat.one_thread = Ok afterB
    ∧ BakeDirectionalLight afterB ExactFlat.flat_geometry
        ExactFlat.open_sky ExactFlat.white_light ExactFlat.one_thread = Ok afterBA
    ∧ afterAB = afterBA.
Proof.
  destruct (BakeDirectionalLight_total ExactFlat.black_direct ExactFlat.flat_geometry
              ExactFlat.open_sky ExactFlat.white_light ExactFlat.one_thread)
    as [afterA HA]; [discriminate|simpl; lia|simpl; lia|simpl; lia|].
  destruct (BakeDirectionalLight_total ExactFlat.black_direct ExactFlat.flat_geometry
              ExactFlat.open_sky ExactFlat.red_light ExactFlat.one_thread)
    as [afterB HB]; [discriminate|simpl; lia|simpl; lia|simpl; lia|].
  pose proof (BakeDirectionalLight_dimensions _ _ _ _ _ _ HA) as (_ & _ & LA).
  pose proof (BakeDirectionalLight_dimensions _ _ _ _ _ _ HB) as (_ & _ & LB).
  destruct (BakeDirectionalLight_total afterA ExactFlat.flat_geometry
              ExactFlat.open_sky ExactFlat.red_light ExactFlat.one_thread)
    as [afterAB HAB];
    [discriminate|rewrite LA; simpl; lia|rewrite LA; simpl; lia
    |rewrite LA; simpl; lia|].
  destruct (BakeDirectionalLight_total afterB ExactFlat.flat_geometry
              ExactFlat.open_sky ExactFlat.white_light ExactFlat.one_thread)
    as [afterBA HBA];
    [discriminate|rewrite LB; simpl; lia|rewrite LB; simpl; lia
    |rewrite LB; simpl; lia|].
  exists afterA, afterAB, afterB, afterBA.
  split; [exact HA|]. split; [exact HAB|]. split; [exact HB|]. split; [exact HBA|].
  refine (proj1 directional_lights_commute _ _ _ _ _ _ _ _ _ _ _ _ _ HA HAB HB HBA).
  - simpl. lia.
  - simpl. lia.
Defined.

(** ** X15: the accumulated radiance in exact arithmetic *)

(** X15: when the slots [0, ..., h - 1] of the two arrays hold the pairs
    (sample, weight) of a path, the loop [for (j = numSamples - 1; j >= 0;
    --j)] run with [numSamples = h] returns, in exact arithmetic, the sum
    over the pairs of the sample times the product of the weights up to
    its own. *)
Theorem accumulate_throughput (a : BounceArrays R) (pairs : list (Vector3 R * R)) :
  (∀ (k : nat) p, pairs !! k = Some p →
     incomingSamples a !! k = Some p.1
     ∧ incomingFactors a !! k = Some (Some p.2)) →
  accumulate a (Z.of_nat (length pairs)) = Ok (throughput_sum pairs 1%R).
Proof.
  intros Hslots. unfold accumulate.
  rewrite (accumulate_slots a pairs 0); [|lia|exact Hslots].
  f_equal. rewrite <- back_to_front_throughput.
  destruct (back_to_front pairs). unfold v3scale. simpl. f_equal; ring.
Qed.

Lemma accumulate_throughput_witness :
  accumulate
    (mkBounceArrays [mkVector3 1 1 1; mkVector3 5 5 5]%R [Some 2%R; Some 3%R])
    (Z.of_nat (length [(mkVector3 1 1 1, 2); (mkVector3 5 5 5, 3)]%R))
  = Ok (throughput_sum [(mkVector3 1 1 1, 2); (mkVector3 5 5 5, 3)]%R 1%R)
  ∧ throughput_sum [(mkVector3 1 1 1, 2); (mkVector3 5 5 5, 3)]%R 1%R
    = (mkVector3 32 32 32)%R.
Proof.
  split.
  - apply accumulate_throughput.
    intros [|[|k]] p Hp; simpl in Hp; [| |done]; inversion Hp; subst p; done.
  - unfold throughput_sum, v3add, v3scale, Vector3_zero. simpl. f_equal; ring.
Defined.

(** ** X16: a texel without neighbours *)

(** X16: for a texel with geometry that has no neighbour under the kernel
    (every other location the kernel reaches is outside the chart or has
    the geometry id 0), [FilterIndirectLight] stores
    [centerColor * (k * k) / max(M_EPSILON, k * k)] with [k] the centre
    weight of the kernel, whatever the radius.  In exact arithmetic (with
    [M_EPSILON] below 9/64) this is [centerColor]; in binary32 it is not
    always: with radius 2, [k * k] is 9/64 and a chart of one texel that
    holds 14913695 * 2^-23 holds 14913694 * 2^-23 after the call. *)
Theorem FilterIndirectLight_alone :
  (∀ {F : Type} `{!FloatOps F} `{!Engine F} `{!LibM F}
     (bakedIndirect bakedIndirect' : Indirect.LightmapChartBakedIndirect F)
     (bakedGeometry : Geometry.LightmapChartBakedGeometry F)
     (params : IndirectFilterParameters F) (numThreads : Z)
     (i : nat) (centerColor : Vector4 F) (geometryId : Z),
     1 ≤ numThreads →
     Z.of_nat (length (Indirect.light_ bakedIndirect)) + numThreads ≤ 2 ^ 32 →
     FilterIndirectLight bakedIndirect bakedGeometry params numThreads
       = Ok bakedIndirect' →
     Indirect.light_ bakedIndirect !! i = Some centerColor →
     Geometry.geometryIds_ bakedGeometry !! i = Some geometryId →
     geometryId ≠ 0 →
     alone bakedGeometry params (Z.of_nat i) →
     ∃ kernelWeights k,
       GetKernel (kernelRadius_ params) = Ok kernelWeights
       ∧ kernelWeights !! 0%nat = Some k
       ∧ Indirect.light_ bakedIndirect' !! i
         = Some (v4div (v4scale centerColor (k ⊗ k)) (fmax M_EPSILON (k ⊗ k))))
  ∧ (∀ (E : Engine R) (radius : Z) (kernelWeights : list R) (k : R)
       (centerColor : Vector4 R),
       (M_EPSILON < 9 / 64)%R →
       GetKernel radius = Ok kernelWeights →
       kernelWeights !! 0%nat = Some k →
       v4div (v4scale centerColor (k ⊗ k)) (fmax M_EPSILON (k ⊗ k)) = centerColor)
  ∧ (∀ (L : LibM Float32.float32),
       let after : Float32.float32 := S754_finite false 14913694 (-23) in
       FilterIndirectLight Float32Alone.tinted Float32Inputs.one_texel
         Float32Alone.wide_kernel 1
       = Ok (Indirect.mk 1 1 [mkVector4 after after after after]
               (Indirect.light_ Float32Alone.tinted))).
Proof.
  split; [|split].
  - intros F ? ? ? bakedIndirect bakedIndirect' bakedGeometry params numThreads
      i centerColor geometryId Hn Hfit H Hcolor Hid Hgeo Halone.
    pose proof H as Hcall.
    eapply (FilterIndirectLight_steps
              (filter_update bakedGeometry
                 (λ j filtered,
                    ∃ kernelWeights c k,
                      GetKernel (kernelRadius_ params) = Ok kernelWeights
                      ∧ Indirect.light_ bakedIndirect !! Z.to_nat j = Some c
                      ∧ kernelWeights !! 0%nat = Some k
                      ∧ (alone bakedGeometry params j →
                         filtered
                         = v4div (v4scale c (k ⊗ k)) (fmax M_EPSILON (k ⊗ k))))))
      in H as [H _].
    2:{ intros kernelWeights j lightSwap lightSwap' Hkernel Htexel.
        apply FilterIndirectLight_texel_spec in Htexel
          as (f & (gid & filtered & Hgid & HP & ->) & ->).
        eexists. split; [|reflexivity].
        exists gid, filtered. split; [done|]. split; [|done].
        intros Hg.
        destruct (HP Hg) as (c & p & nrm & k & acc & Hc & _ & _ & Hk & Hga & ->).
        exists kernelWeights, c, k. split; [done|]. split; [done|]. split; [done|].
        intros Hj.
        rewrite (FilterIndirectLight_gather_alone _ _ _ _ j _ _ _ _ Hkernel Hj) in Hga.
        by inversion Hga; subst acc. }
    rewrite size_unsigned_small in H by lia.
    rewrite ParallelFor_indices_exact in H by lia.
    pose proof (lookup_lt_Some _ _ _ Hcolor) as Hlt.
    destruct (Indirect.lightSwap_ bakedIndirect !! i) as [scratch|] eqn:Hscratch.
    + destruct (steps_seqZ_lookup _ _ 0 _ _ (Z.le_refl 0) H i scratch Hscratch)
        as [Hin _].
      destruct Hin as (f & (gid & filtered & Hgid & HP & ->) & Hnew); [lia|].
      rewrite Nat2Z.id in Hgid. rewrite Hid in Hgid. inversion Hgid; subst gid.
      destruct (decide (geometryId = 0)); [done|].
      destruct (HP Hgeo) as (kernelWeights & c & k & Hkernel & Hc & Hk & Hfiltered).
      rewrite Nat2Z.id, Hcolor in Hc. inversion Hc; subst c.
      exists kernelWeights, k. split; [done|]. split; [done|].
      by rewrite Hnew, Hfiltered.
    + apply lookup_ge_None in Hscratch.
      pose proof (FilterIndirectLight_scratch_covers _ _ _ _ _ i _ Hn Hfit Hcall Hlt
                    Hid Hgeo). lia.
  - intros E radius kernelWeights k centerColor Heps Hkernel Hk.
    destruct (GetKernel_center Heps _ _ Hkernel) as (k' & Hk' & Hpos & Hsmall).
    rewrite Hk in Hk'. inversion Hk'; subst k'.
    change (k ⊗ k) with (k * k)%R. rewrite fmax_real_r by done.
    destruct centerColor as [x y z w]. unfold v4div, v4scale. simpl.
    f_equal; field; intros Hz; rewrite Hz in Hpos; lra.
  - intros L. vm_compute. reflexivity.
Qed.

Lemma FilterIndirectLight_alone_witness :
  ∃ bakedIndirect',
    FilterIndirectLight ExactInputs.stale_indirect ExactInputs.lit_geometry
      (ExactInputs.filter_radius 2) 1 = Ok bakedIndirect'
    ∧ alone ExactInputs.lit_geometry (ExactInputs.filter_radius 2) 0
    ∧ Indirect.light_ bakedIndirect' !! 0%nat = Some (mkVector4 1 1 1 1)%R.
Proof.
  assert (Halone : alone ExactInputs.lit_geometry (ExactInputs.filter_radius 2) 0).
  { intros dy dx Hdy Hdx Hoff. left.
    unfold tap_location. simpl. unfold row_IsValidLocation. simpl.
    change (0 `mod` 1) with 0. change (0 `div` 1) with 0.
    apply andb_false_iff.
    destruct (decide (dx = 0)) as [->|Hx].
    - right. apply bool_decide_eq_false. lia.
    - left. apply bool_decide_eq_false. lia. }
  assert (Hn : (1 : Z) ≤ 1) by lia.
  assert (Hfit : Z.of_nat (length (Indirect.light_ ExactInputs.stale_indirect)) + 1
                 ≤ 2 ^ 32) by (simpl; lia).
  assert (Hgeo : (1 : Z) ≠ 0) by discriminate.
  eassert (Hcall : FilterIndirectLight ExactInputs.stale_indirect
                     ExactInputs.lit_geometry (ExactInputs.filter_radius 2) 1
                   = Ok _) by (vm_compute; reflexivity).
  destruct (proj1 FilterIndirectLight_alone R _ _ _ ExactInputs.stale_indirect _
              ExactInputs.lit_geometry (ExactInputs.filter_radius 2) 1 0%nat
              (mkVector4 1 1 1 1)%R 1 Hn Hfit Hcall eq_refl eq_refl Hgeo Halone)
    as (kernelWeights & k & Hkernel & Hk & Hnew).
  eexists. split; [exact Hcall|]. split; [exact Halone|].
  rewrite Hnew. f_equal.
  apply (proj1 (proj2 FilterIndirectLight_alone) _ 2 kernelWeights); [|done|done].
  simpl. lra.
Defined.

(** ** X17: light is only added *)

(** X17: in exact arithmetic the two bakers only add light.  With a light
    whose colour has no negative channel, no channel of an entry is lower
    after a call of [BakeDirectionalLight] than before.  With a positive
    [M_PI] and a chart 0 whose samples have no negative channel, no
    channel of an entry is lower after a call of [BakeIndirectLight] than
    before, whatever slots the accumulation has read: every weight that
    is recorded belongs to a direction of the hemisphere of the normal.
    Both hold for any number of threads. *)
Theorem bakers_add_light :
  (∀ (E : Engine R) (bakedDirect bakedDirect' : Direct.LightmapChartBakedDirect R)
     (bakedGeometry : Geometry.LightmapChartBakedGeometry R)
     (embreeScene : EmbreeScene R) (light : DirectionalLightParameters R)
     (settings : LightmapTracingSettings R) (i : nat) (old new : Vector3 R),
     Vector3_le Vector3_zero (ToVector3 (color_ light)) →
     BakeDirectionalLight bakedDirect bakedGeometry embreeScene light settings
       = Ok bakedDirect' →
     Direct.light_ bakedDirect !! i = Some old →
     Direct.light_ bakedDirect' !! i = Some new →
     Vector3_le old new)
  ∧ (∀ (E : Engine R) (fuel : nat)
       (bakedIndirect bakedIndirect' : Indirect.LightmapChartBakedIndirect R)
       (bakedDirect : list (Direct.LightmapChartBakedDirect R))
       (bakedGeometry : Geometry.LightmapChartBakedGeometry R)
       (embreeScene : EmbreeScene R) (settings : LightmapTracingSettings R)
       (rng rng' : Rng) (i : nat) (old new : Vector4 R),
       (0 < M_PI)%R →
       (∀ chart uv, bakedDirect !! 0%nat = Some chart →
          Vector3_le Vector3_zero (SampleNearest chart uv)) →
       BakeIndirectLight fuel bakedIndirect bakedDirect bakedGeometry embreeScene
         settings rng = Ok (bakedIndirect', rng') →
       Indirect.light_ bakedIndirect !! i = Some old →
       Indirect.light_ bakedIndirect' !! i = Some new →
       Vector4_le old new).
Proof.
  split.
  - intros E bakedDirect bakedDirect' bakedGeometry embreeScene light settings
      i old new Hcolor Hcall Hold Hnew.
    apply BakeDirectionalLight_steps_chunks in Hcall.
    refine (steps_related Vector3_le _ _ _ _ Vector3_le_refl Vector3_le_trans _
              Hcall i old new Hold Hnew).
    intros j f (position & smoothNormal & geometryId & _ & _ & _ & ->) x.
    destruct (decide (geometryId = 0)); [apply Vector3_le_refl|].
    apply v3add_nonneg. by apply light_contribution_nonneg.
  - intros E fuel bakedIndirect bakedIndirect' bakedDirect bakedGeometry embreeScene
      settings rng rng' i old new Hpi Hsample Hcall Hold Hnew.
    unfold BakeIndirectLight in Hcall.
    apply bind_Ok in Hcall as (_ & _ & Hcall).
    apply bind_Ok in Hcall as ([light r] & Hpar & Hcall).
    inversion Hcall; subst bakedIndirect' rng'; clear Hcall. cbn [Indirect.light_] in Hnew.
    eapply (ParallelFor_steps_chunks fst (λ _ f, ∀ old, Vector4_le old (f old)))
      in Hpar.
    2:{ intros fromIndex toIndex s s'.
        by apply BakeIndirectLight_task_nonneg. }
    refine (steps_related Vector4_le _ _ _ _ Vector4_le_refl Vector4_le_trans _
              Hpar i old new Hold Hnew).
    intros j f Hf x. apply Hf.
Qed.

Lemma bakers_add_light_witness :
  (∃ bakedDirect' new,
     BakeDirectionalLight ExactFlat.black_direct ExactFlat.flat_geometry
       ExactFlat.open_sky ExactFlat.white_light ExactFlat.one_thread = Ok bakedDirect'
     ∧ Direct.light_ bakedDirect' !! 0%nat = Some new
     ∧ Vector3_le Vector3_zero new)
  ∧ (∃ bakedIndirect' new,
       BakeIndirectLight 0 ExactFlat.grey_indirect [] ExactFlat.flat_geometry
         ExactFlat.open_sky ExactFlat.one_thread [] = Ok (bakedIndirect', [])
       ∧ Indirect.light_ bakedIndirect' !! 0%nat = Some new
       ∧ Vector4_le ExactFlat.grey new).
Proof.
  split.
  - destruct (BakeDirectionalLight_total ExactFlat.black_direct ExactFlat.flat_geometry
                ExactFlat.open_sky ExactFlat.white_light ExactFlat.one_thread)
      as [bakedDirect' Hcall]; [discriminate|simpl; lia|simpl; lia|simpl; lia|].
    pose proof (BakeDirectionalLight_dimensions _ _ _ _ _ _ Hcall) as (_ & _ & Hlen).
    destruct (lookup_lt_is_Some_2 (Direct.light_ bakedDirect') 0) as [new Hnew].
    { rewrite Hlen. simpl. lia. }
    exists bakedDirect', new. split; [exact Hcall|]. split; [exact Hnew|].
    refine (proj1 bakers_add_light _ _ _ _ _ _ _ 0%nat Vector3_zero new _ Hcall
              eq_refl Hnew).
    unfold Vector3_le. simpl. lra.
  - destruct (BakeIndirectLight_no_bounce_total 0 [] ExactFlat.flat_geometry
                ExactFlat.open_sky ExactFlat.one_thread eq_refl
                ExactFlat.grey_indirect [])
      as [bakedIndirect' Hcall];
      [discriminate|simpl; lia|simpl; lia|simpl; lia|simpl; lia|].
    pose proof (BakeIndirectLight_dimensions _ _ _ _ _ _ _ _ _ Hcall)
      as (_ & _ & Hlen & _).
    destruct (lookup_lt_is_Some_2 (Indirect.light_ bakedIndirect') 0) as [new Hnew].
    { rewrite Hlen. simpl. lia. }
    exists bakedIndirect', new. split; [exact Hcall|]. split; [exact Hnew|].
    refine (proj2 bakers_add_light _ _ _ _ _ _ _ _ _ _ 0%nat ExactFlat.grey new
              PI_RGT_0 _ Hcall eq_refl Hnew).
    intros chart uv Hchart. discriminate.
Defined.
